(** * FESTIM: post-processing, export bookkeeping and problem set-up

    A shallow embedding of the Python-side orchestration code of FESTIM:

    - [FESTIM/post_processing.py]      (module [PostProcessing])
    - [festim/hydrogen_transport_problem.py] (module [HTransport])
    - [festim/exports/surface_quantity.py]   (module [SurfaceQuantity])
    - [festim/exports/xdmf.py]               (module [XDMF])
    - [festim/exports/txt_export.py]         (module [TXTExport])

    The finite-element library underneath (mesh queries, assembly of
    integrals, projection, file writers) is not part of the repository; its
    entry points are the fields of the classes [Backend] and [Geometry], and
    the expressions handed to it are symbolic terms.
    Floating-point scalars are modelled by exact rationals [Q]; exceptions
    by the [Raise] outcome of [result]. *)

From Stdlib Require Import ZArith QArith Qminmax Qround Qabs.
From stdpp Require Import base option list gmap strings pretty sorting.

Local Open Scope Z_scope.
Local Open Scope string_scope.
Local Open Scope list_scope.

(** ** Python runtime conventions *)

Module Py.

(** The exception classes the embedded code can raise, either through an
    explicit [raise] or through the interpreter (indexing, attribute access,
    dictionary lookup, division). *)
Inductive exn :=
| KeyError
| IndexError
| TypeError
| ValueError
| AttributeError
| ZeroDivisionError
| NotImplementedError
| OverflowError
| RuntimeError
| OSError.

Inductive result (A : Type) :=
| Ok (a : A)
| Raise (e : exn).
Arguments Ok {A} a.
Arguments Raise {A} e.

Definition bind {A B} (m : result A) (k : A → result B) : result B :=
  match m with
  | Ok a => k a
  | Raise e => Raise e
  end.

#[global] Instance result_ret : MRet result := @Ok.
#[global] Instance result_bind : MBind result := λ A B k m, bind m k.
#[global] Instance result_fmap : FMap result :=
  λ A B f m, match m with Ok a => Ok (f a) | Raise e => Raise e end.

Definition is_Ok {A} (m : result A) : Prop := ∃ a, m = Ok a.

(** [d[k]] on a dictionary. *)
Definition getitem {V} (d : gmap string V) (k : string) : result V :=
  match d !! k with
  | Some v => Ok v
  | None => Raise KeyError
  end.

(** [l[i]] on a list or array, with Python's negative indices. *)
Definition index {A} (l : list A) (i : Z) : result A :=
  let n := Z.of_nat (length l) in
  if decide (0 ≤ i < n) then
    match l !! Z.to_nat i with Some x => Ok x | None => Raise IndexError end
  else if decide (- n ≤ i < 0) then
    match l !! Z.to_nat (n + i) with Some x => Ok x | None => Raise IndexError end
  else Raise IndexError.

(** [l[a:b]] for [a ≥ 0] and [b ≤ 0], the only shape used here
    ([solutions[0:-2]]). *)
Definition slice_to_end_minus {A} (l : list A) (k : nat) : list A :=
  take (length l - k)%nat l.

(** [a % b] on integers. *)
Definition mod_ (a b : Z) : result Z :=
  if decide (b = 0) then Raise ZeroDivisionError else Ok (a `mod` b).

(** [x / y] on floats. *)
Definition truediv (x y : Q) : result Q :=
  if Qeq_bool y 0 then Raise ZeroDivisionError else Ok (x / y)%Q.

(** [for x in l: body], threading an accumulator and stopping at the first
    exception. *)
Fixpoint for_ {A S} (l : list A) (body : A → S → result S) (s : S) : result S :=
  match l with
  | [] => Ok s
  | x :: l' => s' ← body x s; for_ l' body s'
  end.

(** [[f(x) for x in l]]. *)
Fixpoint comprehension {A B} (f : A → result B) (l : list A) : result (list B) :=
  match l with
  | [] => Ok []
  | x :: l' => y ← f x; ys ← comprehension f l'; Ok (y :: ys)
  end.

(** [str(n)] for an integer. *)
Definition str_int (z : Z) : string := pretty z.

(** [s.isdigit()] and [int(s)] on ASCII text: a string stands for the
    Python string of its characters, all below 128.  Python also counts the
    decimal digits of other scripts, which such strings do not hold. *)
Definition is_digit_char (c : Ascii.ascii) : bool :=
  let n := Ascii.nat_of_ascii c in (48 <=? n)%nat && (n <=? 57)%nat.

Fixpoint all_digits (s : string) : bool :=
  match s with
  | EmptyString => true
  | String c s' => is_digit_char c && all_digits s'
  end.

Definition isdigit (s : string) : bool :=
  match s with
  | EmptyString => false
  | _ => all_digits s
  end.

(** [int(s)] for a string of decimal digits. *)
Fixpoint int_digits (acc : Z) (s : string) : Z :=
  match s with
  | EmptyString => acc
  | String c s' => int_digits (10 * acc + (Z.of_nat (Ascii.nat_of_ascii c) - 48)) s'
  end.

Definition int_of_str (s : string) : result Z :=
  if isdigit s then Ok (int_digits 0 s) else Raise ValueError.

End Py.
Import Py.

(** ** numpy reductions and array helpers *)

Module Np.

(** [np.hstack(arrays)]: concatenation; an empty sequence of arrays is
    rejected. *)
Definition hstack {A} (arrays : list (list A)) : result (list A) :=
  match arrays with
  | [] => Raise ValueError
  | _ => Ok (concat arrays)
  end.

(** [np.unique(a)]: the sorted distinct elements. *)
Definition unique (a : list nat) : list nat :=
  merge_sort (≤)%nat (remove_dups a).

(** [a[idx]] with an integer index array. *)
Definition take_indices {A} (a : list A) (idx : list nat) : result (list A) :=
  comprehension (λ i, index a (Z.of_nat i)) idx.

(** [np.max(a)] and [np.min(a)]; empty arrays are rejected. *)
Definition max (a : list Q) : result Q :=
  match a with
  | [] => Raise ValueError
  | x :: xs => Ok (foldl Qmax x xs)
  end.

Definition min (a : list Q) : result Q :=
  match a with
  | [] => Raise ValueError
  | x :: xs => Ok (foldl Qmin x xs)
  end.

End Np.

(** ** Symbolic UFL expressions and forms (legacy FEniCS interface) *)

Module Ufl.

(** A [fenics.Function]: its dof map (the dofs of each cell, by cell index)
    and its local vector of dof values. *)
Record Function := mkFunction {
  fn_name : string;
  fn_cell_dofs : list (list nat);
  fn_vector : list Q
}.

Inductive expr :=
| Fn (u : Function)
| UserExpression (name : string)
| IntValue (z : Z)
| RealValue (q : Q)
| FacetNormal
| Sum (a b : expr)
| Product (a b : expr)
| Division (a b : expr)
| Power (a b : expr)
| Grad (a : expr)
| Dot (a b : expr).

Inductive measure_kind := Mdx | Mds.

(** [Measure(kind, domain=mesh, subdomain_data=markers)(id)]. *)
Record measure := mkMeasure {
  m_kind : measure_kind;
  m_subdomain_data : list Z;
  m_subdomain_id : Z
}.

(** [integrand * measure]. *)
Record form := Integral {
  integrand : expr;
  over : measure
}.

(** The built-in [sum] over UFL operands: the initial [0] is absorbed by the
    first operand. *)
Definition py_sum (l : list expr) : expr :=
  match l with
  | [] => IntValue 0
  | x :: xs => foldl Sum x xs
  end.

(** [a * b] where [a] may be [None]. *)
Definition mul_opt (a : option expr) (b : expr) : result expr :=
  match a with
  | Some a' => Ok (Product a' b)
  | None => Raise TypeError
  end.

(** [a * b] where [b] may be [None]. *)
Definition mul_by_opt (a : expr) (b : option expr) : result expr :=
  match b with
  | Some b' => Ok (Product a b')
  | None => Raise TypeError
  end.

End Ufl.

(** ** FESTIM/post_processing.py: data *)

Module PostProcessingData.
Import Ufl.

(** The value stored under the ['field'] key of a derived-quantity entry:
    an [int], a [str], or a value of another type given by its [str()]. *)
Inductive field_key :=
| FieldInt (z : Z)
| FieldStr (s : string)
| FieldOther (repr : string).

(** [str(entry['field'])]. *)
Definition str_field (f : field_key) : string :=
  match f with
  | FieldInt z => str_int z
  | FieldStr s => s
  | FieldOther r => r
  end.

(** One request dictionary, e.g.
    [{'field': 'solute', 'volumes': [1, 2]}]; [None] is an absent key. *)
Record entry := mkEntry {
  e_field : option field_key;
  e_surfaces : option (list Z);
  e_volumes : option (list Z)
}.

(** Values of [parameters['exports']['derived_quantities']]: a list of
    entries under a quantity name, or a non-iterable setting (file, folder,
    iteration counts). *)
Inductive dq_value :=
| Entries (l : list entry)
| Setting.

(** [parameters['temperature']]; only the ['soret'] key is read here. *)
Record temperature_params := mkTemperature {
  tp_soret : option bool
}.

(** [parameters['exports']]; the payload of ['txt'] is only read by the
    profile exporter, outside this file. *)
Record exports_params := mkExports {
  exp_derived_quantities : option (gmap string dq_value);
  exp_txt : option unit
}.

Record parameters := mkParameters {
  par_exports : option exports_params;
  par_temperature : option temperature_params
}.

Record Trap := mkTrap {
  trap_id : Z;
  trap_post_processing_solution : expr
}.

(** The solution [u]: a function on a plain space or on a mixed space with
    sub-functions. *)
Inductive solution :=
| Scalar (u : expr)
| Mixed (components : list expr).

(** Members of [simulation.exports.exports]. *)
Record XDMFExportLegacy := mkXDMFLegacy {
  last_time_step_only : bool;
  xdmf_function : string;
  xdmf_append : bool
}.

Inductive Export :=
| ExportXDMF (x : XDMFExportLegacy)
| ExportOther.

(** Keys of [label_to_function]: integers and strings. *)
Definition label := (Z + string)%type.

(** File-system effects of one post-processing step, in order. *)
Inductive io_event :=
| CsvWritten (rows : list (list Q))
| XdmfWritten (function : string) (functions : gmap label expr) (t : Q)
| ProfilesExported (t : Q).

Record Simulation := mkSimulation {
  sim_parameters : parameters;
  sim_transient : bool;
  sim_u : solution;
  sim_T : expr;
  sim_volume_markers : list Z;
  sim_surface_markers : list Z;
  sim_t : Q;
  sim_dt : Q;
  sim_D : option expr;
  sim_thermal_cond : option expr;
  sim_H : option expr;
  sim_S : option expr;
  sim_derived_quantities_global : list (list Q);
  sim_mobile_solution : expr;
  sim_mobile_post_processing_solution : expr;
  sim_traps : list Trap;
  sim_chemical_pot : bool;
  sim_need_projecting_solute : bool;
  sim_nb_iterations : Z;
  sim_nb_iterations_between_compute_derived_quantities : Z;
  sim_nb_iterations_between_export_derived_quantities : option Z;
  sim_nb_iterations_between_exports : Z;
  sim_final_time : Q;
  sim_exports : list Export;
  sim_io : list io_event
}.

(** What this file takes from the rest of FESTIM and from FEniCS. *)
Class Backend := {
  (** [FESTIM.helpers.quantity_types] and [FESTIM.helpers.field_types] *)
  quantity_types : list string;
  field_types : list string;
  (** [FESTIM.R] *)
  gas_constant : Q;
  (** [fenics.assemble] on a scalar form *)
  assemble : form → Q;
  (** [fenics.project(e, V_DG1)] *)
  project : expr → Function;
  (** [FESTIM.write_to_csv]: success or failure *)
  write_to_csv : gmap string dq_value → list (list Q) → result unit;
  (** [export.write(label_to_function, t)] of the legacy XDMF export *)
  xdmf_write : XDMFExportLegacy → gmap label expr → Q → result unit;
  (** [FESTIM.export.export_profiles]: the updated stepsize, or a failure *)
  export_profiles : list expr → exports_params → Q → Q → result Q
}.

End PostProcessingData.

(** ** FESTIM/post_processing.py: functions *)

Module PostProcessing.
Import Ufl.
Export PostProcessingData.

(** A dictionary key that must be present ([d['key']]). *)
Definition required {A} (o : option A) : result A :=
  match o with
  | Some a => Ok a
  | None => Raise KeyError
  end.

(** [for x in v] where [v] is a value of the derived-quantities dict. *)
Definition iter_entries (v : dq_value) : result (list entry) :=
  match v with
  | Entries l => Ok l
  | Setting => Raise TypeError
  end.

(** [f.SubsetIterator(subdomains, subd_id)]: the cells whose marker is
    [subd_id], by increasing index, counted from [i]. *)
Fixpoint subset_iterator_from (i : nat) (subdomains : list Z) (subd_id : Z) : list nat :=
  match subdomains with
  | [] => []
  | m :: ms =>
      if decide (m = subd_id)
      then i :: subset_iterator_from (S i) ms subd_id
      else subset_iterator_from (S i) ms subd_id
  end.

Definition SubsetIterator (subdomains : list Z) (subd_id : Z) : list nat :=
  subset_iterator_from 0 subdomains subd_id.

(** [function.function_space()]: only a [Function] has one. *)
Definition as_function (function : expr) : result Function :=
  match function with
  | Fn u => Ok u
  | _ => Raise AttributeError
  end.

(** [dm.cell_dofs(c)]. *)
Definition cell_dofs (u : Function) (c : nat) : result (list nat) :=
  match fn_cell_dofs u !! c with
  | Some dofs => Ok dofs
  | None => Raise RuntimeError
  end.

(** [np.unique(np.hstack([dm.cell_dofs(c.index()) for c in
    f.SubsetIterator(subdomains, subd_id)]))]. *)
Definition subd_dofs (u : Function) (subdomains : list Z) (subd_id : Z) : result (list nat) :=
  arrays ← comprehension (cell_dofs u) (SubsetIterator subdomains subd_id);
  stacked ← Np.hstack arrays;
  Ok (Np.unique stacked).

Definition calculate_maximum_volume (function : expr) (subdomains : list Z) (subd_id : Z) : result Q :=
  u ← as_function function;
  dofs ← subd_dofs u subdomains subd_id;
  values ← Np.take_indices (fn_vector u) dofs;
  Np.max values.

Definition calculate_minimum_volume (function : expr) (subdomains : list Z) (subd_id : Z) : result Q :=
  u ← as_function function;
  dofs ← subd_dofs u subdomains subd_id;
  values ← Np.take_indices (fn_vector u) dofs;
  Np.min values.

Section WithBackend.
Context `{Backend}.

Definition non_quantity_types : list string :=
  ["file"; "folder"; "nb_iterations_between_compute"; "nb_iterations_between_exports"].

(** The checks on one entry [f] of a quantity list. *)
Definition check_entry (traps : list Trap) (f : entry) : result unit :=
  _ ← match e_field f with
      | None => Raise KeyError
      | Some (FieldInt z) =>
          if decide (z > Z.of_nat (length traps) ∨ z < 0)
          then Raise ValueError else Ok ()
      | Some (FieldStr s) =>
          if bool_decide (s ∈ field_types) then Ok ()
          else if isdigit s then
            match traps with
            | _ :: _ =>
                n ← int_of_str s;
                if decide (n > Z.of_nat (length traps) ∨ n < 0)
                then Raise ValueError else Ok ()
            | [] => Raise ValueError
            end
          else Raise ValueError
      | Some (FieldOther _) => Ok ()
      end;
  match e_surfaces f, e_volumes f with
  | None, None => Raise KeyError
  | _, _ => Ok ()
  end.

(** The checks on one key of the derived-quantities dict. *)
Definition check_quantity (traps : list Trap) (quantity : string) (v : dq_value) : result unit :=
  if bool_decide (quantity ∉ quantity_types ++ non_quantity_types)
  then Raise ValueError
  else if bool_decide (quantity ∉ non_quantity_types) then
    entries ← iter_entries v;
    for_ entries (λ f _, check_entry traps f) ()
  else Ok ().

(** The loop over the keys of the dict, visited in the order [items]. *)
Definition check_keys_in (traps : list Trap) (items : list (string * dq_value))
  : result unit :=
  for_ items (λ kv _, check_quantity traps kv.1 kv.2) ().

(** The dict is a finite map, which does not record the order in which its
    keys were inserted: the keys are visited here in the order of the map.
    When several keys offend, the exception raised is that of the first one
    visited, which in Python is the first one inserted; whether the call
    returns does not depend on the order. *)
Definition check_keys_derived_quantities (simulation : Simulation) : result unit :=
  exports ← required (par_exports (sim_parameters simulation));
  dq ← required (exp_derived_quantities exports);
  check_keys_in (sim_traps simulation) (map_to_list dq).

(** One block of [header_derived_quantities]:
    [if quantity in d.keys(): for e in d[quantity]: for i in e[ids]:
     header.append(text(i, str(e['field'])))]. *)
Definition header_block (d : gmap string dq_value) (quantity : string)
    (ids : entry → option (list Z)) (text : Z → string → string)
    (header : list string) : result (list string) :=
  match d !! quantity with
  | None => Ok header
  | Some v =>
      entries ← iter_entries v;
      for_ entries (λ e header,
        idl ← required (ids e);
        for_ idl (λ i header,
          fld ← required (e_field e);
          Ok (header ++ [text i (str_field fld)])) header) header
  end.

Definition flux_text (surf : Z) (field : string) : string :=
  "Flux surface " +:+ str_int surf +:+ ": " +:+ field.
Definition average_text (vol : Z) (field : string) : string :=
  "Average " +:+ field +:+ " volume " +:+ str_int vol.
Definition minimum_text (vol : Z) (field : string) : string :=
  "Minimum " +:+ field +:+ " volume " +:+ str_int vol.
Definition maximum_text (vol : Z) (field : string) : string :=
  "Maximum " +:+ field +:+ " volume " +:+ str_int vol.
Definition total_volume_text (vol : Z) (field : string) : string :=
  "Total " +:+ field +:+ " volume " +:+ str_int vol.
Definition total_surface_text (surf : Z) (field : string) : string :=
  "Total " +:+ field +:+ " surface " +:+ str_int surf.

Definition header_derived_quantities (simulation : Simulation) : result (list string) :=
  let header := ["t(s)"] in
  match par_exports (sim_parameters simulation) with
  | None => Ok header
  | Some exports =>
      match exp_derived_quantities exports with
      | None => Ok header
      | Some derived_quant_dict =>
          _ ← check_keys_derived_quantities simulation;
          header ← header_block derived_quant_dict "surface_flux" e_surfaces flux_text header;
          header ← header_block derived_quant_dict "average_volume" e_volumes average_text header;
          header ← header_block derived_quant_dict "minimum_volume" e_volumes minimum_text header;
          header ← header_block derived_quant_dict "maximum_volume" e_volumes maximum_text header;
          header ← header_block derived_quant_dict "total_volume" e_volumes total_volume_text header;
          header_block derived_quant_dict "total_surface" e_surfaces total_surface_text header
      end
  end.

(** [if quantity in d.keys(): for e in d[quantity]: body]. *)
Definition for_quantity {S} (d : gmap string dq_value) (quantity : string)
    (body : entry → S → result S) (s : S) : result S :=
  match d !! quantity with
  | None => Ok s
  | Some v => entries ← iter_entries v; for_ entries body s
  end.

Definition dx (volume_markers : list Z) (vol : Z) : measure :=
  mkMeasure Mdx volume_markers vol.
Definition ds (surface_markers : list Z) (surf : Z) : measure :=
  mkMeasure Mds surface_markers surf.

(** [soret] and, when it is set, [Q = properties[2]] (written [Q_soret]
    here, [Q] being the type of scalars). *)
Definition soret_setting (parameters : parameters) (properties : list (option expr))
  : result (bool * option expr) :=
  match par_temperature parameters with
  | Some temperature =>
      match tp_soret temperature with
      | Some true => Q_soret ← index properties 2; Ok (true, Q_soret)
      | _ => Ok (false, None)
      end
  | None => Ok (false, None)
  end.

(** [field_to_sol]: the three named fields, then [str(i)] for the traps. *)
Definition field_to_sol (solutions : list expr) : result (gmap string expr) :=
  let n := Z.of_nat (length solutions) in
  ret ← index solutions (n - 2);
  T ← index solutions (n - 1);
  sol0 ← index solutions 0;
  for_ (seqZ 1 (n - 2 - 1))
       (λ i d, s ← index solutions i; Ok (<[str_int i := s]> d))
       (<["T" := T]> (<["retention" := ret]> {["solute" := sol0]})).

Definition field_to_prop (D thermal_cond : option expr) : gmap string (option expr) :=
  <["T" := thermal_cond]> {["solute" := D]}.

(** The flux through one surface, with the Soret contribution for the
    mobile field. *)
Definition surface_flux_value (soret : bool) (Q_soret : option expr) (T : expr)
    (surface_markers : list Z) (field : string) (sol : expr) (prop : option expr)
    (surf : Z) : result Q :=
  e ← mul_opt prop (Dot (Grad sol) FacetNormal);
  let phi := assemble (Integral e (ds surface_markers surf)) in
  if soret && bool_decide (field = "solute") then
    ps ← mul_opt prop sol;
    psq ← mul_by_opt ps Q_soret;
    let e' := Product
                (Division psq (Product (RealValue gas_constant) (Power T (IntValue 2))))
                (Dot (Grad T) FacetNormal) in
    Ok (phi + assemble (Integral e' (ds surface_markers surf)))%Q
  else Ok phi.

Definition derived_quantities (parameters : parameters) (solutions : list expr)
    (markers : list (list Z)) (properties : list (option expr)) : result (list Q) :=
  D ← index properties 0;
  thermal_cond ← index properties 1;
  '(soret, Q_soret) ← soret_setting parameters properties;
  volume_markers ← index markers 0;
  surface_markers ← index markers 1;
  T ← index solutions (Z.of_nat (length solutions) - 1);
  field_to_sol ← field_to_sol solutions;
  let field_to_prop := field_to_prop D thermal_cond in
  let tab := [] in
  exports ← required (par_exports parameters);
  derived_quant_dict ← required (exp_derived_quantities exports);
  tab ← for_quantity derived_quant_dict "surface_flux" (λ flux tab,
    fld ← required (e_field flux);
    sol ← getitem field_to_sol (str_field fld);
    prop ← getitem field_to_prop (str_field fld);
    surfaces ← required (e_surfaces flux);
    for_ surfaces (λ surf tab,
      phi ← surface_flux_value soret Q_soret T surface_markers (str_field fld) sol prop surf;
      Ok (tab ++ [phi])) tab) tab;
  tab ← for_quantity derived_quant_dict "average_volume" (λ average tab,
    fld ← required (e_field average);
    sol ← getitem field_to_sol (str_field fld);
    volumes ← required (e_volumes average);
    for_ volumes (λ vol tab,
      val ← truediv (assemble (Integral sol (dx volume_markers vol)))
                    (assemble (Integral (IntValue 1) (dx volume_markers vol)));
      Ok (tab ++ [val])) tab) tab;
  tab ← for_quantity derived_quant_dict "minimum_volume" (λ minimum tab,
    fld ← required (e_field minimum);
    if bool_decide (str_field fld = "retention") then
      volumes ← required (e_volumes minimum);
      for_ volumes (λ vol tab,
        val ← for_ (slice_to_end_minus solutions 2) (λ fun_ val,
                 m ← calculate_minimum_volume fun_ volume_markers vol;
                 Ok (val + m)%Q) 0%Q;
        Ok (tab ++ [val])) tab
    else
      sol ← getitem field_to_sol (str_field fld);
      volumes ← required (e_volumes minimum);
      for_ volumes (λ vol tab,
        m ← calculate_minimum_volume sol volume_markers vol;
        Ok (tab ++ [m])) tab) tab;
  tab ← for_quantity derived_quant_dict "maximum_volume" (λ maximum tab,
    fld ← required (e_field maximum);
    if bool_decide (str_field fld = "retention") then
      volumes ← required (e_volumes maximum);
      for_ volumes (λ vol tab,
        val ← for_ (slice_to_end_minus solutions 2) (λ fun_ val,
                 m ← calculate_maximum_volume fun_ volume_markers vol;
                 Ok (val + m)%Q) 0%Q;
        Ok (tab ++ [val])) tab
    else
      sol ← getitem field_to_sol (str_field fld);
      volumes ← required (e_volumes maximum);
      for_ volumes (λ vol tab,
        m ← calculate_maximum_volume sol volume_markers vol;
        Ok (tab ++ [m])) tab) tab;
  tab ← for_quantity derived_quant_dict "total_volume" (λ total tab,
    fld ← required (e_field total);
    sol ← getitem field_to_sol (str_field fld);
    volumes ← required (e_volumes total);
    for_ volumes (λ vol tab,
      Ok (tab ++ [assemble (Integral sol (dx volume_markers vol))])) tab) tab;
  for_quantity derived_quant_dict "total_surface" (λ total tab,
    fld ← required (e_field total);
    sol ← getitem field_to_sol (str_field fld);
    surfaces ← required (e_surfaces total);
    for_ surfaces (λ surf tab,
      Ok (tab ++ [assemble (Integral sol (ds surface_markers surf))])) tab) tab.

Definition is_export_derived_quantities (simulation : Simulation) : result bool :=
  if sim_transient simulation then
    match sim_nb_iterations_between_export_derived_quantities simulation with
    | None => Ok (Qle_bool (sim_final_time simulation) (sim_t simulation))
    | Some nb_its_between_exports =>
        r ← mod_ (sim_nb_iterations simulation) nb_its_between_exports;
        Ok (bool_decide (r = 0))
    end
  else Ok true.

(** [label_to_function] as first built: the fixed labels, then two keys per
    trap. *)
Definition label_to_function_base (simulation : Simulation) : gmap label expr :=
  let mobile := sim_mobile_post_processing_solution simulation in
  let retention :=
    py_sum (mobile :: map trap_post_processing_solution (sim_traps simulation)) in
  foldl (λ d trap,
           <[inr (str_int (trap_id trap)) := trap_post_processing_solution trap]>
             (<[inl (trap_id trap) := trap_post_processing_solution trap]> d))
        (<[inr "retention" := retention]>
           (<[inr "T" := sim_T simulation]>
              (<[inl 0 := mobile]>
                 (<[inr "0" := mobile]> {[inr "solute" := mobile]}))))
        (sim_traps simulation).

(** The change of variable [solute = theta * S], projected when needed. *)
Definition change_of_variable (simulation : Simulation) (theta : expr) : result expr :=
  solute ← mul_by_opt theta (sim_S simulation);
  if sim_need_projecting_solute simulation
  then Ok (Fn (project solute))
  else Ok solute.

(** [res[0] = solute]. *)
Definition set_first (res : list expr) (solute : expr) : result (list expr) :=
  match res with
  | [] => Raise IndexError
  | _ :: rest => Ok (solute :: rest)
  end.

Definition is_function (e : expr) : bool :=
  match e with Fn _ => true | _ => false end.

(** The body of the loop over [simulation.exports.exports]; the state is
    [label_to_function], the exports seen so far and the I/O trace. *)
Definition export_body (simulation : Simulation) (export : Export)
    (st : gmap label expr * list Export * list io_event)
  : result (gmap label expr * list Export * list io_event) :=
  let '(label_to_function, seen, io) := st in
  match export with
  | ExportXDMF x =>
      if (last_time_step_only x
          && Qle_bool (sim_final_time simulation) (sim_t simulation))
         || negb (last_time_step_only x) then
        r ← mod_ (sim_nb_iterations simulation)
                 (sim_nb_iterations_between_exports simulation);
        if bool_decide (r = 0) then
          label_to_function ←
            (if bool_decide (xdmf_function x = "retention") then
               retention ← required (label_to_function !! inr "retention");
               if negb (is_function retention)
               then Ok (<[inr "retention" := Fn (project retention)]> label_to_function)
               else Ok label_to_function
             else Ok label_to_function);
          _ ← xdmf_write x label_to_function (sim_t simulation);
          Ok (label_to_function,
              seen ++ [ExportXDMF (mkXDMFLegacy (last_time_step_only x) (xdmf_function x) true)],
              io ++ [XdmfWritten (xdmf_function x) label_to_function (sim_t simulation)])
        else Ok (label_to_function, seen ++ [export], io)
      else Ok (label_to_function, seen ++ [export], io)
  | ExportOther => Ok (label_to_function, seen ++ [export], io)
  end.

(** The list [res]: the components of [u], with the solute changed of
    variable when needed, then the retention and the temperature. *)
Definition solutions_list (simulation : Simulation) : result (list expr) :=
  let res := match sim_u simulation with
             | Scalar u => [u]
             | Mixed components => components
             end in
  res ← (if sim_chemical_pot simulation then
           r0 ← index res 0;
           solute ← change_of_variable simulation r0;
           set_first res solute
         else Ok res);
  let retention := py_sum res in
  Ok ((res ++ [retention]) ++ [sim_T simulation]).

(** [run_post_processing(simulation)]: the simulation after the call and the
    returned pair [(derived_quantities_global, dt)]. *)
Definition run_post_processing (simulation : Simulation)
  : result (Simulation * (list (list Q) * Q)) :=
  let parameters := sim_parameters simulation in
  let markers := [sim_volume_markers simulation; sim_surface_markers simulation] in
  let t := sim_t simulation in
  let dt := sim_dt simulation in
  let derived_quantities_global := sim_derived_quantities_global simulation in
  let label_to_function := label_to_function_base simulation in
  label_to_function ←
    (if sim_chemical_pot simulation then
       solute ← change_of_variable simulation (sim_mobile_solution simulation);
       Ok (<[inr "solute" := solute]> label_to_function)
     else Ok label_to_function);
  res ← solutions_list simulation;
  exports ← required (par_exports parameters);
  '(derived_quantities_global, io) ←
    match exp_derived_quantities exports with
    | Some derived_quant_dict =>
        r ← mod_ (sim_nb_iterations simulation)
                 (sim_nb_iterations_between_compute_derived_quantities simulation);
        derived_quantities_global ←
          (if bool_decide (r = 0) then
             derived_quantities_t ←
               derived_quantities parameters res markers
                 [sim_D simulation; sim_thermal_cond simulation; sim_H simulation];
             let derived_quantities_t := t :: derived_quantities_t in
             Ok (derived_quantities_global ++ [derived_quantities_t])
           else Ok derived_quantities_global);
        b ← is_export_derived_quantities simulation;
        if b : bool then
          _ ← write_to_csv derived_quant_dict derived_quantities_global;
          Ok (derived_quantities_global,
              sim_io simulation ++ [CsvWritten derived_quantities_global])
        else Ok (derived_quantities_global, sim_io simulation)
    | None => Ok (derived_quantities_global, sim_io simulation)
    end;
  '(label_to_function, exports_seen, io) ←
    for_ (sim_exports simulation) (export_body simulation) (label_to_function, [], io);
  '(dt, io) ←
    match exp_txt exports with
    | Some _ => dt ← export_profiles res exports t dt; Ok (dt, io ++ [ProfilesExported t])
    | None => Ok (dt, io)
    end;
  let simulation' :=
    mkSimulation
      (sim_parameters simulation) (sim_transient simulation) (sim_u simulation)
      (sim_T simulation) (sim_volume_markers simulation)
      (sim_surface_markers simulation) (sim_t simulation) (sim_dt simulation)
      (sim_D simulation) (sim_thermal_cond simulation) (sim_H simulation)
      (sim_S simulation) derived_quantities_global
      (sim_mobile_solution simulation)
      (sim_mobile_post_processing_solution simulation) (sim_traps simulation)
      (sim_chemical_pot simulation) (sim_need_projecting_solute simulation)
      (sim_nb_iterations simulation)
      (sim_nb_iterations_between_compute_derived_quantities simulation)
      (sim_nb_iterations_between_export_derived_quantities simulation)
      (sim_nb_iterations_between_exports simulation) (sim_final_time simulation)
      exports_seen io in
  Ok (simulation', (derived_quantities_global, dt)).

End WithBackend.
End PostProcessing.

(** ** festim/hydrogen_transport_problem.py *)

Module HTransport.

Record Mesh := mkMesh {
  topology_dim : nat;
  (** [mesh.topology.index_map(vdim).size_local] *)
  num_cells : nat
}.

Record Material := mkMaterial {
  mat_name : string;
  D_0 : Q;
  E_D : Q
}.

Inductive Subdomain :=
| SurfaceSubdomain1D (id : Z) (x : Q)
| VolumeSubdomain1D (id : Z) (borders : Q * Q) (material : Material)
| OtherSubdomain (id : Z).

Definition subdomain_id (s : Subdomain) : Z :=
  match s with
  | SurfaceSubdomain1D id _ => id
  | VolumeSubdomain1D id _ _ => id
  | OtherSubdomain id => id
  end.

Definition is_surface (s : Subdomain) : bool :=
  match s with SurfaceSubdomain1D _ _ => true | _ => false end.

Definition is_volume (s : Subdomain) : bool :=
  match s with VolumeSubdomain1D _ _ _ => true | _ => false end.

(** [fem.FunctionSpace(mesh, FiniteElement(family, cell, degree))]. *)
Record FunctionSpace := mkFunctionSpace {
  fs_mesh : Mesh;
  fs_family : string;
  fs_degree : nat
}.

(** [dolfinx.mesh.meshtags(mesh, dim, indices, values)]: entity [indices[k]]
    carries tag [values[k]]. *)
Record MeshTags := mkMeshTags {
  mt_dim : Z;
  mt_indices : list Z;
  mt_values : list Z
}.

(** Entity [e] carries tag [v]. *)
Definition tagged (mt : MeshTags) (e v : Z) : Prop :=
  ∃ k, mt_indices mt !! k = Some e ∧ mt_values mt !! k = Some v.

(** [Measure(kind, domain=mesh, subdomain_data=tags)]. *)
Record Measure := mkMeasure {
  ms_kind : string;
  ms_subdomain_data : MeshTags
}.

(** UFL terms over dolfinx objects; a [Function] is known by the order of
    its creation. *)
Inductive expr :=
| Function (id : nat) (V : FunctionSpace)
| TestFunction (V : FunctionSpace)
| Constant (q : Q)
| Coefficient (material : Material) (temperature : Q)
| grad (a : expr)
| dot (a b : expr)
| Mul (a b : expr)
| Sub (a b : expr)
| Div (a b : expr).

(** [integrand * measure(id)]. *)
Record Integral := mkIntegral {
  i_integrand : expr;
  i_measure : Measure;
  i_subdomain_id : Z
}.

(** The [formulation] attribute: the integer it starts from, or a form. *)
Inductive Formulation :=
| PyInt (z : Z)
| Form (integrals : list Integral).

(** The place of an integral in a [ufl.Form]: integrals are ordered by
    integral type (cell integrals, measure [dx], before exterior-facet
    integrals, measure [ds]), then by subdomain id. *)
Definition integral_rank (i : Integral) : nat :=
  if String.eqb (ms_kind (i_measure i)) "dx" then 0
  else if String.eqb (ms_kind (i_measure i)) "ds" then 1
  else 2.

Definition integral_le (i j : Integral) : bool :=
  (integral_rank i <? integral_rank j)%nat
  || ((integral_rank i =? integral_rank j)%nat
      && (i_subdomain_id i <=? i_subdomain_id j)%Z).

(** [i] goes after the integrals that do not come later than it. *)
Fixpoint insert_integral (i : Integral) (l : list Integral) : list Integral :=
  match l with
  | [] => [i]
  | j :: l' => if integral_le j i then j :: insert_integral i l' else i :: l
  end.

(** [ufl.Form(integrals)] keeps its integrals sorted: grouped by integral
    type and subdomain id, the groups in increasing order and each group in
    the order of arrival. *)
Definition sorted_integrals (l : list Integral) : list Integral :=
  foldl (λ sorted i, insert_integral i sorted) [] l.

(** [formulation += form]: a zero on the left is absorbed, and the sum of
    two forms is the form of the integrals of both. *)
Definition add_form (a : Formulation) (b : list Integral) : result Formulation :=
  match a with
  | PyInt z => if decide (z = 0) then Ok (Form (sorted_integrals b)) else Raise TypeError
  | Form integrals => Ok (Form (sorted_integrals (integrals ++ b)))
  end.

Record Species := mkSpecies {
  name : string;
  solution : option expr;
  prev_solution : option expr;
  test_function : option expr
}.

Record Source := mkSource {
  source_value : Q;
  source_species : string
}.

Record HydrogenTransportProblem := mkProblem {
  mesh : option Mesh;
  subdomains : list Subdomain;
  species : list Species;
  temperature : option Q;
  sources : list Source;
  p_dx : option Measure;
  p_ds : option Measure;
  function_space : option FunctionSpace;
  facet_meshtags : option MeshTags;
  volume_meshtags : option MeshTags;
  formulation : option Formulation;
  volume_subdomains : list Subdomain;
  p_dt : option expr;
  (** number of [Function] objects created so far *)
  functions_created : nat
}.

(** What the problem class takes from the subdomain and material classes. *)
Class Geometry := {
  (** [sub_dom.locate_dof(function_space)] *)
  locate_dof : Subdomain → FunctionSpace → Z;
  (** [sub_dom.locate_subdomain_entities(mesh, vdim)] *)
  locate_subdomain_entities : Subdomain → Mesh → nat → list nat;
  (** [material.get_diffusion_coefficient(mesh, temperature)] *)
  get_diffusion_coefficient : Material → Mesh → option Q → result expr
}.

(** An attribute that must not be [None] when it is used. *)
Definition attr {A} (o : option A) : result A :=
  match o with
  | Some a => Ok a
  | None => Raise AttributeError
  end.

(** Conversion of a Python integer to [np.int32]; a value that does not
    fit is rejected. *)
Definition int32 (z : Z) : result Z :=
  if decide (- 2 ^ 31 ≤ z < 2 ^ 31) then Ok z else Raise OverflowError.

(** [tags[entities] = value] on an [int32] array: every index is checked
    before anything is written. *)
Definition assign_at (tags : list Z) (entities : list nat) (value : Z) : result (list Z) :=
  v ← int32 value;
  if forallb (λ e, e <? length tags)%nat entities
  then Ok (foldl (λ tags e, <[e := v]> tags) tags entities)
  else Raise IndexError.

Section WithGeometry.
Context `{Geometry}.

(** Record update of the fields the set-up methods assign. *)
Definition with_function_space (p : HydrogenTransportProblem) (V : FunctionSpace)
  : HydrogenTransportProblem :=
  mkProblem (mesh p) (subdomains p) (species p) (temperature p) (sources p)
    (p_dx p) (p_ds p) (Some V) (facet_meshtags p) (volume_meshtags p)
    (formulation p) (volume_subdomains p) (p_dt p) (functions_created p).

Definition with_markers (p : HydrogenTransportProblem)
    (vols : list Subdomain) (ft vt : MeshTags) (ds dx : Measure)
  : HydrogenTransportProblem :=
  mkProblem (mesh p) (subdomains p) (species p) (temperature p) (sources p)
    (Some dx) (Some ds) (function_space p) (Some ft) (Some vt)
    (formulation p) vols (p_dt p) (functions_created p).

Definition with_species (p : HydrogenTransportProblem) (spe : list Species) (n : nat)
  : HydrogenTransportProblem :=
  mkProblem (mesh p) (subdomains p) spe (temperature p) (sources p)
    (p_dx p) (p_ds p) (function_space p) (facet_meshtags p) (volume_meshtags p)
    (formulation p) (volume_subdomains p) (p_dt p) n.

Definition with_formulation (p : HydrogenTransportProblem) (dt : expr) (F : Formulation)
  : HydrogenTransportProblem :=
  mkProblem (mesh p) (subdomains p) (species p) (temperature p) (sources p)
    (p_dx p) (p_ds p) (function_space p) (facet_meshtags p) (volume_meshtags p)
    (Some F) (volume_subdomains p) (Some dt) (functions_created p).

Definition define_function_space (self : HydrogenTransportProblem)
  : result HydrogenTransportProblem :=
  m ← attr (mesh self);
  Ok (with_function_space self (mkFunctionSpace m "CG" 1)).

(** The state of the loop over [self.subdomains]. *)
Record marker_state := mkMarkerState {
  st_dofs_facets : list Z;
  st_tags_facets : list Z;
  st_volume_subdomains : list Subdomain;
  st_tags_volumes : list Z
}.

Definition mark_subdomain (self : HydrogenTransportProblem) (m : Mesh) (vdim : nat)
    (sub_dom : Subdomain) (st : marker_state) : result marker_state :=
  st ← (if is_surface sub_dom then
          V ← attr (function_space self);
          let dof := locate_dof sub_dom V in
          Ok (mkMarkerState (st_dofs_facets st ++ [dof])
                            (st_tags_facets st ++ [subdomain_id sub_dom])
                            (st_volume_subdomains st) (st_tags_volumes st))
        else Ok st);
  if is_volume sub_dom then
    let entities := locate_subdomain_entities sub_dom m vdim in
    tags ← assign_at (st_tags_volumes st) entities (subdomain_id sub_dom);
    Ok (mkMarkerState (st_dofs_facets st) (st_tags_facets st)
                      (st_volume_subdomains st ++ [sub_dom]) tags)
  else Ok st.

Definition define_markers_and_measures (self : HydrogenTransportProblem)
  : result HydrogenTransportProblem :=
  m ← attr (mesh self);
  let fdim := Z.of_nat (topology_dim m) - 1 in
  let vdim := topology_dim m in
  let num_cells := num_cells m in
  let mesh_cell_indices := seqZ 0 (Z.of_nat num_cells) in
  let tags_volumes := replicate num_cells 0 in
  st ← for_ (subdomains self) (mark_subdomain self m vdim)
            (mkMarkerState [] [] (volume_subdomains self) tags_volumes);
  dofs_facets ← comprehension int32 (st_dofs_facets st);
  tags_facets ← comprehension int32 (st_tags_facets st);
  let facet_meshtags := mkMeshTags fdim dofs_facets tags_facets in
  let volume_meshtags :=
    mkMeshTags (Z.of_nat vdim) mesh_cell_indices (st_tags_volumes st) in
  Ok (with_markers self (st_volume_subdomains st) facet_meshtags volume_meshtags
        (mkMeasure "ds" facet_meshtags) (mkMeasure "dx" volume_meshtags)).

(** One species receives its three functions; two [Function] objects are
    created. *)
Definition assign_functions (V : option FunctionSpace) (spe : Species)
    (st : list Species * nat) : result (list Species * nat) :=
  let '(done, n) := st in
  V ← attr V;
  Ok (done ++ [mkSpecies (name spe)
                 (Some (Function n V)) (Some (Function (S n) V))
                 (Some (TestFunction V))],
      S (S n)).

Definition assign_functions_to_species (self : HydrogenTransportProblem)
  : result HydrogenTransportProblem :=
  if decide (1 < length (species self))%nat then Raise NotImplementedError
  else
    '(spe, n) ← for_ (species self) (assign_functions (function_space self))
                     ([], functions_created self);
    Ok (with_species self spe n).

(** The two terms a species contributes on one volume subdomain. *)
Definition diffusion_term (D u v : expr) (dx : Measure) (id : Z) : Integral :=
  mkIntegral (dot (Mul D (grad u)) (grad v)) dx id.

Definition transient_term (u u_n dt v : expr) (dx : Measure) (id : Z) : Integral :=
  mkIntegral (Mul (Div (Sub u u_n) dt) v) dx id.

Definition add_volume_terms (self : HydrogenTransportProblem) (m : Mesh)
    (dt : expr) (spe : Species) (vol : Subdomain) (F : Formulation)
  : result Formulation :=
  mat ← match vol with
        | VolumeSubdomain1D _ _ material => Ok material
        | _ => Raise AttributeError
        end;
  D ← get_diffusion_coefficient mat m (temperature self);
  u ← attr (solution spe);
  v ← attr (test_function spe);
  dx ← match p_dx self with Some dx => Ok dx | None => Raise TypeError end;
  F ← add_form F [diffusion_term D u v dx (subdomain_id vol)];
  u_n ← attr (prev_solution spe);
  add_form F [transient_term u u_n dt v dx (subdomain_id vol)].

Definition create_formulation (self : HydrogenTransportProblem)
  : result HydrogenTransportProblem :=
  if decide (1 < length (sources self))%nat then Raise NotImplementedError
  else if decide (1 < length (species self))%nat then Raise NotImplementedError
  else
    m ← attr (mesh self);
    let dt := Constant (1 # 20) in
    F ← for_ (species self) (λ spe F,
           for_ (volume_subdomains self) (add_volume_terms self m dt spe) F)
         (PyInt 0);
    Ok (with_formulation self dt F).

Definition initialise (self : HydrogenTransportProblem)
  : result HydrogenTransportProblem :=
  self ← define_function_space self;
  self ← define_markers_and_measures self;
  self ← assign_functions_to_species self;
  create_formulation self.

(** The state [__init__] leaves behind. *)
Definition init (mesh : option Mesh) (subdomains : list Subdomain)
    (species : list Species) (temperature : option Q) (sources : list Source)
  : HydrogenTransportProblem :=
  mkProblem mesh subdomains species temperature sources
    None None None None None None [] None 0.

End WithGeometry.
End HTransport.

(** ** Methods that mutate their object

    A method maps the state before the call to an outcome and the state
    after it; an exception leaves the state as it was when raised. *)

Module Method.

Definition method (S A : Type) : Type := S → result A * S.

Definition ret {S A} (a : A) : method S A := λ s, (Ok a, s).
Definition raise {S A} (e : exn) : method S A := λ s, (Raise e, s).
Definition get {S} : method S S := λ s, (Ok s, s).
Definition put {S} (s : S) : method S unit := λ _, (Ok (), s).
Definition lift {S A} (r : result A) : method S A := λ s, (r, s).

Definition bind {S A B} (m : method S A) (k : A → method S B) : method S B :=
  λ s, match m s with
       | (Ok a, s') => k a s'
       | (Raise e, s') => (Raise e, s')
       end.

Declare Scope method_scope.
Delimit Scope method_scope with method.
Notation "x ⇐ m ;; k" := (bind m (λ x, k))
  (at level 100, m at next level, right associativity) : method_scope.
Notation "m ;;; k" := (bind m (λ _, k))
  (at level 100, right associativity) : method_scope.

(** [if c: body] *)
Definition when {S} (c : bool) (body : method S unit) : method S unit :=
  if c then body else ret ().

(** [for x in l: body x] *)
Fixpoint for_each {S A} (l : list A) (body : A → method S unit) : method S unit :=
  match l with
  | [] => ret ()
  | x :: l' => bind (body x) (λ _, for_each l' body)
  end.

End Method.

(** ** festim/exports/surface_quantity.py *)

Module SurfaceQuantity.
Import Method.
Local Open Scope method_scope.

(** The [field] argument: a [festim.Species] or a string. *)
Inductive Field :=
| FieldSpecies (name : string)
| FieldStr (s : string).

(** The [surface] argument: a [festim.SurfaceSubdomain1D] or an integer. *)
Inductive Surface :=
| SurfaceSubdomain (id : Z)
| SurfaceInt (z : Z).

(** A CSV cell and a CSV row as handed to [csv.writer.writerow]. *)
Inductive cell :=
| Text (s : string)
| Number (q : Q).

Definition row := list cell.

(** The files on disk: the rows each one holds. *)
Definition files := gmap string (list row).

Record SurfaceQuantity := mkSurfaceQuantity {
  sq_field : Field;
  sq_surface : Surface;
  sq_filename : option string;
  sq_t : list Q;
  sq_data : list Q;
  sq_title : option string;
  sq_first_time_export : bool;
  (** [self.value], set by the quantity's [compute] *)
  sq_value : option Q
}.

(** The state of a call: the object and the disk. *)
Definition world := (SurfaceQuantity * files)%type.

(** [value.endswith(suffix)] *)
Definition endswith (value suffix : string) : bool :=
  let n := String.length value in
  let m := String.length suffix in
  (m <=? n)%nat && String.eqb (String.substring (n - m) m value) suffix.

(** The [filename] setter. *)
Definition check_filename (value : option string) : result (option string) :=
  match value with
  | None => Ok None
  | Some v =>
      if negb (endswith v ".csv") && negb (endswith v ".txt")
      then Raise ValueError
      else Ok (Some v)
  end.

(** [__init__(field, surface, filename)] *)
Definition init (field : Field) (surface : Surface) (filename : option string)
  : result SurfaceQuantity :=
  filename ← check_filename filename;
  Ok (mkSurfaceQuantity field surface filename [] [] None true None).

Definition surface_id (s : Surface) : result Z :=
  match s with
  | SurfaceSubdomain id => Ok id
  | SurfaceInt _ => Raise AttributeError
  end.

Definition field_name (f : Field) : result string :=
  match f with
  | FieldSpecies name => Ok name
  | FieldStr _ => Raise AttributeError
  end.

Definition set_title (title : string) : method world unit :=
  λ '(self, fs),
    (Ok (), (mkSurfaceQuantity (sq_field self) (sq_surface self) (sq_filename self)
               (sq_t self) (sq_data self) (Some title)
               (sq_first_time_export self) (sq_value self), fs)).

Definition set_first_time_export (b : bool) : method world unit :=
  λ '(self, fs),
    (Ok (), (mkSurfaceQuantity (sq_field self) (sq_surface self) (sq_filename self)
               (sq_t self) (sq_data self) (sq_title self) b (sq_value self), fs)).

(** [self.value = v], as done by [compute]. *)
Definition set_value (v : Q) : method world unit :=
  λ '(self, fs),
    (Ok (), (mkSurfaceQuantity (sq_field self) (sq_surface self) (sq_filename self)
               (sq_t self) (sq_data self) (sq_title self)
               (sq_first_time_export self) (Some v), fs)).

(** [with open(filename, mode="w+") as file: csv.writer(file).writerow(r)] *)
Definition open_w_writerow (filename : string) (r : row) : method world unit :=
  λ '(self, fs), (Ok (), (self, <[filename := [r]]> fs)).

(** [open(filename, mode="a")]: the file exists afterwards. *)
Definition open_a (filename : string) : method world unit :=
  λ '(self, fs), (Ok (), (self, <[filename := default [] (fs !! filename)]> fs)).

(** [csv.writer(file).writerow(r)] on a file opened for appending. *)
Definition append_row (filename : string) (r : row) : method world unit :=
  λ '(self, fs), (Ok (), (self, <[filename := default [] (fs !! filename) ++ [r]]> fs)).

Definition flux_title (id : Z) (name : string) : string :=
  "Flux surface " +:+ str_int id +:+ ": " +:+ name.

(** The f-string [f"{self.title}"]. *)
Definition format_title (title : option string) : string :=
  match title with
  | Some s => s
  | None => "None"
  end.

Definition write (t : Q) : method world unit :=
  w ⇐ get ;;
  when (bool_decide (sq_title w.1 = None))
       (id ⇐ lift (surface_id (sq_surface w.1)) ;;
        name ⇐ lift (field_name (sq_field w.1)) ;;
        set_title (flux_title id name)) ;;;
  match sq_filename w.1 with
  | Some filename =>
      w ⇐ get ;;
      when (sq_first_time_export w.1)
           (open_w_writerow filename [Text "t(s)"; Text (format_title (sq_title w.1))] ;;;
            set_first_time_export false) ;;;
      open_a filename ;;;
      w ⇐ get ;;
      value ⇐ lift (match sq_value w.1 with
                    | Some v => Ok v
                    | None => Raise AttributeError
                    end) ;;
      append_row filename [Number t; Number value]
  | None => ret ()
  end.

(** One export step: the quantity is computed ([self.value] is assigned),
    then written. *)
Definition compute_and_write (c : Q * Q) : method world unit :=
  set_value c.2 ;;; write c.1.

(** A run of export steps [(t, value)]; it stops at the first exception. *)
Definition writes (calls : list (Q * Q)) : method world unit :=
  for_each calls compute_and_write.

(** The rows a run is expected to leave in the file. *)
Definition header_row (id : Z) (name : string) : row :=
  [Text "t(s)"; Text (flux_title id name)].

Definition data_row (c : Q * Q) : row := [Number c.1; Number c.2].

End SurfaceQuantity.

(** ** festim/exports/xdmf.py *)

Module XDMF.
Import Method.
Local Open Scope method_scope.

(** A [dolfinx.fem.Function] as the writer sees it: a name and the mesh of
    its function space. *)
Record Function := mkFunction {
  fn_label : string;
  fn_mesh : string
}.

(** A [festim.Species] object.  Species are shared with the problem, which
    assigns [post_processing_solution] after the export is created, so an
    export holds references into a store of species. *)
Record Species := mkSpecies {
  sp_name : string;
  post_processing_solution : option Function
}.

Definition ref := nat.
Definition store := gmap ref Species.

(** Python values that can be passed as [field]. *)
#[warnings="-register-all"] Inductive value :=
| VSpecies (r : ref)
| VList (items : list value)
| VInt (z : Z)
| VStr (s : string)
| VNone.

(** What the [XDMFFile] writer has been asked to write, in order. *)
Inductive written :=
| WrittenMesh (mesh : string)
| WrittenFunction (u : Function) (t : Q).

Record XDMFExport := mkXDMFExport {
  filename : string;
  _writer : option (list written);
  (** [None] until the setter has run once *)
  _field : option (list ref);
  _mesh_written : bool
}.

Definition set__field (val : list ref) : method XDMFExport unit :=
  λ self, (Ok (), mkXDMFExport (filename self) (_writer self) (Some val) (_mesh_written self)).

Definition set__writer (w : list written) : method XDMFExport unit :=
  λ self, (Ok (), mkXDMFExport (filename self) (Some w) (_field self) (_mesh_written self)).

Definition set__mesh_written (b : bool) : method XDMFExport unit :=
  λ self, (Ok (), mkXDMFExport (filename self) (_writer self) (_field self) b).

(** [isinstance(element, Species)] for each element, in order. *)
Definition as_species (element : value) : result ref :=
  match element with
  | VSpecies r => Ok r
  | _ => Raise TypeError
  end.

(** The [field] setter. *)
Definition field_setter (v : value) : method XDMFExport unit :=
  val ⇐ lift (match v with
              | VList items => comprehension as_species items
              | VSpecies r => Ok [r]
              | _ => Raise TypeError
              end) ;;
  set__field val.

(** The [field] getter. *)
Definition field (self : XDMFExport) : result (list ref) :=
  match _field self with
  | Some l => Ok l
  | None => Raise AttributeError
  end.

(** [__init__(filename, field)], the base class having accepted
    [filename]. *)
Definition init (filename : string) (v : value) : result unit * XDMFExport :=
  (field_setter v ;;; set__mesh_written false)
    (mkXDMFExport filename None None false).

(** [define_writer(comm)]: a fresh file opened for writing. *)
Definition define_writer : method XDMFExport unit :=
  set__writer [].

(** [self._writer.write_mesh(mesh)] and
    [self._writer.write_function(u, t)]. *)
Definition writer_write (w : written) : method XDMFExport unit :=
  self ⇐ get ;;
  match _writer self with
  | Some log => set__writer (log ++ [w])
  | None => raise AttributeError
  end.

(** [field.post_processing_solution] through the store. *)
Definition solution_of (σ : store) (r : ref) : result (option Function) :=
  match σ !! r with
  | Some s => Ok (post_processing_solution s)
  | None => Raise RuntimeError
  end.

(** [u.function_space.mesh] *)
Definition mesh_of (u : option Function) : result string :=
  match u with
  | Some u => Ok (fn_mesh u)
  | None => Raise AttributeError
  end.

(** The argument of [write_function] must be a function. *)
Definition as_function (u : option Function) : result Function :=
  match u with
  | Some u => Ok u
  | None => Raise TypeError
  end.

(** [write(t)], the species being in state [σ] at the time of the call. *)
Definition write (σ : store) (t : Q) : method XDMFExport unit :=
  self ⇐ get ;;
  when (negb (_mesh_written self))
       (_ ⇐ lift (match _writer self with
                  | Some _ => Ok ()
                  | None => Raise AttributeError
                  end) ;;
        fields ⇐ lift (field self) ;;
        f0 ⇐ lift (index fields 0) ;;
        u ⇐ lift (solution_of σ f0) ;;
        m ⇐ lift (mesh_of u) ;;
        writer_write (WrittenMesh m) ;;;
        set__mesh_written true) ;;;
  fields ⇐ lift (field self) ;;
  for_each fields (λ f,
    _ ⇐ lift (match _writer self with
               | Some _ => Ok ()
               | None => Raise AttributeError
               end) ;;
    u ⇐ lift (solution_of σ f) ;;
    u ⇐ lift (as_function u) ;;
    writer_write (WrittenFunction u t)).

(** A sequence of calls [write(t)], each with the species as they are at
    that time; it stops at the first exception. *)
Definition writes (calls : list (store * Q)) : method XDMFExport unit :=
  for_each calls (λ c, write c.1 c.2).

(** *** Notions used to state the properties of the export *)

(** The inputs the setter accepts, with the list it stores for them. *)
Definition accepted (v : value) (refs : list ref) : Prop :=
  (∃ r, v = VSpecies r ∧ refs = [r]) ∨ v = VList (map VSpecies refs).

(** Species [r] has post-processing solution [u] in the store. *)
Definition reads (σ : store) (r : ref) (u : Function) : Prop :=
  ∃ s, σ !! r = Some s ∧ post_processing_solution s = Some u.

(** What one call [write(t)] hands to [write_function]: the solution of
    each listed field, once, in order, at time [t]. *)
Definition call_block (fields : list ref) (c : store * Q) (block : list written) : Prop :=
  ∃ us, Forall2 (reads c.1) fields us ∧ block = map (λ u, WrittenFunction u c.2) us.

(** The mesh written by the first call: that of the first field. *)
Definition first_mesh (fields : list ref) (calls : list (store * Q)) (m : string) : Prop :=
  ∃ c rest f0 u, calls = c :: rest ∧ fields !! 0%nat = Some f0 ∧
                 reads c.1 f0 u ∧ m = fn_mesh u.

End XDMF.

(** ** festim/exports/txt_export.py *)

Module TXTExport.
Import Method.
Local Open Scope method_scope.

(** A file written by [np.savetxt]: its header line and its rows. *)
Definition files := gmap string (string * list (list Q)).

(** What the class takes from the interpreter, numpy and the operating
    system. *)
Class Host := {
  (** [format(x, spec)] for a float [x] *)
  format_float : Q → string → result string;
  (** [np.isclose(a, b, atol=0)] *)
  isclose : Q → Q → bool;
  (** creating the directory of a file when it does not exist
      ([os.path.dirname], [os.path.exists], [os.makedirs]), on the disk as
      it is *)
  ensure_dirname : files → string → result unit;
  (** [np.savetxt] opening the file for writing, on the disk as it is *)
  open_for_writing : files → string → result unit
}.

#[export] Instance Qle_decision : RelDecision Qle :=
  λ x y, decide (Qnum x * QDen y ≤ Qnum y * QDen x)%Z.

(** [sorted(times)] *)
Definition sorted (l : list Q) : list Q := merge_sort Qle l.

(** The values passed as [filename]. *)
Inductive value :=
| VNone
| VStr (s : string)
| VInt (z : Z).

(** [header], [data] and [_unique_indices]: [initialise_TXTExport] assigns
    them together, and they are [None] before it.  [data] is the array row
    by row. *)
Record table := mkTable {
  header : string;
  data : list (list Q);
  _unique_indices : list nat
}.

Record TXTExport := mkTXTExport {
  field : string;
  times : option (list Q);
  filename : option string;
  write_at_last : bool;
  header_format : string;
  initialised : option table
}.

(** The state of a call: the object and the disk. *)
Definition world := (TXTExport * files)%type.

(** The [filename] setter. *)
Definition check_filename (v : value) : result (option string) :=
  match v with
  | VNone => Ok None
  | VStr s => if SurfaceQuantity.endswith s ".txt" then Ok (Some s) else Raise ValueError
  | VInt _ => Raise TypeError
  end.

(** [__init__(field, filename, times, write_at_last, header_format)] *)
Definition init (field : string) (filename : value) (times : option (list Q))
    (write_at_last : bool) (header_format : string) : result TXTExport :=
  let times := match times with
               | Some ((_ :: _) as l) => Some (sorted l)
               | _ => times
               end in
  filename ← check_filename filename;
  Ok (mkTXTExport field times filename write_at_last header_format None).

(** [np.column_stack([data, column])] for a two-dimensional [data] and a
    one-dimensional [column]. *)
Definition column_stack (data : list (list Q)) (column : list Q) : result (list (list Q)) :=
  if decide (length data = length column)
  then Ok (zip_with (λ row v, row ++ [v]) data column)
  else Raise ValueError.

Definition set_initialised (tb : table) : method world unit :=
  λ '(self, fs),
    (Ok (), (mkTXTExport (field self) (times self) (filename self) (write_at_last self)
               (header_format self) (Some tb), fs)).

Section WithHost.
Context `{Host}.

Definition is_it_time_to_export (self : TXTExport) (current_time : Q) : bool :=
  match times self with
  | None => true
  | Some times => existsb (λ time, isclose time current_time) times
  end.

Definition is_last (self : TXTExport) (current_time : Q) (final_time : option Q)
  : result bool :=
  match final_time with
  | None => Ok true
  | Some final_time =>
      match times self with
      | None => Ok (isclose current_time final_time)
      | Some times =>
          last ← index times (-1);
          Ok (isclose current_time last)
      end
  end.

(** [np.savetxt(filename, data, header=header, delimiter=",", comments="")]:
    when the file can be opened, it holds the header and the data
    afterwards. *)
Definition savetxt (filename : string) (data : list (list Q)) (header : string)
  : method world unit :=
  λ '(self, fs),
    match open_for_writing fs filename with
    | Ok _ => (Ok (), (self, <[filename := (header, data)]> fs))
    | Raise e => (Raise e, (self, fs))
    end.

(** What a call appends to the header. *)
Definition label (self : TXTExport) (current_time : Q) (final_time : option Q)
  : result string :=
  match final_time with
  | None => Ok ",t=steady"
  | Some _ =>
      s ← format_float current_time (header_format self);
      Ok (",t=" +:+ s +:+ "s")
  end.

(** [write(current_time, final_time)]; [solution] is the outcome of
    [f.project(self.function, self._V).vector()[:]] at the time of the
    call. *)
Definition write (solution : result (list Q)) (current_time : Q) (final_time : option Q)
  : method world unit :=
  w ⇐ get ;;
  when (is_it_time_to_export w.1 current_time)
       (solution_column ⇐ lift solution ;;
        filename ⇐ lift (match filename w.1 with
                         | Some s => Ok s
                         | None => Raise TypeError
                         end) ;;
        lift (ensure_dirname w.2 filename) ;;;
        suffix ⇐ lift (label w.1 current_time final_time) ;;
        tb ⇐ lift (match initialised w.1 with
                   | Some tb => Ok tb
                   | None => Raise TypeError
                   end) ;;
        set_initialised (mkTable (header tb +:+ suffix) (data tb) (_unique_indices tb)) ;;;
        column ⇐ lift (Np.take_indices solution_column (_unique_indices tb)) ;;
        data' ⇐ lift (column_stack (data tb) column) ;;
        set_initialised (mkTable (header tb +:+ suffix) data' (_unique_indices tb)) ;;;
        last ⇐ lift (if write_at_last w.1
                     then is_last w.1 current_time final_time
                     else Ok true) ;;
        when last (savetxt filename data' (header tb +:+ suffix))).

(** A run of calls [write(t, final_time)], each with the projected solution
    of its time; it stops at the first exception. *)
Definition writes (final_time : option Q) (calls : list (list Q * Q))
  : method world unit :=
  for_each calls (λ c, write (Ok c.1) c.2 final_time).

(** *** Notions used to state the properties of the export *)

(** The calls of a run that fall on an export time. *)
Definition due (self : TXTExport) (calls : list (list Q * Q)) : list (list Q * Q) :=
  filter (λ c, is_it_time_to_export self c.2 = true) calls.

End WithHost.

(** The same export with another [write_at_last]. *)
Definition with_write_at_last (self : TXTExport) (b : bool) : TXTExport :=
  mkTXTExport (field self) (times self) (filename self) b (header_format self)
    (initialised self).

(** The same export with another table. *)
Definition with_table (self : TXTExport) (tb : table) : TXTExport :=
  mkTXTExport (field self) (times self) (filename self) (write_at_last self)
    (header_format self) (Some tb).

(** The profile of a solution at the exported points. *)
Definition profile (solution : list Q) (indices : list nat) (column : list Q) : Prop :=
  Forall2 (λ i v, solution !! i = Some v) indices column.

(** The table with one more column. *)
Definition extended (tb : table) (suffix : string) (column : list Q) : table :=
  mkTable (header tb +:+ suffix) (zip_with (λ row v, row ++ [v]) (data tb) column)
    (_unique_indices tb).

End TXTExport.

(** ** FESTIM/post_processing.py: [compute_error] *)

Module ComputeError.
Import Ufl PostProcessing.

(** An element of [error["computed_solutions"]]: a [str] or an [int]. *)
Inductive computed :=
| ComputedStr (s : string)
| ComputedInt (z : Z).

(** One error dictionary; [None] is an absent key.  An exact solution is a
    sympy expression, given by its C code. *)
Record error := mkError {
  exact_solutions : option (list string);
  computed_solutions : option (list computed);
  degree : option Z;
  norm : option string
}.

(** What [compute_error] takes from FEniCS, the mesh being fixed. *)
Class ErrorBackend := {
  (** the number of vertices of the mesh *)
  num_vertices : nat;
  (** [f.Expression(code, degree=degree, t=t)] *)
  Expression : string → Z → Q → result expr;
  (** [u.compute_vertex_values(mesh)]: the value at each vertex *)
  compute_vertex_values : expr → result (nat → Q);
  (** [f.errornorm(exact_sol, computed_sol, norm)] *)
  errornorm : expr → expr → string → result Q
}.

(** The dictionary [solution_dict]. *)
Definition solution_dict (res : list expr) : result (gmap string expr) :=
  solute ← index res 0;
  retention ← index res (Z.of_nat (length res) - 2);
  T ← index res (Z.of_nat (length res) - 1);
  Ok (<["T" := T]> (<["retention" := retention]> {["solute" := solute]})).

(** The computed solution that an element of
    [error["computed_solutions"]] stands for. *)
Definition computed_sol (res : list expr) (solution_dict : gmap string expr)
    (err : computed) : result expr :=
  match err with
  | ComputedStr s =>
      if isdigit s
      then nb ← int_of_str s; index res nb
      else match solution_dict !! s with
           | Some u => Ok u
           | None => Raise KeyError
           end
  | ComputedInt z => index res z
  end.

Section WithBackend.
Context `{ErrorBackend}.

(** [np.max(np.abs(vertex_values_u - vertex_values_sol))] *)
Definition error_max (u sol : nat → Q) : result Q :=
  Np.max (map (λ v, Qabs (u v - sol v)) (seq 0 num_vertices)).

(** The body of the loop over [range(len(error["exact_solutions"]))]. *)
Definition error_value (t : Q) (res : list expr) (solution_dict : gmap string expr)
    (error : error) (i : nat) : result Q :=
  exact ← required (exact_solutions error);
  code ← index exact (Z.of_nat i);
  degree ← required (degree error);
  exact_sol ← Expression code degree t;
  computed ← required (computed_solutions error);
  err ← index computed (Z.of_nat i);
  computed_sol ← computed_sol res solution_dict err;
  norm ← required (norm error);
  if String.eqb norm "error_max"
  then
    vertex_values_u ← compute_vertex_values computed_sol;
    vertex_values_sol ← compute_vertex_values exact_sol;
    error_max vertex_values_u vertex_values_sol
  else errornorm exact_sol computed_sol norm.

(** The row [er] of one error dictionary. *)
Definition error_row (t : Q) (res : list expr) (solution_dict : gmap string expr)
    (error : error) : result (list Q) :=
  exact ← required (exact_solutions error);
  values ← comprehension (error_value t res solution_dict error) (seq 0 (length exact));
  Ok (t :: values).

Definition compute_error (parameters : list error) (t : Q) (res : list expr)
  : result (list (list Q)) :=
  solution_dict ← solution_dict res;
  comprehension (error_row t res solution_dict) parameters.

End WithBackend.

(** *** Notions used to state the properties of [compute_error] *)


End ComputeError.

(** ** Notions used to state the properties of the post-processing *)

Module PostProcessingSpec.
Import Ufl PostProcessing.

(** Dof [d] belongs to a cell that carries marker [subd_id]. *)
Definition marked_dof (u : Function) (subdomains : list Z) (subd_id : Z) (d : nat) : Prop :=
  ∃ c dofs, subdomains !! c = Some subd_id ∧ fn_cell_dofs u !! c = Some dofs ∧ d ∈ dofs.

(** The dof map of [u] covers the cells of the mesh function, gives every
    cell at least one dof, and every dof indexes the vector of [u]. *)
Definition dofmap_well_formed (u : Function) (subdomains : list Z) : Prop :=
  ∀ c, (c < length subdomains)%nat →
    ∃ dofs, fn_cell_dofs u !! c = Some dofs ∧ dofs ≠ [] ∧
            ∀ d, d ∈ dofs → (d < length (fn_vector u))%nat.

(** [M] is the greatest (resp. [m] the least) of the values of [u] at the
    dofs [dofs]. *)
Definition is_maximum_over (u : Function) (dofs : list nat) (M : Q) : Prop :=
  (∃ d, d ∈ dofs ∧ fn_vector u !! d = Some M) ∧
  (∀ d v, d ∈ dofs → fn_vector u !! d = Some v → (v <= M)%Q).

Definition is_minimum_over (u : Function) (dofs : list nat) (m : Q) : Prop :=
  (∃ d, d ∈ dofs ∧ fn_vector u !! d = Some m) ∧
  (∀ d v, d ∈ dofs → fn_vector u !! d = Some v → (m <= v)%Q).

(** *** Requests: the specification's view of the derived quantities

    A request is one (quantity, field, surface-or-volume) triple; the
    following definitions follow the wording of the specification and are
    compared with the loops of the code. *)

Inductive quantity :=
| SurfaceFlux
| AverageVolume
| MinimumVolume
| MaximumVolume
| TotalVolume
| TotalSurface.

(** The fixed order of the quantities. *)
Definition quantities : list quantity :=
  [SurfaceFlux; AverageVolume; MinimumVolume; MaximumVolume; TotalVolume; TotalSurface].

Definition quantity_key (q : quantity) : string :=
  match q with
  | SurfaceFlux => "surface_flux"
  | AverageVolume => "average_volume"
  | MinimumVolume => "minimum_volume"
  | MaximumVolume => "maximum_volume"
  | TotalVolume => "total_volume"
  | TotalSurface => "total_surface"
  end.

(** Surfaces for the two surface quantities, volumes for the others. *)
Definition quantity_ids (q : quantity) : entry → option (list Z) :=
  match q with
  | SurfaceFlux | TotalSurface => e_surfaces
  | _ => e_volumes
  end.

Record request := mkRequest {
  rq_quantity : quantity;
  rq_field : field_key;
  rq_id : Z
}.

Definition entry_requests (q : quantity) (e : entry) : list request :=
  match quantity_ids q e, e_field e with
  | Some idl, Some f => map (mkRequest q f) idl
  | _, _ => []
  end.

Definition quantity_requests (d : gmap string dq_value) (q : quantity) : list request :=
  match d !! quantity_key q with
  | Some (Entries l) => flat_map (entry_requests q) l
  | _ => []
  end.

(** All requests of a derived-quantities dict, in header order. *)
Definition requests (d : gmap string dq_value) : list request :=
  flat_map (quantity_requests d) quantities.

(** The header column of a request. *)
Definition request_label (r : request) : string :=
  let field := str_field (rq_field r) in
  match rq_quantity r with
  | SurfaceFlux => flux_text (rq_id r) field
  | AverageVolume => average_text (rq_id r) field
  | MinimumVolume => minimum_text (rq_id r) field
  | MaximumVolume => maximum_text (rq_id r) field
  | TotalVolume => total_volume_text (rq_id r) field
  | TotalSurface => total_surface_text (rq_id r) field
  end.

(** What [derived_quantities] has at hand once its dictionaries are
    built. *)
Record dq_context := mkContext {
  cx_soret : bool;
  cx_Q : option expr;
  cx_T : expr;
  cx_volume_markers : list Z;
  cx_surface_markers : list Z;
  cx_field_to_sol : gmap string expr;
  cx_field_to_prop : gmap string (option expr);
  cx_solutions : list expr
}.

Section WithBackend.
Context `{Backend}.

Definition context_of (parameters : parameters) (solutions : list expr)
    (markers : list (list Z)) (properties : list (option expr)) : result dq_context :=
  D ← index properties 0;
  thermal_cond ← index properties 1;
  '(soret, Q_soret) ← soret_setting parameters properties;
  volume_markers ← index markers 0;
  surface_markers ← index markers 1;
  T ← index solutions (Z.of_nat (length solutions) - 1);
  fts ← field_to_sol solutions;
  Ok (mkContext soret Q_soret T volume_markers surface_markers fts
        (field_to_prop D thermal_cond) solutions).

(** The sum, over the fields [funs], of the least (resp. greatest) value
    of each field on a volume. *)
Definition sum_of_minima (funs : list expr) (volume_markers : list Z) (vol : Z) : result Q :=
  for_ funs (λ fun_ val,
    m ← calculate_minimum_volume fun_ volume_markers vol; Ok (val + m)%Q) 0%Q.

Definition sum_of_maxima (funs : list expr) (volume_markers : list Z) (vol : Z) : result Q :=
  for_ funs (λ fun_ val,
    m ← calculate_maximum_volume fun_ volume_markers vol; Ok (val + m)%Q) 0%Q.

(** The value reported for one request. *)
Definition request_value (cx : dq_context) (r : request) : result Q :=
  let key := str_field (rq_field r) in
  let dx := dx (cx_volume_markers cx) in
  let ds := ds (cx_surface_markers cx) in
  match rq_quantity r with
  | SurfaceFlux =>
      sol ← getitem (cx_field_to_sol cx) key;
      prop ← getitem (cx_field_to_prop cx) key;
      surface_flux_value (cx_soret cx) (cx_Q cx) (cx_T cx) (cx_surface_markers cx)
        key sol prop (rq_id r)
  | AverageVolume =>
      sol ← getitem (cx_field_to_sol cx) key;
      truediv (assemble (Integral sol (dx (rq_id r))))
              (assemble (Integral (IntValue 1) (dx (rq_id r))))
  | MinimumVolume =>
      if bool_decide (key = "retention")
      then sum_of_minima (slice_to_end_minus (cx_solutions cx) 2)
             (cx_volume_markers cx) (rq_id r)
      else sol ← getitem (cx_field_to_sol cx) key;
           calculate_minimum_volume sol (cx_volume_markers cx) (rq_id r)
  | MaximumVolume =>
      if bool_decide (key = "retention")
      then sum_of_maxima (slice_to_end_minus (cx_solutions cx) 2)
             (cx_volume_markers cx) (rq_id r)
      else sol ← getitem (cx_field_to_sol cx) key;
           calculate_maximum_volume sol (cx_volume_markers cx) (rq_id r)
  | TotalVolume =>
      sol ← getitem (cx_field_to_sol cx) key;
      Ok (assemble (Integral sol (dx (rq_id r))))
  | TotalSurface =>
      sol ← getitem (cx_field_to_sol cx) key;
      Ok (assemble (Integral sol (ds (rq_id r))))
  end.

End WithBackend.

(** *** The retention field itself

    The value of the retention (mobile plus trapped concentrations) at a
    dof, and what it means for a number to be its least or greatest value
    over a set of dofs. *)

Definition retention_at (funs : list Function) (d : nat) : option Q :=
  foldl (λ acc u, a ← acc; v ← fn_vector u !! d; Some (a + v)%Q) (Some 0%Q) funs.

Definition retention_minimum (funs : list Function) (dofs : list nat) (m : Q) : Prop :=
  (∃ d r, d ∈ dofs ∧ retention_at funs d = Some r ∧ (r == m)%Q) ∧
  (∀ d r, d ∈ dofs → retention_at funs d = Some r → (m <= r)%Q).

Definition retention_maximum (funs : list Function) (dofs : list nat) (M : Q) : Prop :=
  (∃ d r, d ∈ dofs ∧ retention_at funs d = Some r ∧ (r == M)%Q) ∧
  (∀ d r, d ∈ dofs → retention_at funs d = Some r → (r <= M)%Q).

End PostProcessingSpec.

(** ** Notions used to state the properties of the problem set-up *)

Module HTransportSpec.
Import HTransport.

Definition in_int32 (z : Z) : Prop := - 2 ^ 31 ≤ z < 2 ^ 31.

Section WithGeometry.
Context `{Geometry}.

(** Cell [c] is among the entities located for the volume subdomain [s]. *)
Definition located_in (m : Mesh) (c : nat) (s : Subdomain) : Prop :=
  is_volume s = true ∧ c ∈ locate_subdomain_entities s m (topology_dim m).

(** The identifiers fit the tag arrays and the located cells exist. *)
Definition markable (m : Mesh) (V : FunctionSpace) (s : Subdomain) : Prop :=
  (is_surface s = true → in_int32 (locate_dof s V) ∧ in_int32 (subdomain_id s)) ∧
  (is_volume s = true →
     in_int32 (subdomain_id s) ∧
     ∀ e, e ∈ locate_subdomain_entities s m (topology_dim m) → (e < num_cells m)%nat).

(** [D] is the diffusion coefficient of the material of [vol]. *)
Definition diffusion_coefficient_of (m : Mesh) (T : option Q) (vol : Subdomain) (D : expr) : Prop :=
  ∃ id borders material,
    vol = VolumeSubdomain1D id borders material ∧
    get_diffusion_coefficient material m T = Ok D.

End WithGeometry.

(** The function space [initialise] builds on a mesh. *)
Definition space_on (m : Mesh) : FunctionSpace := mkFunctionSpace m "CG" 1.

(** The species once the single species of a problem has received its
    functions. *)
Definition with_functions (V : FunctionSpace) (spe : Species) : Species :=
  mkSpecies (name spe) (Some (Function 0 V)) (Some (Function 1 V)) (Some (TestFunction V)).

(** The two terms of the first species on a volume with coefficient [D]:
    [dot(D*grad(u), grad(v))*dx(id)] and [((u - u_n)/dt)*v*dx(id)] with
    [dt = 1/20]. *)
Definition volume_terms (V : FunctionSpace) (dx : Measure) (vol_D : Subdomain * expr)
  : list Integral :=
  [mkIntegral (dot (Mul vol_D.2 (grad (Function 0 V))) (grad (TestFunction V)))
     dx (subdomain_id vol_D.1);
   mkIntegral (Mul (Div (Sub (Function 0 V) (Function 1 V)) (Constant (1 # 20)))
                   (TestFunction V))
     dx (subdomain_id vol_D.1)].

(** A sum of integrals started from the integer zero. *)
Definition form_of (terms : list Integral) : Formulation :=
  match terms with
  | [] => PyInt 0
  | _ => Form terms
  end.

(** [F] is the sum of the integrals [terms], in some order. *)
Definition sums (F : Formulation) (terms : list Integral) : Prop :=
  ∃ l, F = form_of l ∧ l ≡ₚ terms.

End HTransportSpec.

(** ** Concrete inputs on which the properties are exercised *)

Module Examples.
Import Ufl PostProcessing.

(** Two cells sharing a dof; the first one is marked 1. *)
Definition two_cell_function : Function :=
  mkFunction "u" [[0; 1]; [1; 2]]%nat [3 # 1; 1 # 1; 2 # 1]%Q.

(** A backend in which every volume integral is 2 and every surface
    integral is 1, and the file writers always succeed. *)
Definition example_backend : Backend := {|
  quantity_types :=
    ["surface_flux"; "average_volume"; "minimum_volume"; "maximum_volume";
     "total_volume"; "total_surface"];
  field_types := ["solute"; "retention"; "T"];
  gas_constant := 8314 # 1000;
  assemble := λ a, match m_kind (over a) with Mdx => 2 # 1 | Mds => 1 # 1 end;
  project := λ _, mkFunction "projected" [[0; 1]]%nat [0 # 1; 0 # 1];
  write_to_csv := λ _ _, Ok ();
  xdmf_write := λ _ _ _, Ok ();
  export_profiles := λ _ _ _ dt, Ok dt
|}.

(** A backend that tells measures apart: an integral is the number of
    entities that carry the id of its measure, times the sum of the dof
    values of the integrand when it is a function, the integrand itself when
    it is an integer, and one otherwise; surface integrals are counted
    negatively. *)
Definition measuring_backend : Backend := {|
  quantity_types :=
    ["surface_flux"; "average_volume"; "minimum_volume"; "maximum_volume";
     "total_volume"; "total_surface"];
  field_types := ["solute"; "retention"; "T"];
  gas_constant := 8314 # 1000;
  assemble := λ a,
    let entities :=
      inject_Z (Z.of_nat (length (filter (λ m, m = m_subdomain_id (over a))
                                    (m_subdomain_data (over a))))) in
    let weight := match integrand a with
                  | IntValue z => inject_Z z
                  | Fn u => foldl Qplus (0 # 1) (fn_vector u)
                  | _ => 1 # 1
                  end in
    match m_kind (over a) with
    | Mdx => entities * weight
    | Mds => - (entities * weight)
    end%Q;
  project := λ _, mkFunction "projected" [[0; 1]]%nat [0 # 1; 0 # 1];
  write_to_csv := λ _ _, Ok ();
  xdmf_write := λ _ _ _, Ok ();
  export_profiles := λ _ _ _ dt, Ok dt
|}.

(** One cell with two dofs; the mobile concentration is 0 and 1 there, the
    trapped concentration 1 and 0, so the retention is 1 at both dofs. *)
Definition mobile : Function := mkFunction "mobile" [[0; 1]]%nat [0 # 1; 1 # 1].
Definition trapped : Function := mkFunction "trap_1" [[0; 1]]%nat [1 # 1; 0 # 1].
Definition temperature_field : Function := mkFunction "T" [[0; 1]]%nat [300 # 1; 300 # 1].

(** [solutions]: the mobile and trapped fields, the retention, the
    temperature. *)
Definition example_solutions : list expr :=
  [Fn mobile; Fn trapped; Sum (Fn mobile) (Fn trapped); Fn temperature_field].

Definition retention_entry : entry :=
  mkEntry (Some (FieldStr "retention")) None (Some [1]).

Definition retention_extrema_dict : gmap string dq_value :=
  <["maximum_volume" := Entries [retention_entry]]>
    {["minimum_volume" := Entries [retention_entry]]}.

Definition retention_extrema_parameters : parameters :=
  mkParameters (Some (mkExports (Some retention_extrema_dict) None)) None.

(** A request for the average and total solute on volume 1, the flux of
    solute through surfaces 1 and 2, and a file name. *)
Definition example_dict : gmap string dq_value :=
  <["file" := Setting]>
    (<["surface_flux" := Entries [mkEntry (Some (FieldStr "solute")) (Some [1; 2]) None]]>
       (<["total_volume" := Entries [mkEntry (Some (FieldInt 1)) None (Some [1])]]>
          {["average_volume" := Entries [mkEntry (Some (FieldStr "solute")) None (Some [1])]]})).

Definition example_parameters : parameters :=
  mkParameters (Some (mkExports (Some example_dict) None)) None.

(** A transient simulation at its fourth iteration, computing the derived
    quantities every second iteration. *)
Definition example_simulation (nb_iterations : Z) : Simulation :=
  mkSimulation example_parameters true
    (Mixed [Fn mobile; Fn trapped]) (Fn temperature_field) [1] [1; 2]
    (1 # 2) (1 # 10)
    (Some (UserExpression "D")) None None None
    [[0 # 1; 1 # 1; 2 # 1; 3 # 1; 4 # 1]]
    (Fn mobile) (Fn mobile) [mkTrap 1 (Fn trapped)]
    false false nb_iterations 2 None 1 (10 # 1) [ExportOther] [].

(** A transient simulation at its fourth iteration, before its final
    time, with the change of variable and its projection, derived
    quantities computed and exported every second iteration, profiles
    requested, and four exports: an XDMF export for the last time step only,
    an export of another kind, and two XDMF exports for every step. *)
Definition full_simulation : Simulation :=
  mkSimulation
    (mkParameters (Some (mkExports (Some example_dict) (Some ()))) None) true
    (Mixed [Fn mobile; Fn trapped]) (Fn temperature_field) [1] [1; 2]
    (1 # 2) (1 # 10)
    (Some (UserExpression "D")) None None (Some (UserExpression "S"))
    [[0 # 1; 1 # 1; 2 # 1; 3 # 1; 4 # 1]]
    (Fn mobile) (Fn mobile) [mkTrap 1 (Fn trapped)]
    true true 4 2 (Some 2) 2 (10 # 1)
    [ExportXDMF (mkXDMFLegacy true "retention" false);
     ExportOther;
     ExportXDMF (mkXDMFLegacy false "solute" false);
     ExportXDMF (mkXDMFLegacy false "retention" false)]
    [].

(** A geometry on the unit interval cut into equal cells: a surface at
    [x] sits at vertex [floor(x * n)], a volume covers every cell, and the
    diffusion coefficient needs a temperature. *)
Definition example_geometry : HTransport.Geometry := {|
  HTransport.locate_dof := λ s V,
    match s with
    | HTransport.SurfaceSubdomain1D _ x =>
        Qfloor (x * inject_Z (Z.of_nat (HTransport.num_cells (HTransport.fs_mesh V))))
    | _ => 0
    end;
  HTransport.locate_subdomain_entities := λ s m vdim,
    match s with
    | HTransport.VolumeSubdomain1D _ _ _ => seq 0 (HTransport.num_cells m)
    | _ => []
    end;
  HTransport.get_diffusion_coefficient := λ material m T,
    match T with
    | Some T => Ok (HTransport.Coefficient material T)
    | None => Raise TypeError
    end
|}.

Definition example_mesh : HTransport.Mesh := HTransport.mkMesh 1 3.

Definition tungsten : HTransport.Material :=
  HTransport.mkMaterial "my_mat" (19 # 100000000) (2 # 10).

Definition example_subdomains : list HTransport.Subdomain :=
  [HTransport.SurfaceSubdomain1D 1 (0 # 1);
   HTransport.VolumeSubdomain1D 3 (0 # 1, 1 # 1) tungsten;
   HTransport.SurfaceSubdomain1D 2 (1 # 1)].

Definition species_H : HTransport.Species := HTransport.mkSpecies "H" None None None.
Definition species_Trap : HTransport.Species := HTransport.mkSpecies "Trap" None None None.

(** A problem with one species, and the same with a trap species added. *)
Definition one_species_problem : HTransport.HydrogenTransportProblem :=
  HTransport.init (Some example_mesh) example_subdomains [species_H] (Some (500 # 1)) [].

Definition two_species_problem : HTransport.HydrogenTransportProblem :=
  HTransport.init (Some example_mesh) example_subdomains [species_H; species_Trap]
    (Some (500 # 1)) [].

(** One species and two sources. *)
Definition two_sources_problem : HTransport.HydrogenTransportProblem :=
  HTransport.init (Some example_mesh) example_subdomains [species_H] (Some (500 # 1))
    [HTransport.mkSource (1 # 1) "H"; HTransport.mkSource (2 # 1) "H"].

(** A flux of "H" through surface 1 exported to a file that already
    exists, and two export steps. *)
Definition old_files : SurfaceQuantity.files :=
  {["flux.csv" := [[SurfaceQuantity.Text "stale"]]]}.

Definition two_calls : list (Q * Q) := [(0 # 1, 5 # 1); (1 # 1, 7 # 1)]%Q.

(** Two species on one mesh and two calls to [write] with the species as
    they are at that time. *)
Definition species_store (a b : string) : XDMF.store :=
  <[1%nat := XDMF.mkSpecies "D" (Some (XDMF.mkFunction b "unit_cube"))]>
    {[0%nat := XDMF.mkSpecies "H" (Some (XDMF.mkFunction a "unit_cube"))]}.

Definition xdmf_calls : list (XDMF.store * Q) :=
  [(species_store "H_0" "D_0", 0 # 1); (species_store "H_1" "D_1", 1 # 1)]%Q.

(** Two volume subdomains that both cover the whole mesh. *)
Definition overlapping_subdomains : list HTransport.Subdomain :=
  [HTransport.VolumeSubdomain1D 3 (0 # 1, 1 # 1) tungsten;
   HTransport.VolumeSubdomain1D 4 (0 # 1, 1 # 1) tungsten].

Definition overlapping_problem : HTransport.HydrogenTransportProblem :=
  HTransport.with_function_space
    (HTransport.init (Some example_mesh) overlapping_subdomains [species_H]
       (Some (500 # 1)) [])
    (HTransportSpec.space_on example_mesh).

(** The one-species problem once its function space is defined. *)
Definition one_species_with_space : HTransport.HydrogenTransportProblem :=
  HTransport.with_function_space one_species_problem
    (HTransportSpec.space_on example_mesh).

(** A host that formats a float as a fraction, compares floats with the
    relative tolerance [1e-05] of numpy, and can neither create the
    directory [out] nor write into it when the disk holds a regular file of
    that name. *)
Definition example_host : TXTExport.Host := {|
  TXTExport.format_float := λ x _,
    Ok (str_int (Qnum x) +:+ "/" +:+ str_int (Zpos (Qden x)));
  TXTExport.isclose := λ a b,
    Qle_bool (Qabs (a - b)) ((1 # 100000) * Qabs b);
  TXTExport.ensure_dirname := λ fs _,
    match fs !! "out" with Some _ => Raise OSError | None => Ok () end;
  TXTExport.open_for_writing := λ fs _,
    match fs !! "out" with Some _ => Raise OSError | None => Ok () end
|}.

(** A disk that already holds the file of the export, with other
    content. *)
Definition stale_disk : TXTExport.files :=
  {["out/solute.txt" := ("stale", [[9 # 1]]%Q)]}.

(** A TXT export of three points, initialised, with their abscissae in its
    table. *)
Definition example_txt (times : option (list Q)) (write_at_last : bool)
  : TXTExport.TXTExport :=
  TXTExport.mkTXTExport "solute" times (Some "out/solute.txt") write_at_last ".2e"
    (Some (TXTExport.mkTable "x" [[0 # 1]; [1 # 2]; [1 # 1]]%Q [2; 0; 1]%nat)).

Definition txt_calls : list (list Q * Q) :=
  [([5 # 1; 6 # 1; 4 # 1], 1 # 1); ([7 # 1; 8 # 1; 6 # 1], 3 # 2);
   ([8 # 1; 9 # 1; 7 # 1], 2 # 1)]%Q.

(** A mesh of two vertices on which every exact solution is 1 everywhere
    and every norm of [errornorm] is 1/2. *)
Definition example_error_backend : ComputeError.ErrorBackend := {|
  ComputeError.num_vertices := 2;
  ComputeError.Expression := λ code _ _, Ok (UserExpression code);
  ComputeError.compute_vertex_values := λ e,
    match e with
    | Fn u => Ok (λ v, default (0 # 1)%Q (fn_vector u !! v))
    | UserExpression _ => Ok (λ _, (1 # 1)%Q)
    | _ => Raise AttributeError
    end;
  ComputeError.errornorm := λ _ _ _, Ok (1 # 2)%Q
|}.

Definition example_errors : list ComputeError.error :=
  [ComputeError.mkError (Some ["x*t"; "1"])
     (Some [ComputeError.ComputedStr "solute"; ComputeError.ComputedStr "T"])
     (Some 2) (Some "error_max");
   ComputeError.mkError (Some ["x"])
     (Some [ComputeError.ComputedInt (-1)]) (Some 1) (Some "L2")].

End Examples.

(** ** Further notions for the post-processing *)

Module PostProcessingSpec2.
Import Ufl PostProcessing PostProcessingSpec.

(** A string that starts like a decimal integer. *)
Definition starts_numeric (s : string) : Prop :=
  match s with
  | String c _ => is_digit_char c = true ∨ Ascii.nat_of_ascii c = 45%nat
  | EmptyString => False
  end.

(** The names under which [derived_quantities] registers the solutions of
    a list of length [n]: the three named fields and the trap numbers. *)
Definition registered (n : nat) (key : string) : Prop :=
  key = "solute" ∨ key = "retention" ∨ key = "T" ∨
  ∃ i : Z, (1 ≤ i < Z.of_nat n - 2)%Z ∧ key = str_int i.

Section WithBackend.
Context `{Backend}.




End WithBackend.



(** The components of the solution [u]. *)
Definition components_of (u : solution) : list expr :=
  match u with
  | Scalar u => [u]
  | Mixed components => components
  end.

(** An XDMF export is due at this step: its time condition holds and the
    iteration is one of those at which exports are written. *)
Definition xdmf_due (simulation : Simulation) (x : XDMFExportLegacy) : bool :=
  ((last_time_step_only x && Qle_bool (sim_final_time simulation) (sim_t simulation))
   || negb (last_time_step_only x))
  && bool_decide (sim_nb_iterations simulation
                    `mod` sim_nb_iterations_between_exports simulation = 0)%Z.

(** The exports that are due, in order. *)
Definition due_exports (simulation : Simulation) (exports : list Export)
  : list XDMFExportLegacy :=
  omap (λ e, match e with
             | ExportXDMF x => if xdmf_due simulation x then Some x else None
             | ExportOther => None
             end) exports.

(** An export after the step: one that was due has [append] set. *)
Definition after_step (simulation : Simulation) (e : Export) : Export :=
  match e with
  | ExportXDMF x =>
      if xdmf_due simulation x
      then ExportXDMF (mkXDMFLegacy (last_time_step_only x) (xdmf_function x) true)
      else e
  | ExportOther => e
  end.

(** Event [ev] is the writing of export [x] at time [t]. *)
Definition written_by (t : Q) (x : XDMFExportLegacy) (ev : io_event) : Prop :=
  ∃ functions, ev = XdmfWritten (xdmf_function x) functions t.

End PostProcessingSpec2.

(** ** Further notions for the XDMF export *)

Module XDMFSpec2.
Import Method XDMF.

(** What a user can do with an export once it is built. *)
Inductive op :=
| DefineWriter
| Write (σ : store) (t : Q).

Definition exec (o : op) : method XDMFExport unit :=
  match o with
  | DefineWriter => define_writer
  | Write σ t => write σ t
  end.

(** A sequence of operations, carried on whatever each one raises. *)
Definition carry_on (ops : list op) (self : XDMFExport) : XDMFExport :=
  foldl (λ self o, (exec o self).2) self ops.

Definition is_mesh (w : written) : bool :=
  match w with
  | WrittenMesh _ => true
  | WrittenFunction _ _ => false
  end.

(** How many times the mesh occurs in what a writer received. *)
Definition meshes (log : list written) : nat :=
  length (filter (λ w, is_mesh w = true) log).

(** The mesh is in the file at most once, and not at all while
    [_mesh_written] is false. *)
Definition mesh_once (self : XDMFExport) : Prop :=
  match _writer self with
  | Some log => (meshes log ≤ 1)%nat ∧ (_mesh_written self = false → meshes log = 0%nat)
  | None => True
  end.

End XDMFSpec2.

(** * Properties *)

(** ** Generic facts about the runtime conventions *)

Module PyFacts.

Lemma bind_Ok {A B} (m : result A) (k : A → result B) b :
  (m ≫= k) = Ok b ↔ ∃ a, m = Ok a ∧ k a = Ok b.
Proof.
  destruct m as [a|e]; simpl; split.
  - intros Hk. exists a. done.
  - intros (a' & [= <-] & Hk). done.
  - intros [=].
  - intros (a' & [=] & _).
Qed.

Lemma comprehension_Ok {A B} (f : A → result B) l ys :
  comprehension f l = Ok ys ↔ Forall2 (λ x y, f x = Ok y) l ys.
Proof.
  revert ys. induction l as [|x l IH]; intros ys; simpl.
  - split; [intros [= <-]; constructor | by inversion 1].
  - rewrite bind_Ok. split.
    + intros (y & Hy & Hrest). apply bind_Ok in Hrest as (ys' & Hys & [= <-]).
      constructor; [done | by apply IH].
    + inversion 1 as [|? y ? ys' Hy Hys]; subst. exists y. split; [done|].
      apply bind_Ok. exists ys'. split; [by apply IH | done].
Qed.

Lemma comprehension_total {A B} (f : A → result B) l :
  Forall (λ x, is_Ok (f x)) l → is_Ok (comprehension f l).
Proof.
  induction 1 as [|x l [y Hy] _ [ys Hys]]; [by exists []|].
  exists (y :: ys). simpl. rewrite Hy. simpl. by rewrite Hys.
Qed.

Lemma index_nat_Ok {A} (l : list A) (i : nat) x :
  index l (Z.of_nat i) = Ok x ↔ l !! i = Some x.
Proof.
  unfold index. destruct (decide _) as [Hi|Hi].
  - rewrite Nat2Z.id. destruct (l !! i); split; congruence.
  - rewrite decide_False by lia. split; [done|].
    intros Hl. apply lookup_lt_Some in Hl. lia.
Qed.

Lemma for_app {A S} (l1 l2 : list A) (body : A → S → result S) s :
  for_ (l1 ++ l2) body s = (for_ l1 body s ≫= for_ l2 body).
Proof.
  revert s. induction l1 as [|x l1 IH]; intros s; simpl; [done|].
  destruct (body x s) as [s'|e]; simpl; [apply IH | done].
Qed.

End PyFacts.

(** ** Reductions over the dofs of a subdomain *)

Module ExtremaFacts.
Import Ufl PostProcessing PostProcessingSpec PyFacts Examples.

Lemma Qmax_cases (x y : Q) : Qmax x y = x ∨ Qmax x y = y.
Proof. unfold Qmax, GenericMinMax.gmax. destruct (x ?= y)%Q; auto. Qed.

Lemma Qmin_cases (x y : Q) : Qmin x y = x ∨ Qmin x y = y.
Proof. unfold Qmin, GenericMinMax.gmin. destruct (x ?= y)%Q; auto. Qed.

Lemma foldl_Qmax_elem xs x : foldl Qmax x xs ∈ x :: xs.
Proof.
  revert x. induction xs as [|y xs IH]; intros x; simpl; [set_solver|].
  pose proof (IH (Qmax x y)) as IH'.
  destruct (Qmax_cases x y) as [E|E]; rewrite E in IH'; rewrite E;
    rewrite elem_of_cons in IH'; rewrite !elem_of_cons; tauto.
Qed.

Lemma foldl_Qmin_elem xs x : foldl Qmin x xs ∈ x :: xs.
Proof.
  revert x. induction xs as [|y xs IH]; intros x; simpl; [set_solver|].
  pose proof (IH (Qmin x y)) as IH'.
  destruct (Qmin_cases x y) as [E|E]; rewrite E in IH'; rewrite E;
    rewrite elem_of_cons in IH'; rewrite !elem_of_cons; tauto.
Qed.

Lemma foldl_Qmax_upper xs x y : y ∈ x :: xs → (y <= foldl Qmax x xs)%Q.
Proof.
  revert x y. induction xs as [|z xs IH]; intros x y Hy; simpl.
  - apply list_elem_of_singleton in Hy as ->. apply Qle_refl.
  - apply elem_of_cons in Hy as [->|Hy].
    + eapply Qle_trans; [apply (Q.le_max_l x z)|]. apply IH. set_solver.
    + apply elem_of_cons in Hy as [->|Hy].
      * eapply Qle_trans; [apply (Q.le_max_r x z)|]. apply IH. set_solver.
      * apply IH. set_solver.
Qed.

Lemma foldl_Qmin_lower xs x y : y ∈ x :: xs → (foldl Qmin x xs <= y)%Q.
Proof.
  revert x y. induction xs as [|z xs IH]; intros x y Hy; simpl.
  - apply list_elem_of_singleton in Hy as ->. apply Qle_refl.
  - apply elem_of_cons in Hy as [->|Hy].
    + eapply Qle_trans; [|apply (Q.le_min_l x z)]. apply IH. set_solver.
    + apply elem_of_cons in Hy as [->|Hy].
      * eapply Qle_trans; [|apply (Q.le_min_r x z)]. apply IH. set_solver.
      * apply IH. set_solver.
Qed.

Lemma elem_of_subset_iterator_from i subdomains subd_id c :
  c ∈ subset_iterator_from i subdomains subd_id ↔
  (i ≤ c)%nat ∧ subdomains !! (c - i)%nat = Some subd_id.
Proof.
  revert i. induction subdomains as [|m ms IH]; intros i; simpl.
  - split; [by intros ?%elem_of_nil | by intros [_ ?]].
  - destruct (decide (m = subd_id)) as [->|Hne].
    + rewrite elem_of_cons, IH. split.
      * intros [->|[Hle Hl]]; [by rewrite Nat.sub_diag|].
        split; [lia|]. by replace (c - i)%nat with (S (c - S i)) by lia.
      * intros [Hle Hl]. destruct (decide (c = i)) as [|Hci]; [by left|right].
        split; [lia|]. by replace (c - i)%nat with (S (c - S i)) in Hl by lia.
    + rewrite IH. split.
      * intros [Hle Hl]. split; [lia|].
        by replace (c - i)%nat with (S (c - S i)) by lia.
      * intros [Hle Hl]. destruct (decide (c = i)) as [->|Hci].
        { rewrite Nat.sub_diag in Hl. simpl in Hl. congruence. }
        split; [lia|]. by replace (c - i)%nat with (S (c - S i)) in Hl by lia.
Qed.

Lemma elem_of_SubsetIterator subdomains subd_id c :
  c ∈ SubsetIterator subdomains subd_id ↔ subdomains !! c = Some subd_id.
Proof.
  unfold SubsetIterator. rewrite elem_of_subset_iterator_from, Nat.sub_0_r.
  split; [by intros [_ ?] | intros; split; [lia | done]].
Qed.

Lemma elem_of_unique a d : d ∈ Np.unique a ↔ d ∈ a.
Proof. unfold Np.unique. by rewrite merge_sort_Permutation, elem_of_remove_dups. Qed.

Lemma NoDup_unique a : NoDup (Np.unique a).
Proof. unfold Np.unique. rewrite merge_sort_Permutation. apply NoDup_remove_dups. Qed.

Lemma elem_of_concat {A} (ls : list (list A)) (x : A) :
  x ∈ concat ls ↔ ∃ l, l ∈ ls ∧ x ∈ l.
Proof.
  rewrite list_elem_of_In, in_concat. split.
  - intros (l & Hl & Hx). exists l. by rewrite !list_elem_of_In.
  - intros (l & Hl & Hx). exists l. by rewrite <- !list_elem_of_In.
Qed.

Lemma cell_dofs_Ok u c dofs :
  cell_dofs u c = Ok dofs ↔ fn_cell_dofs u !! c = Some dofs.
Proof. unfold cell_dofs. destruct (fn_cell_dofs u !! c); split; congruence. Qed.

(** The dofs over which both reductions run. *)
Lemma subd_dofs_spec u subdomains subd_id :
  dofmap_well_formed u subdomains →
  (∃ c, subdomains !! c = Some subd_id) →
  ∃ dofs, subd_dofs u subdomains subd_id = Ok dofs ∧ NoDup dofs ∧ dofs ≠ [] ∧
          ∀ d, d ∈ dofs ↔ marked_dof u subdomains subd_id d.
Proof.
  intros Hwf [c0 Hc0].
  assert (Hall : Forall (λ c, is_Ok (cell_dofs u c)) (SubsetIterator subdomains subd_id)).
  { apply Forall_forall. intros c Hc%elem_of_SubsetIterator.
    destruct (Hwf c) as (dofs & Hd & _); [by eapply lookup_lt_Some|].
    exists dofs. by apply cell_dofs_Ok. }
  destruct (comprehension_total _ _ Hall) as [arrays Harr].
  pose proof Harr as HF. apply comprehension_Ok in HF.
  assert (Hmem : ∀ d, d ∈ concat arrays ↔ marked_dof u subdomains subd_id d).
  { intros d. rewrite elem_of_concat. split.
    - intros (arr & Harr' & Hd).
      apply list_elem_of_lookup in Harr' as [k Hk].
      destruct (Forall2_lookup_r _ _ _ _ _ HF Hk) as (c & Hc & Hcd).
      exists c, arr. split_and!; [|by apply cell_dofs_Ok|done].
      apply elem_of_SubsetIterator. by eapply list_elem_of_lookup_2.
    - intros (c & arr & Hc & Hcd & Hd).
      apply elem_of_SubsetIterator, list_elem_of_lookup in Hc as [k Hk].
      destruct (Forall2_lookup_l _ _ _ _ _ HF Hk) as (arr' & Harr' & Hcd').
      apply cell_dofs_Ok in Hcd'. rewrite Hcd in Hcd'. injection Hcd' as <-.
      exists arr. split; [by eapply list_elem_of_lookup_2 | done]. }
  assert (Hne : ∃ d, d ∈ concat arrays).
  { destruct (Hwf c0) as (dofs & Hd & Hnil & _); [by eapply lookup_lt_Some|].
    destruct dofs as [|d dofs]; [done|]. exists d. apply Hmem.
    exists c0, (d :: dofs). split_and!; [done..|]. apply list_elem_of_here. }
  exists (Np.unique (concat arrays)). split_and!.
  - unfold subd_dofs. rewrite Harr. simpl.
    destruct arrays as [|a arrays]; [|done].
    destruct Hne as [d Hd]. simpl in Hd. by apply elem_of_nil in Hd.
  - apply NoDup_unique.
  - destruct Hne as [d Hd%elem_of_unique].
    intros Heq. rewrite Heq in Hd. by apply elem_of_nil in Hd.
  - intros d. by rewrite elem_of_unique.
Qed.

(** Reading the vector at dofs that index it. *)
Lemma take_indices_spec {A} (a : list A) idx :
  (∀ d, d ∈ idx → (d < length a)%nat) →
  ∃ values, Np.take_indices a idx = Ok values ∧
            Forall2 (λ d v, a !! d = Some v) idx values.
Proof.
  intros Hin.
  assert (Hall : Forall (λ i, is_Ok (index a (Z.of_nat i))) idx).
  { apply Forall_forall. intros d Hd.
    destruct (lookup_lt_is_Some_2 a d (Hin d Hd)) as [v Hv].
    exists v. by apply index_nat_Ok. }
  destruct (comprehension_total _ _ Hall) as [values Hv].
  exists values. split; [done|].
  apply comprehension_Ok in Hv.
  eapply Forall2_impl; [exact Hv|]. intros d v. apply index_nat_Ok.
Qed.

Lemma Forall2_values_elem {A} (a : list A) idx values v :
  Forall2 (λ d v, a !! d = Some v) idx values →
  v ∈ values → ∃ d, d ∈ idx ∧ a !! d = Some v.
Proof.
  intros HF [k Hk]%list_elem_of_lookup.
  destruct (Forall2_lookup_r _ _ _ _ _ HF Hk) as (d & Hd & Hv).
  exists d. split; [by eapply list_elem_of_lookup_2 | done].
Qed.

Lemma Forall2_values_of {A} (a : list A) idx values d v :
  Forall2 (λ d v, a !! d = Some v) idx values →
  d ∈ idx → a !! d = Some v → v ∈ values.
Proof.
  intros HF [k Hk]%list_elem_of_lookup Hv.
  destruct (Forall2_lookup_l _ _ _ _ _ HF Hk) as (v' & Hv' & Hdv).
  rewrite Hv in Hdv. injection Hdv as <-. by eapply list_elem_of_lookup_2.
Qed.

(** The dofs collected by a call that returns are those of the marked
    cells. *)
Lemma subd_dofs_Ok u subdomains subd_id dofs :
  subd_dofs u subdomains subd_id = Ok dofs →
  ∀ d, d ∈ dofs ↔ marked_dof u subdomains subd_id d.
Proof.
  unfold subd_dofs. intros Hrun.
  apply bind_Ok in Hrun as (arrays & HF & Hrun).
  apply bind_Ok in Hrun as (stacked & Hst & Hrun).
  injection Hrun as <-. apply comprehension_Ok in HF.
  assert (stacked = concat arrays) as ->.
  { unfold Np.hstack in Hst. destruct arrays; [done | by injection Hst as <-]. }
  intros d. rewrite elem_of_unique, elem_of_concat. split.
  - intros (arr & Harr' & Hd).
    apply list_elem_of_lookup in Harr' as [k Hk].
    destruct (Forall2_lookup_r _ _ _ _ _ HF Hk) as (c & Hc & Hcd).
    exists c, arr. split_and!; [|by apply cell_dofs_Ok|done].
    apply elem_of_SubsetIterator. by eapply list_elem_of_lookup_2.
  - intros (c & arr & Hc & Hcd & Hd).
    apply elem_of_SubsetIterator, list_elem_of_lookup in Hc as [k Hk].
    destruct (Forall2_lookup_l _ _ _ _ _ HF Hk) as (arr' & Harr' & Hcd').
    apply cell_dofs_Ok in Hcd'. rewrite Hcd in Hcd'. injection Hcd' as <-.
    exists arr. split; [by eapply list_elem_of_lookup_2 | done].
Qed.

Lemma take_indices_Ok {A} (a : list A) idx values :
  Np.take_indices a idx = Ok values → Forall2 (λ d v, a !! d = Some v) idx values.
Proof.
  intros Hv%comprehension_Ok.
  eapply Forall2_impl; [exact Hv|]. intros d v. apply index_nat_Ok.
Qed.

(** What a reduction that returns has computed: its argument is a
    function, and the result is the least (resp. greatest) of its values at
    the dofs of the marked cells. *)
Lemma calculate_minimum_volume_Ok function subdomains subd_id m :
  calculate_minimum_volume function subdomains subd_id = Ok m →
  ∃ u dofs,
    function = Fn u ∧
    (∀ d, d ∈ dofs ↔ marked_dof u subdomains subd_id d) ∧
    is_minimum_over u dofs m.
Proof.
  unfold calculate_minimum_volume. intros Hrun.
  apply bind_Ok in Hrun as (u & Hu & Hrun).
  apply bind_Ok in Hrun as (dofs & Hdofs & Hrun).
  apply bind_Ok in Hrun as (values & Hvals%take_indices_Ok & Hrun).
  destruct function as [u'| | | | | | | | | |]; try done. injection Hu as ->.
  destruct values as [|v vs]; [done|]. injection Hrun as <-.
  exists u, dofs. split_and!; [done | by apply subd_dofs_Ok |].
  split.
  - eapply Forall2_values_elem; [exact Hvals | apply foldl_Qmin_elem].
  - intros d w Hd Hw. apply foldl_Qmin_lower. by eapply Forall2_values_of.
Qed.

Lemma calculate_maximum_volume_Ok function subdomains subd_id M :
  calculate_maximum_volume function subdomains subd_id = Ok M →
  ∃ u dofs,
    function = Fn u ∧
    (∀ d, d ∈ dofs ↔ marked_dof u subdomains subd_id d) ∧
    is_maximum_over u dofs M.
Proof.
  unfold calculate_maximum_volume. intros Hrun.
  apply bind_Ok in Hrun as (u & Hu & Hrun).
  apply bind_Ok in Hrun as (dofs & Hdofs & Hrun).
  apply bind_Ok in Hrun as (values & Hvals%take_indices_Ok & Hrun).
  destruct function as [u'| | | | | | | | | |]; try done. injection Hu as ->.
  destruct values as [|v vs]; [done|]. injection Hrun as <-.
  exists u, dofs. split_and!; [done | by apply subd_dofs_Ok |].
  split.
  - eapply Forall2_values_elem; [exact Hvals | apply foldl_Qmax_elem].
  - intros d w Hd Hw. apply foldl_Qmax_upper. by eapply Forall2_values_of.
Qed.

(** C4. When at least one cell carries [subd_id], [calculate_maximum_volume]
    returns the greatest and [calculate_minimum_volume] the least of the
    values of the function at the dofs of the cells marked [subd_id], these
    dofs being collected without repetition. *)
Theorem calculate_volume_extrema u subdomains subd_id :
  dofmap_well_formed u subdomains →
  (∃ c, subdomains !! c = Some subd_id) →
  ∃ dofs M m,
    subd_dofs u subdomains subd_id = Ok dofs ∧
    NoDup dofs ∧
    (∀ d, d ∈ dofs ↔ marked_dof u subdomains subd_id d) ∧
    calculate_maximum_volume (Fn u) subdomains subd_id = Ok M ∧
    is_maximum_over u dofs M ∧
    calculate_minimum_volume (Fn u) subdomains subd_id = Ok m ∧
    is_minimum_over u dofs m.
Proof.
  intros Hwf Hcell.
  destruct (subd_dofs_spec u subdomains subd_id Hwf Hcell)
    as (dofs & Hdofs & Hnodup & Hne & Hmem).
  destruct (take_indices_spec (fn_vector u) dofs) as (values & Hvals & HF).
  { intros d (c & cd & Hc & Hcd & Hd)%Hmem.
    destruct (Hwf c) as (cd' & Hcd' & _ & Hrange); [by eapply lookup_lt_Some|].
    rewrite Hcd in Hcd'. injection Hcd' as <-. by apply Hrange. }
  destruct values as [|v vs].
  { apply Forall2_nil_inv_r in HF. done. }
  exists dofs, (foldl Qmax v vs), (foldl Qmin v vs). split_and!; try done.
  - unfold calculate_maximum_volume. simpl. rewrite Hdofs. simpl. by rewrite Hvals.
  - split.
    + eapply Forall2_values_elem; [exact HF | apply foldl_Qmax_elem].
    + intros d w Hd Hw. apply foldl_Qmax_upper. by eapply Forall2_values_of.
  - unfold calculate_minimum_volume. simpl. rewrite Hdofs. simpl. by rewrite Hvals.
  - split.
    + eapply Forall2_values_elem; [exact HF | apply foldl_Qmin_elem].
    + intros d w Hd Hw. apply foldl_Qmin_lower. by eapply Forall2_values_of.
Qed.

Lemma calculate_volume_extrema_witness :
  dofmap_well_formed two_cell_function [1; 2] ∧
  (∃ c : nat, [1; 2] !! c = Some 1) ∧
  ∃ dofs M m,
    subd_dofs two_cell_function [1; 2] 1 = Ok dofs ∧
    NoDup dofs ∧
    (∀ d, d ∈ dofs ↔ marked_dof two_cell_function [1; 2] 1 d) ∧
    calculate_maximum_volume (Fn two_cell_function) [1; 2] 1 = Ok M ∧
    is_maximum_over two_cell_function dofs M ∧
    calculate_minimum_volume (Fn two_cell_function) [1; 2] 1 = Ok m ∧
    is_minimum_over two_cell_function dofs m.
Proof.
  assert (Hwf : dofmap_well_formed two_cell_function [1; 2]).
  { intros c Hc. simpl in Hc.
    destruct c as [|[|c]]; [| |lia].
    - exists [0; 1]%nat. split_and!; [done..|].
      intros d Hd. simpl. rewrite !elem_of_cons in Hd.
      destruct Hd as [->|[->|Hd%elem_of_nil]]; [lia|lia|done].
    - exists [1; 2]%nat. split_and!; [done..|].
      intros d Hd. simpl. rewrite !elem_of_cons in Hd.
      destruct Hd as [->|[->|Hd%elem_of_nil]]; [lia|lia|done]. }
  assert (Hc : ∃ c : nat, [1; 2] !! c = Some 1) by (exists 0%nat; reflexivity).
  split; [exact Hwf|]. split; [exact Hc|].
  exact (calculate_volume_extrema two_cell_function [1; 2] 1 Hwf Hc).
Defined.

End ExtremaFacts.

(** ** The loops of [header_derived_quantities] and [derived_quantities] *)

Module DerivedFacts.
Import Ufl PostProcessing PostProcessingSpec PyFacts Examples.

Lemma required_Ok {A} (o : option A) a : required o = Ok a ↔ o = Some a.
Proof. destruct o; simpl; split; congruence. Qed.

Lemma for_ext {A S} (l : list A) (body body' : A → S → result S) s :
  (∀ x s, body x s = body' x s) → for_ l body s = for_ l body' s.
Proof.
  intros Hext. revert s. induction l as [|x l IH]; intros s; simpl; [done|].
  rewrite Hext. destruct (body' x s); simpl; [apply IH | done].
Qed.

(** An inner loop appends one value per identifier. *)
Lemma inner_loop {A B} (g : A → result B) idl tab0 tab1 :
  for_ idl (λ i tab, v ← g i; Ok (tab ++ [v])) tab0 = Ok tab1 ↔
  ∃ vals, Forall2 (λ i v, g i = Ok v) idl vals ∧ tab1 = tab0 ++ vals.
Proof.
  revert tab0. induction idl as [|i idl IH]; intros tab0; simpl.
  - split.
    + intros [= <-]. exists []. split; [constructor | by rewrite app_nil_r].
    + intros (vals & ->%Forall2_nil_inv_l & ->). by rewrite app_nil_r.
  - rewrite bind_Ok. split.
    + intros (tab & (v & Hv & [= <-])%bind_Ok & (vals & HF & ->)%IH).
      exists (v :: vals). split; [by constructor | by rewrite <- app_assoc].
    + intros (vals & HF & ->). inversion HF as [|? v ? vs Hv HF']; subst.
      exists (tab0 ++ [v]). split; [by rewrite Hv|].
      apply IH. exists vs. split; [done | by rewrite <- app_assoc].
Qed.

(** An outer loop whose body only appends: the appended values follow the
    requests of the entries, in order. *)
Lemma outer_loop {E B R} (reqs : E → list R) (P : R → B → Prop)
    (body : E → list B → result (list B)) entries tab0 tab1 :
  (∀ e tab tab', body e tab = Ok tab' →
     ∃ vals, tab' = tab ++ vals ∧ Forall2 P (reqs e) vals) →
  for_ entries body tab0 = Ok tab1 →
  ∃ vals, tab1 = tab0 ++ vals ∧ Forall2 P (flat_map reqs entries) vals.
Proof.
  intros Hbody. revert tab0. induction entries as [|e entries IH]; intros tab0; simpl.
  - intros [= <-]. exists []. split; [by rewrite app_nil_r | constructor].
  - intros (tab & (v1 & -> & HF1)%Hbody & (v2 & -> & HF2)%IH)%bind_Ok.
    exists (v1 ++ v2). split; [by rewrite app_assoc | by apply Forall2_app].
Qed.

Lemma for_quantity_loop {B} (P : request → B → Prop) d q
    (body : entry → list B → result (list B)) tab0 tab1 :
  (∀ e tab tab', body e tab = Ok tab' →
     ∃ vals, tab' = tab ++ vals ∧ Forall2 P (entry_requests q e) vals) →
  for_quantity d (quantity_key q) body tab0 = Ok tab1 →
  ∃ vals, tab1 = tab0 ++ vals ∧ Forall2 P (quantity_requests d q) vals.
Proof.
  intros Hbody. unfold for_quantity, quantity_requests.
  destruct (d !! quantity_key q) as [[l|]|]; simpl.
  - by apply outer_loop.
  - intros [=].
  - intros [= <-]. exists []. split; [by rewrite app_nil_r | constructor].
Qed.

(** The body shared by most blocks: look the entry up, then one value per
    identifier. *)
Lemma entry_body {B} (P : request → B → Prop) q (e : entry)
    (g : field_key → Z → result B) idl fld tab tab' :
  quantity_ids q e = Some idl →
  e_field e = Some fld →
  (∀ i v, g fld i = Ok v → P (mkRequest q fld i) v) →
  for_ idl (λ i tab, v ← g fld i; Ok (tab ++ [v])) tab = Ok tab' →
  ∃ vals, tab' = tab ++ vals ∧ Forall2 P (entry_requests q e) vals.
Proof.
  intros Hids Hfld HP (vals & HF & ->)%inner_loop.
  exists vals. split; [done|].
  unfold entry_requests. rewrite Hids, Hfld.
  apply Forall2_fmap_l. eapply Forall2_impl; [exact HF|]. intros i v. apply HP.
Qed.

Ltac bind_step H x Hx := apply bind_Ok in H as (x & Hx & H).

Section WithBackend.
Context `{Backend}.

(** The values of [derived_quantities] follow the requests, one value per
    request, each computed as [request_value] says. *)
Lemma derived_quantities_requests parameters solutions markers properties exports d tab :
  par_exports parameters = Some exports →
  exp_derived_quantities exports = Some d →
  derived_quantities parameters solutions markers properties = Ok tab →
  ∃ cx, context_of parameters solutions markers properties = Ok cx ∧
        Forall2 (λ r v, request_value cx r = Ok v) (requests d) tab.
Proof.
  intros Hexp Hd Hrun. unfold derived_quantities in Hrun.
  bind_step Hrun D HD. bind_step Hrun thermal_cond Htc.
  bind_step Hrun sq Hsq. destruct sq as [soret Q_soret].
  bind_step Hrun vm Hvm. bind_step Hrun sm Hsm.
  bind_step Hrun T HT. bind_step Hrun fts Hfts.
  rewrite Hexp in Hrun. simpl in Hrun. rewrite Hd in Hrun. simpl in Hrun.
  set (cx := mkContext soret Q_soret T vm sm fts (field_to_prop D thermal_cond) solutions).
  exists cx. split.
  { unfold context_of. rewrite HD. simpl. rewrite Htc. simpl. rewrite Hsq. simpl.
    rewrite Hvm. simpl. rewrite Hsm. simpl. rewrite HT. simpl. by rewrite Hfts. }
  bind_step Hrun t1 H1. bind_step Hrun t2 H2. bind_step Hrun t3 H3.
  bind_step Hrun t4 H4. bind_step Hrun t5 H5.
  apply (for_quantity_loop (λ r v, request_value cx r = Ok v) d SurfaceFlux) in H1
    as (v1 & -> & F1).
  2:{ intros e tab0 tab0' Hb.
      bind_step Hb fld Hfld. bind_step Hb sol Hsol. bind_step Hb prop Hprop.
      bind_step Hb idl Hidl. apply required_Ok in Hfld, Hidl.
      eapply (entry_body _ SurfaceFlux e
                (λ fld i, surface_flux_value soret Q_soret T sm (str_field fld) sol prop i));
        [exact Hidl | exact Hfld | | exact Hb].
      intros i v Hv. unfold request_value. simpl. rewrite Hsol. simpl.
      rewrite Hprop. simpl. exact Hv. }
  apply (for_quantity_loop (λ r v, request_value cx r = Ok v) d AverageVolume) in H2
    as (v2 & -> & F2).
  2:{ intros e tab0 tab0' Hb.
      bind_step Hb fld Hfld. bind_step Hb sol Hsol.
      bind_step Hb idl Hidl. apply required_Ok in Hfld, Hidl.
      eapply (entry_body _ AverageVolume e
                (λ fld vol, truediv (assemble (Integral sol (dx vm vol)))
                              (assemble (Integral (IntValue 1) (dx vm vol)))));
        [exact Hidl | exact Hfld | | exact Hb].
      intros i v Hv. unfold request_value. simpl. rewrite Hsol. simpl. exact Hv. }
  apply (for_quantity_loop (λ r v, request_value cx r = Ok v) d MinimumVolume) in H3
    as (v3 & -> & F3).
  2:{ intros e tab0 tab0' Hb.
      bind_step Hb fld Hfld. apply required_Ok in Hfld.
      destruct (bool_decide (str_field fld = "retention")) eqn:Hret.
      - bind_step Hb idl Hidl. apply required_Ok in Hidl.
        eapply (entry_body _ MinimumVolume e
                  (λ fld vol, sum_of_minima (slice_to_end_minus solutions 2) vm vol));
          [exact Hidl | exact Hfld | | exact Hb].
        intros i v Hv. unfold request_value. simpl. rewrite Hret. exact Hv.
      - bind_step Hb sol Hsol. bind_step Hb idl Hidl. apply required_Ok in Hidl.
        eapply (entry_body _ MinimumVolume e
                  (λ fld vol, calculate_minimum_volume sol vm vol));
          [exact Hidl | exact Hfld | | exact Hb].
        intros i v Hv. unfold request_value. simpl. rewrite Hret, Hsol. exact Hv. }
  apply (for_quantity_loop (λ r v, request_value cx r = Ok v) d MaximumVolume) in H4
    as (v4 & -> & F4).
  2:{ intros e tab0 tab0' Hb.
      bind_step Hb fld Hfld. apply required_Ok in Hfld.
      destruct (bool_decide (str_field fld = "retention")) eqn:Hret.
      - bind_step Hb idl Hidl. apply required_Ok in Hidl.
        eapply (entry_body _ MaximumVolume e
                  (λ fld vol, sum_of_maxima (slice_to_end_minus solutions 2) vm vol));
          [exact Hidl | exact Hfld | | exact Hb].
        intros i v Hv. unfold request_value. simpl. rewrite Hret. exact Hv.
      - bind_step Hb sol Hsol. bind_step Hb idl Hidl. apply required_Ok in Hidl.
        eapply (entry_body _ MaximumVolume e
                  (λ fld vol, calculate_maximum_volume sol vm vol));
          [exact Hidl | exact Hfld | | exact Hb].
        intros i v Hv. unfold request_value. simpl. rewrite Hret, Hsol. exact Hv. }
  apply (for_quantity_loop (λ r v, request_value cx r = Ok v) d TotalVolume) in H5
    as (v5 & -> & F5).
  2:{ intros e tab0 tab0' Hb.
      bind_step Hb fld Hfld. bind_step Hb sol Hsol.
      bind_step Hb idl Hidl. apply required_Ok in Hfld, Hidl.
      eapply (entry_body _ TotalVolume e
                (λ fld vol, Ok (assemble (Integral sol (dx vm vol)))));
        [exact Hidl | exact Hfld | | exact Hb].
      intros i v Hv. unfold request_value. simpl. rewrite Hsol. exact Hv. }
  apply (for_quantity_loop (λ r v, request_value cx r = Ok v) d TotalSurface) in Hrun
    as (v6 & -> & F6).
  2:{ intros e tab0 tab0' Hb.
      bind_step Hb fld Hfld. bind_step Hb sol Hsol.
      bind_step Hb idl Hidl. apply required_Ok in Hfld, Hidl.
      eapply (entry_body _ TotalSurface e
                (λ fld surf, Ok (assemble (Integral sol (ds sm surf)))));
        [exact Hidl | exact Hfld | | exact Hb].
      intros i v Hv. unfold request_value. simpl. rewrite Hsol. exact Hv. }
  unfold requests, quantities. simpl. rewrite app_nil_r, <- !app_assoc.
  repeat apply Forall2_app; done.
Qed.

Lemma Forall2_eq_map {A B} (f : A → B) l vals :
  Forall2 (λ r v, v = f r) l vals → vals = map f l.
Proof. induction 1; simpl; congruence. Qed.

(** One block of the header appends the labels of the requests of its
    quantity. *)
Lemma header_block_labels d q (text : Z → string → string) header header' :
  (∀ f i, text i (str_field f) = request_label (mkRequest q f i)) →
  header_block d (quantity_key q) (quantity_ids q) text header = Ok header' →
  header' = header ++ map request_label (quantity_requests d q).
Proof.
  intros Htext. unfold header_block, quantity_requests.
  destruct (d !! quantity_key q) as [[l|]|]; simpl.
  - intros Hloop.
    apply (outer_loop (entry_requests q) (λ r v, v = request_label r)) in Hloop
      as (vals & -> & HF).
    { by rewrite (Forall2_eq_map _ _ _ HF). }
    intros e tab tab' Hb. bind_step Hb idl Hidl. apply required_Ok in Hidl.
    unfold entry_requests. rewrite Hidl.
    destruct (e_field e) as [fld|]; simpl in Hb.
    + apply (inner_loop (λ i, Ok (text i (str_field fld)))) in Hb as (vals & HF & ->).
      exists vals. split; [done|]. apply Forall2_fmap_l.
      eapply Forall2_impl; [exact HF|]. simpl. intros i v [= <-]. apply Htext.
    + destruct idl as [|i idl]; simpl in Hb; [|done].
      injection Hb as <-. exists []. split; [by rewrite app_nil_r | constructor].
  - intros [=].
  - intros [= <-]. by rewrite app_nil_r.
Qed.

(** The header is the time column followed by the labels of the requests. *)
Lemma header_requests simulation exports d header :
  par_exports (sim_parameters simulation) = Some exports →
  exp_derived_quantities exports = Some d →
  header_derived_quantities simulation = Ok header →
  header = "t(s)" :: map request_label (requests d).
Proof.
  intros Hexp Hd. unfold header_derived_quantities. rewrite Hexp, Hd.
  intros Hh. bind_step Hh u Hcheck.
  bind_step Hh h1 H1. bind_step Hh h2 H2. bind_step Hh h3 H3.
  bind_step Hh h4 H4. bind_step Hh h5 H5.
  apply (header_block_labels d SurfaceFlux) in H1 as ->; [|done].
  apply (header_block_labels d AverageVolume) in H2 as ->; [|done].
  apply (header_block_labels d MinimumVolume) in H3 as ->; [|done].
  apply (header_block_labels d MaximumVolume) in H4 as ->; [|done].
  apply (header_block_labels d TotalVolume) in H5 as ->; [|done].
  apply (header_block_labels d TotalSurface) in Hh as ->; [|done].
  unfold requests, quantities. simpl.
  rewrite app_nil_r, !map_app, <- !app_assoc. done.
Qed.

(** What one post-processing step does to the list of rows. *)
Lemma run_post_processing_rows simulation simulation' rows dt :
  run_post_processing simulation = Ok (simulation', (rows, dt)) →
  ∃ exports res,
    par_exports (sim_parameters simulation) = Some exports ∧
    solutions_list simulation = Ok res ∧
    sim_derived_quantities_global simulation' = rows ∧
    match exp_derived_quantities exports with
    | Some _ =>
        ∃ r, mod_ (sim_nb_iterations simulation)
                  (sim_nb_iterations_between_compute_derived_quantities simulation) = Ok r ∧
             if bool_decide (r = 0) then
               ∃ tab,
                 derived_quantities (sim_parameters simulation) res
                   [sim_volume_markers simulation; sim_surface_markers simulation]
                   [sim_D simulation; sim_thermal_cond simulation; sim_H simulation]
                 = Ok tab ∧
                 rows = sim_derived_quantities_global simulation ++ [sim_t simulation :: tab]
             else rows = sim_derived_quantities_global simulation
    | None => rows = sim_derived_quantities_global simulation
    end.
Proof.
  unfold run_post_processing. intros Hrun.
  bind_step Hrun ltf Hltf. bind_step Hrun res Hres.
  bind_step Hrun exports Hexp. apply required_Ok in Hexp.
  bind_step Hrun dqio Hdq. destruct dqio as [rows' io].
  bind_step Hrun st Hloop. destruct st as [[ltf' seen] io'].
  bind_step Hrun dtio Htxt. destruct dtio as [dt' io''].
  injection Hrun as <- <- <-. simpl.
  exists exports, res. split_and!; [done..|].
  destruct (exp_derived_quantities exports) as [d|].
  - bind_step Hdq r Hr. bind_step Hdq rows'' Hrows. bind_step Hdq b Hb.
    assert (rows'' = rows') as ->.
    { destruct b; [bind_step Hdq u Hu|]; by injection Hdq as <- _. }
    exists r. split; [done|].
    destruct (bool_decide (r = 0)).
    + bind_step Hrows tab Htab. injection Hrows as <-. by exists tab.
    + by injection Hrows as <-.
  - by injection Hdq as <- _.
Qed.

Lemma context_of_fields parameters solutions markers properties cx :
  context_of parameters solutions markers properties = Ok cx →
  field_to_sol solutions = Ok (cx_field_to_sol cx) ∧
  index markers 0 = Ok (cx_volume_markers cx) ∧
  cx_solutions cx = solutions.
Proof.
  unfold context_of. intros Hcx.
  bind_step Hcx D HD. bind_step Hcx thermal_cond Htc.
  bind_step Hcx sq Hsq. destruct sq as [soret Q_soret].
  bind_step Hcx vm Hvm. bind_step Hcx sm Hsm.
  bind_step Hcx T HT. bind_step Hcx fts Hfts.
  injection Hcx as <-. done.
Qed.

(** C2. The header is ['t(s)'] followed by one label per requested
    (quantity, surface-or-volume) pair, the quantities being taken in the
    order surface_flux, average_volume, minimum_volume, maximum_volume,
    total_volume, total_surface; every row that [run_post_processing]
    records is the time followed by one value per request in the same order,
    so it is as long as the header and its value number i is the one of the
    request labelled by header column i+1. *)
Theorem header_matches_rows simulation exports d header simulation' rows dt :
  par_exports (sim_parameters simulation) = Some exports →
  exp_derived_quantities exports = Some d →
  header_derived_quantities simulation = Ok header →
  run_post_processing simulation = Ok (simulation', (rows, dt)) →
  header = "t(s)" :: map request_label (requests d) ∧
  ∃ new_rows,
    rows = sim_derived_quantities_global simulation ++ new_rows ∧
    ∀ row, row ∈ new_rows →
      length row = length header ∧
      ∃ res cx tab,
        solutions_list simulation = Ok res ∧
        context_of (sim_parameters simulation) res
          [sim_volume_markers simulation; sim_surface_markers simulation]
          [sim_D simulation; sim_thermal_cond simulation; sim_H simulation] = Ok cx ∧
        row = sim_t simulation :: tab ∧
        Forall2 (λ r v, request_value cx r = Ok v) (requests d) tab.
Proof.
  intros Hexp Hd Hheader Hrun.
  pose proof (header_requests _ _ _ _ Hexp Hd Hheader) as ->.
  split; [done|].
  apply run_post_processing_rows in Hrun as (exports' & res & Hexp' & Hres & _ & Hrows).
  rewrite Hexp in Hexp'. injection Hexp' as <-. rewrite Hd in Hrows.
  destruct Hrows as (r & Hr & Hrows). destruct (bool_decide (r = 0)).
  - destruct Hrows as (tab & Htab & ->).
    exists [sim_t simulation :: tab]. split; [done|].
    intros row ->%list_elem_of_singleton.
    destruct (derived_quantities_requests _ _ _ _ _ _ _ Hexp Hd Htab) as (cx & Hcx & HF).
    split.
    + simpl. rewrite length_map. f_equal. symmetry. by eapply Forall2_length.
    + by exists res, cx, tab.
  - exists []. split; [by rewrite app_nil_r|]. by intros row ?%elem_of_nil.
Qed.

End WithBackend.

Lemma header_matches_rows_witness :
  ∃ simulation' rows dt,
    run_post_processing (H := example_backend) (example_simulation 4)
      = Ok (simulation', (rows, dt)) ∧
    ∃ new_rows,
      rows = sim_derived_quantities_global (example_simulation 4) ++ new_rows ∧
      ∀ row, row ∈ new_rows → length row = 5%nat.
Proof.
  destruct (run_post_processing (H := example_backend) (example_simulation 4))
    as [[simulation' [rows dt]]|e] eqn:Hrun; [|by vm_compute in Hrun].
  exists simulation', rows, dt. split; [done|].
  destruct (header_matches_rows (H := example_backend) (example_simulation 4)
              (mkExports (Some example_dict) None) example_dict
              ["t(s)"; "Flux surface 1: solute"; "Flux surface 2: solute";
               "Average solute volume 1"; "Total 1 volume 1"]
              simulation' rows dt) as (_ & new_rows & Hrows & Hnew).
  - reflexivity.
  - reflexivity.
  - vm_compute. reflexivity.
  - exact Hrun.
  - exists new_rows. split; [exact Hrows|].
    intros row Hrow. by destruct (Hnew row Hrow) as [-> _].
Defined.

Section Values.
Context `{Backend}.

Lemma truediv_Ok x y v :
  truediv x y = Ok v ↔ ¬ (y == 0)%Q ∧ v = (x / y)%Q.
Proof.
  unfold truediv. destruct (Qeq_bool y 0) eqn:Hy.
  - apply Qeq_bool_iff in Hy. split; [done | by intros [? _]].
  - apply Qeq_bool_neq in Hy. split; [by intros [= <-] | by intros [_ ->]].
Qed.

(** C5. The value recorded for an average_volume request with field [fld]
    and volume [vol] is [assemble(sol*dx(vol)) / assemble(1*dx(vol))], where
    [sol] is the solution registered under the name of the field and [dx]
    the cell measure whose subdomain data are the volume markers
    ([markers[0]]): the integral of the field over the cells marked [vol]
    divided by the measure of that subdomain. *)
Theorem average_volume_value parameters solutions markers properties exports d tab i fld vol :
  par_exports parameters = Some exports →
  exp_derived_quantities exports = Some d →
  derived_quantities parameters solutions markers properties = Ok tab →
  requests d !! i = Some (mkRequest AverageVolume fld vol) →
  ∃ fts sol volume_markers,
    field_to_sol solutions = Ok fts ∧
    fts !! str_field fld = Some sol ∧
    index markers 0 = Ok volume_markers ∧
    ¬ (assemble (Integral (IntValue 1) (mkMeasure Mdx volume_markers vol)) == 0)%Q ∧
    tab !! i = Some (assemble (Integral sol (mkMeasure Mdx volume_markers vol)) /
                     assemble (Integral (IntValue 1) (mkMeasure Mdx volume_markers vol)))%Q.
Proof.
  intros Hexp Hd Hrun Hreq.
  destruct (derived_quantities_requests _ _ _ _ _ _ _ Hexp Hd Hrun) as (cx & Hcx & HF).
  destruct (Forall2_lookup_l _ _ _ _ _ HF Hreq) as (v & Hv & Hval).
  apply context_of_fields in Hcx as (Hfts & Hvm & _).
  unfold request_value in Hval. simpl in Hval.
  bind_step Hval sol Hsol. apply truediv_Ok in Hval as [Hnz ->].
  exists (cx_field_to_sol cx), sol, (cx_volume_markers cx). split_and!; try done.
  unfold getitem in Hsol. destruct (cx_field_to_sol cx !! str_field fld); congruence.
Qed.

(** A loop that adds one number per element to an accumulator. *)
Lemma accumulate_loop {A} (g : A → result Q) l a v :
  for_ l (λ x val, m ← g x; Ok (val + m)%Q) a = Ok v ↔
  ∃ ms, Forall2 (λ x m, g x = Ok m) l ms ∧ v = foldl Qplus a ms.
Proof.
  revert a. induction l as [|x l IH]; intros a; simpl.
  - split.
    + intros [= <-]. exists []. split; [constructor | done].
    + by intros (ms & ->%Forall2_nil_inv_l & ->).
  - rewrite bind_Ok. split.
    + intros (a' & (m & Hm & [= <-])%bind_Ok & (ms & HF & ->)%IH).
      exists (m :: ms). split; [by constructor | done].
    + intros (ms & HF & ->). inversion HF as [|? m ? ms' Hm HF']; subst.
      exists (a + m)%Q. split; [by rewrite Hm|]. apply IH. by exists ms'.
Qed.

Lemma Forall2_functions (P : expr → Q → Prop) (R : Function → Q → Prop) fs ms :
  (∀ f m, P f m → ∃ u, f = Fn u ∧ R u m) →
  Forall2 P fs ms → ∃ us, fs = map Fn us ∧ Forall2 R us ms.
Proof.
  intros HPR. induction 1 as [|f m fs ms Hfm _ (us & -> & IH)].
  - by exists [].
  - destruct (HPR f m Hfm) as (u & -> & Hu). exists (u :: us). split; [done|].
    by constructor.
Qed.

(** C3, as the code has it. The value reported for a minimum_volume (resp.
    maximum_volume) request with field 'retention' is the sum, over the
    mobile and the trapped concentrations ([solutions[0:-2]], which are
    functions), of the least (resp. greatest) value of each of these fields
    over the dofs of the cells marked with the volume id, each extremum being
    attained at one of these dofs. *)
Theorem retention_extrema_value parameters solutions markers properties exports d tab i q fld vol :
  par_exports parameters = Some exports →
  exp_derived_quantities exports = Some d →
  derived_quantities parameters solutions markers properties = Ok tab →
  requests d !! i = Some (mkRequest q fld vol) →
  str_field fld = "retention" →
  ∃ volume_markers,
    index markers 0 = Ok volume_markers ∧
    (q = MinimumVolume →
     ∃ us minima,
       slice_to_end_minus solutions 2 = map Fn us ∧
       Forall2 (λ u m,
                  calculate_minimum_volume (Fn u) volume_markers vol = Ok m ∧
                  ∃ dofs, (∀ dof, dof ∈ dofs ↔ marked_dof u volume_markers vol dof) ∧
                          is_minimum_over u dofs m)
               us minima ∧
       tab !! i = Some (foldl Qplus 0%Q minima)) ∧
    (q = MaximumVolume →
     ∃ us maxima,
       slice_to_end_minus solutions 2 = map Fn us ∧
       Forall2 (λ u M,
                  calculate_maximum_volume (Fn u) volume_markers vol = Ok M ∧
                  ∃ dofs, (∀ dof, dof ∈ dofs ↔ marked_dof u volume_markers vol dof) ∧
                          is_maximum_over u dofs M)
               us maxima ∧
       tab !! i = Some (foldl Qplus 0%Q maxima)).
Proof.
  intros Hexp Hd Hrun Hreq Hret.
  destruct (derived_quantities_requests _ _ _ _ _ _ _ Hexp Hd Hrun) as (cx & Hcx & HF).
  destruct (Forall2_lookup_l _ _ _ _ _ HF Hreq) as (v & Hv & Hval).
  apply context_of_fields in Hcx as (_ & Hvm & Hsols).
  exists (cx_volume_markers cx). split; [done|].
  unfold request_value in Hval. simpl in Hval.
  rewrite Hret, Hsols in Hval. simpl in Hval.
  split; intros ->.
  - apply accumulate_loop in Hval as (ms & HFm & ->).
    apply (Forall2_functions _
             (λ u m, calculate_minimum_volume (Fn u) (cx_volume_markers cx) vol = Ok m ∧
                     ∃ dofs, (∀ dof, dof ∈ dofs ↔
                                     marked_dof u (cx_volume_markers cx) vol dof) ∧
                             is_minimum_over u dofs m)) in HFm as (us & Hus & HFu).
    + by exists us, ms.
    + intros f m Hm.
      destruct (ExtremaFacts.calculate_minimum_volume_Ok _ _ _ _ Hm) as (u & dofs & -> & Hdofs & Hmin).
      exists u. split_and!; [done..|]. by exists dofs.
  - apply accumulate_loop in Hval as (ms & HFm & ->).
    apply (Forall2_functions _
             (λ u M, calculate_maximum_volume (Fn u) (cx_volume_markers cx) vol = Ok M ∧
                     ∃ dofs, (∀ dof, dof ∈ dofs ↔
                                     marked_dof u (cx_volume_markers cx) vol dof) ∧
                             is_maximum_over u dofs M)) in HFm as (us & Hus & HFu).
    + by exists us, ms.
    + intros f M HM.
      destruct (ExtremaFacts.calculate_maximum_volume_Ok _ _ _ _ HM) as (u & dofs & -> & Hdofs & Hmax).
      exists u. split_and!; [done..|]. by exists dofs.
Qed.

(** C8. When derived quantities are requested, [run_post_processing] appends
    exactly one row, the time followed by the derived quantities, when
    [nb_iterations] is a multiple of
    [nb_iterations_between_compute_derived_quantities], and no row otherwise;
    the rows already there stay as they are, in place, and the list held by
    the simulation is the one returned first. *)
Theorem run_post_processing_appends simulation simulation' rows dt exports d :
  par_exports (sim_parameters simulation) = Some exports →
  exp_derived_quantities exports = Some d →
  run_post_processing simulation = Ok (simulation', (rows, dt)) →
  sim_derived_quantities_global simulation' = rows ∧
  ((sim_nb_iterations simulation
      `mod` sim_nb_iterations_between_compute_derived_quantities simulation = 0 ∧
    ∃ res tab,
      solutions_list simulation = Ok res ∧
      derived_quantities (sim_parameters simulation) res
        [sim_volume_markers simulation; sim_surface_markers simulation]
        [sim_D simulation; sim_thermal_cond simulation; sim_H simulation] = Ok tab ∧
      rows = sim_derived_quantities_global simulation ++ [sim_t simulation :: tab])
   ∨
   (sim_nb_iterations simulation
      `mod` sim_nb_iterations_between_compute_derived_quantities simulation ≠ 0 ∧
    rows = sim_derived_quantities_global simulation)).
Proof.
  intros Hexp Hd Hrun.
  apply run_post_processing_rows in Hrun as (exports' & res & Hexp' & Hres & Hsim & Hrows).
  rewrite Hexp in Hexp'. injection Hexp' as <-. rewrite Hd in Hrows.
  split; [done|].
  destruct Hrows as (r & Hr & Hrows).
  unfold mod_ in Hr. destruct (decide _) as [|Hnz]; [done|]. injection Hr as <-.
  case_bool_decide as Hdiv.
  - left. split; [done|]. destruct Hrows as (tab & Htab & ->). by exists res, tab.
  - by right.
Qed.

End Values.
Lemma average_volume_value_witness :
  ∃ tab,
    derived_quantities (H := measuring_backend) example_parameters example_solutions
      [[1; 2; 1]; [1; 2]] [Some (UserExpression "D"); None; None] = Ok tab ∧
    ¬ (assemble (Backend := measuring_backend)
         (Integral (IntValue 1) (mkMeasure Mdx [1; 2; 1]%Z 1%Z)) == 0)%Q ∧
    tab !! 2%nat =
      Some (assemble (Backend := measuring_backend)
              (Integral (Fn mobile) (mkMeasure Mdx [1; 2; 1]%Z 1%Z)) /
            assemble (Backend := measuring_backend)
              (Integral (IntValue 1) (mkMeasure Mdx [1; 2; 1]%Z 1%Z)))%Q ∧
    tab !! 2%nat = Some ((2 # 1) * (1 # 1) / ((2 # 1) * (1 # 1)))%Q.
Proof.
  destruct (derived_quantities (H := measuring_backend) example_parameters
              example_solutions [[1; 2; 1]; [1; 2]] [Some (UserExpression "D"); None; None])
    as [tab|e] eqn:Hrun; [|by vm_compute in Hrun].
  exists tab. split; [done|].
  destruct (average_volume_value (H := measuring_backend) example_parameters
              example_solutions [[1; 2; 1]; [1; 2]] [Some (UserExpression "D"); None; None]
              (mkExports (Some example_dict) None) example_dict tab 2
              (FieldStr "solute") 1 eq_refl eq_refl Hrun)
    as (fts & sol & vm & Hfts & Hsol & Hvm & Hnz & Htab).
  { vm_compute. reflexivity. }
  injection Hvm as <-.
  assert (sol = Fn mobile) as ->.
  { vm_compute in Hfts. injection Hfts as <-. vm_compute in Hsol.
    injection Hsol as <-. reflexivity. }
  split_and!; [exact Hnz | exact Htab |].
  rewrite Htab. vm_compute. reflexivity.
Defined.

Lemma retention_extrema_value_witness :
  ∃ tab minima,
    derived_quantities (H := example_backend) retention_extrema_parameters
      example_solutions [[1]; [1; 2]] [None; None; None] = Ok tab ∧
    Forall2 (λ u m,
               calculate_minimum_volume (Fn u) [1] 1 = Ok m ∧
               ∃ dofs, (∀ dof, dof ∈ dofs ↔ marked_dof u [1] 1 dof) ∧
                       is_minimum_over u dofs m)
            [mobile; trapped] minima ∧
    tab !! 0%nat = Some (foldl Qplus 0%Q minima).
Proof.
  destruct (derived_quantities (H := example_backend) retention_extrema_parameters
              example_solutions [[1]; [1; 2]] [None; None; None])
    as [tab|e] eqn:Hrun; [|by vm_compute in Hrun].
  destruct (retention_extrema_value (H := example_backend) retention_extrema_parameters
              example_solutions [[1]; [1; 2]] [None; None; None]
              (mkExports (Some retention_extrema_dict) None) retention_extrema_dict tab 0
              MinimumVolume (FieldStr "retention") 1 eq_refl eq_refl Hrun)
    as (vm & Hvm & Hmin & _).
  - vm_compute. reflexivity.
  - reflexivity.
  - injection Hvm as <-.
    destruct (Hmin eq_refl) as (us & minima & Hus & HF & Htab).
    assert (us = [mobile; trapped]) as ->.
    { change (slice_to_end_minus example_solutions 2) with [Fn mobile; Fn trapped] in Hus.
      destruct us as [|u1 [|u2 [|u3 us]]]; try discriminate Hus.
      by injection Hus as <- <-. }
    by exists tab, minima.
Defined.

(** C3, as stated, fails. One cell with two dofs, the mobile concentration
    being 0 and 1 and the trapped one 1 and 0: the retention is 1 at both
    dofs, yet the reported minimum is 0 and the reported maximum 2. *)
Lemma retention_extrema_counterexample :
  ∃ m M dofs,
    derived_quantities (H := example_backend) retention_extrema_parameters
      example_solutions [[1]; [1; 2]] [None; None; None] = Ok [m; M] ∧
    requests retention_extrema_dict =
      [mkRequest MinimumVolume (FieldStr "retention") 1;
       mkRequest MaximumVolume (FieldStr "retention") 1] ∧
    subd_dofs mobile [1] 1 = Ok dofs ∧
    ¬ retention_minimum [mobile; trapped] dofs m ∧
    ¬ retention_maximum [mobile; trapped] dofs M.
Proof.
  exists (0 + 0 + 0)%Q, (0 + 1 + 1)%Q, [0; 1]%nat. split_and!.
  - vm_compute. reflexivity.
  - vm_compute. reflexivity.
  - vm_compute. reflexivity.
  - intros [(d & r & Hd & Hr & Heq) _].
    rewrite !elem_of_cons in Hd. destruct Hd as [->|[->|Hd%elem_of_nil]]; [| |done].
    + injection Hr as <-. vm_compute in Heq. discriminate.
    + injection Hr as <-. vm_compute in Heq. discriminate.
  - intros [(d & r & Hd & Hr & Heq) _].
    rewrite !elem_of_cons in Hd. destruct Hd as [->|[->|Hd%elem_of_nil]]; [| |done].
    + injection Hr as <-. vm_compute in Heq. discriminate.
    + injection Hr as <-. vm_compute in Heq. discriminate.
Qed.

Lemma run_post_processing_appends_witness :
  ∃ simulation' rows dt,
    run_post_processing (H := example_backend) (example_simulation 4)
      = Ok (simulation', (rows, dt)) ∧
    sim_derived_quantities_global simulation' = rows ∧
    ∃ tab, rows = [[0 # 1; 1 # 1; 2 # 1; 3 # 1; 4 # 1]; (1 # 2) :: tab]%Q.
Proof.
  destruct (run_post_processing (H := example_backend) (example_simulation 4))
    as [[simulation' [rows dt]]|e] eqn:Hrun; [|by vm_compute in Hrun].
  exists simulation', rows, dt. split; [done|].
  destruct (run_post_processing_appends (H := example_backend) (example_simulation 4)
              simulation' rows dt (mkExports (Some example_dict) None) example_dict)
    as [Hsame Hrows].
  - reflexivity.
  - reflexivity.
  - exact Hrun.
  - split; [exact Hsame|].
    destruct Hrows as [(_ & res & tab & _ & _ & ->)|[Hnd _]].
    + by exists tab.
    + by vm_compute in Hnd.
Defined.

End DerivedFacts.

(** ** Markers and formulation of the hydrogen transport problem *)

Module HTransportFacts.
Import HTransport HTransportSpec PyFacts Examples.

Ltac bind_step H x Hx := apply bind_Ok in H as (x & Hx & H).

(** A loop establishes, for the whole list, what each iteration preserves
    for the part of the list already visited. *)
Lemma for_invariant {A S} (Inv : list A → S → Prop) (body : A → S → result S) l s0 s1 :
  Inv [] s0 →
  (∀ pre x s s', Inv pre s → body x s = Ok s' → Inv (pre ++ [x]) s') →
  for_ l body s0 = Ok s1 →
  Inv l s1.
Proof.
  intros H0 Hstep.
  cut (∀ pre s, Inv pre s → for_ l body s = Ok s1 → Inv (pre ++ l) s1).
  { intros Hgen. apply (Hgen [] s0 H0). }
  induction l as [|x l IH]; intros pre s Hpre; simpl.
  - intros [= <-]. by rewrite app_nil_r.
  - intros Hrun. bind_step Hrun s' Hs'.
    replace (pre ++ x :: l) with ((pre ++ [x]) ++ l) by (by rewrite <- app_assoc).
    eapply IH; [|exact Hrun]. by eapply Hstep.
Qed.

Lemma int32_Ok z v : int32 z = Ok v ↔ in_int32 z ∧ v = z.
Proof.
  unfold int32, in_int32. destruct (decide _); split.
  - by intros [= <-].
  - by intros [_ ->].
  - intros [=].
  - by intros [? _].
Qed.

Lemma comprehension_int32 l l' : comprehension int32 l = Ok l' → l' = l.
Proof.
  intros HF%comprehension_Ok. induction HF as [|z v l l' Hz _ IH]; [done|].
  apply int32_Ok in Hz as [_ ->]. by rewrite IH.
Qed.

Lemma foldl_insert_spec (v : Z) entities tags :
  let tags' := foldl (λ tags e, <[e := v]> tags) tags entities in
  length tags' = length tags ∧
  ∀ c, (c ∈ entities → (c < length tags)%nat → tags' !! c = Some v) ∧
       (c ∉ entities → tags' !! c = tags !! c).
Proof.
  revert tags. induction entities as [|e entities IH]; intros tags; simpl.
  - split; [done|]. intros c. split; [by intros ?%elem_of_nil | done].
  - destruct (IH (<[e := v]> tags)) as [Hlen Hc]. rewrite length_insert in Hlen.
    split; [done|]. intros c. destruct (Hc c) as [Hin Hout]. split.
    + intros Hce Hlt. destruct (decide (c ∈ entities)) as [Hc'|Hc'].
      * apply Hin; [done | by rewrite length_insert].
      * rewrite (Hout Hc'). apply elem_of_cons in Hce as [->|?]; [|done].
        by apply list_lookup_insert_eq.
    + intros Hce. rewrite not_elem_of_cons in Hce. destruct Hce as [Hne Hc'].
      rewrite (Hout Hc'). by apply list_lookup_insert_ne.
Qed.

Lemma assign_at_Ok tags entities value tags' :
  assign_at tags entities value = Ok tags' →
  in_int32 value ∧
  length tags' = length tags ∧
  ∀ c, (c ∈ entities → tags' !! c = Some value) ∧
       (c ∉ entities → tags' !! c = tags !! c).
Proof.
  unfold assign_at. intros Hrun. bind_step Hrun v Hv.
  apply int32_Ok in Hv as [Hrange ->].
  destruct (forallb _ entities) eqn:Hall; [|done]. injection Hrun as <-.
  destruct (foldl_insert_spec value entities tags) as [Hlen Hc].
  split_and!; [done..|]. intros c. destruct (Hc c) as [Hin Hout].
  split; [|done]. intros Hce. apply Hin; [done|].
  rewrite forallb_forall in Hall. apply Nat.ltb_lt, Hall. by apply list_elem_of_In.
Qed.

Section Markers.
Context `{Geometry}.

(** What the loop over the subdomains leaves in the tag arrays. *)
Lemma mark_loop self m st :
  for_ (subdomains self) (mark_subdomain self m (topology_dim m))
       (mkMarkerState [] [] (volume_subdomains self) (replicate (num_cells m) 0)) = Ok st →
  length (st_tags_volumes st) = num_cells m ∧
  (∀ c v, st_tags_volumes st !! c = Some v →
     (∃ s, s ∈ subdomains self ∧ located_in m c s ∧ v = subdomain_id s) ∨
     ((∀ s, s ∈ subdomains self → ¬ located_in m c s) ∧ v = 0)) ∧
  (∀ s V, s ∈ subdomains self → is_surface s = true → function_space self = Some V →
     ∃ k, st_dofs_facets st !! k = Some (locate_dof s V) ∧
          st_tags_facets st !! k = Some (subdomain_id s)) ∧
  st_volume_subdomains st =
    volume_subdomains self ++ filter (λ s, is_volume s = true) (subdomains self) ∧
  length (st_dofs_facets st) = length (st_tags_facets st).
Proof.
  apply (for_invariant (λ pre st,
    length (st_tags_volumes st) = num_cells m ∧
    (∀ c v, st_tags_volumes st !! c = Some v →
       (∃ s, s ∈ pre ∧ located_in m c s ∧ v = subdomain_id s) ∨
       ((∀ s, s ∈ pre → ¬ located_in m c s) ∧ v = 0)) ∧
    (∀ s V, s ∈ pre → is_surface s = true → function_space self = Some V →
       ∃ k, st_dofs_facets st !! k = Some (locate_dof s V) ∧
            st_tags_facets st !! k = Some (subdomain_id s)) ∧
    st_volume_subdomains st =
      volume_subdomains self ++ filter (λ s, is_volume s = true) pre ∧
    length (st_dofs_facets st) = length (st_tags_facets st))).
  - simpl. split_and!.
    + apply length_replicate.
    + intros c v [-> _]%lookup_replicate. right. split; [|done].
      by intros s ?%elem_of_nil.
    + by intros s V ?%elem_of_nil.
    + by rewrite app_nil_r.
    + done.
  - intros pre x st0 st1 (Hlen & Hvol & Hsurf & Hvols & Hfl) Hstep.
    unfold mark_subdomain in Hstep.
    destruct x as [id x|id borders material|id]; simpl in Hstep.
    + (* a surface *)
      bind_step Hstep st' Hst'. bind_step Hst' V HV. injection Hst' as <-.
      injection Hstep as <-. simpl. split_and!.
      * done.
      * intros c v Hcv. destruct (Hvol c v Hcv) as [(s & Hs & Hloc & ->)|[Hnone ->]].
        { left. exists s. split_and!; [|done..]. apply elem_of_app. by left. }
        right. split; [|done]. intros s [Hs|Hs%list_elem_of_singleton]%elem_of_app.
        { by apply Hnone. }
        subst s. by intros [? _].
      * intros s V' [Hs|Hs%list_elem_of_singleton]%elem_of_app Hsf HV'.
        { destruct (Hsurf s V' Hs Hsf HV') as (k & Hk1 & Hk2).
          exists k. split; by apply lookup_app_l_Some. }
        subst s. exists (length (st_dofs_facets st0)).
        unfold attr in HV. rewrite HV' in HV. injection HV as <-. split.
        { by rewrite lookup_app_r, Nat.sub_diag by lia. }
        rewrite Hfl. by rewrite lookup_app_r, Nat.sub_diag by lia.
      * rewrite filter_app, filter_cons_False, filter_nil, app_nil_r by done. done.
      * rewrite !length_app. simpl. lia.
    + (* a volume *)
      bind_step Hstep tags Htags. injection Hstep as <-. simpl.
      apply assign_at_Ok in Htags as (_ & Hlen' & Htags). split_and!.
      * by rewrite Hlen'.
      * intros c v Hcv. destruct (Htags c) as [Hin Hout].
        destruct (decide (c ∈ locate_subdomain_entities
                            (VolumeSubdomain1D id borders material) m (topology_dim m)))
          as [Hc|Hc].
        { rewrite (Hin Hc) in Hcv. injection Hcv as <-. left.
          exists (VolumeSubdomain1D id borders material). split_and!; [|done..].
          apply elem_of_app. right. apply list_elem_of_here. }
        rewrite (Hout Hc) in Hcv.
        destruct (Hvol c v Hcv) as [(s & Hs & Hloc & ->)|[Hnone ->]].
        { left. exists s. split_and!; [|done..]. apply elem_of_app. by left. }
        right. split; [|done]. intros s [Hs|Hs%list_elem_of_singleton]%elem_of_app.
        { by apply Hnone. }
        subst s. by intros [_ ?].
      * intros s V [Hs|Hs%list_elem_of_singleton]%elem_of_app Hsf HV.
        { by apply Hsurf. }
        by subst s.
      * rewrite filter_app, filter_cons_True, filter_nil by done.
        by rewrite Hvols, app_assoc.
      * done.
    + (* neither *)
      injection Hstep as <-. split_and!.
      * done.
      * intros c v Hcv. destruct (Hvol c v Hcv) as [(s & Hs & Hloc & ->)|[Hnone ->]].
        { left. exists s. split_and!; [|done..]. apply elem_of_app. by left. }
        right. split; [|done]. intros s [Hs|Hs%list_elem_of_singleton]%elem_of_app.
        { by apply Hnone. }
        subst s. by intros [? _].
      * intros s V [Hs|Hs%list_elem_of_singleton]%elem_of_app Hsf HV.
        { by apply Hsurf. }
        by subst s.
      * rewrite filter_app, filter_cons_False, filter_nil, app_nil_r by done. done.
      * done.
Qed.

(** C6. After [define_markers_and_measures] every cell of the mesh carries
    exactly one volume tag: the id of a listed volume subdomain whose located
    entities contain the cell, or 0 when no listed volume subdomain contains
    it; and the facet located for each listed surface subdomain carries the
    id of that subdomain in the facet tags. *)
Theorem define_markers_and_measures_tags self self' m :
  mesh self = Some m →
  define_markers_and_measures self = Ok self' →
  ∃ ft vt,
    facet_meshtags self' = Some ft ∧
    volume_meshtags self' = Some vt ∧
    (∀ c, (c < num_cells m)%nat →
       ∃ v, (∀ v', tagged vt (Z.of_nat c) v' ↔ v' = v) ∧
            ((∃ s, s ∈ subdomains self ∧ located_in m c s ∧ v = subdomain_id s) ∨
             ((∀ s, s ∈ subdomains self → ¬ located_in m c s) ∧ v = 0))) ∧
    (∀ s V, s ∈ subdomains self → is_surface s = true →
            function_space self = Some V →
            tagged ft (locate_dof s V) (subdomain_id s)).
Proof.
  intros Hm Hrun. unfold define_markers_and_measures in Hrun.
  rewrite Hm in Hrun. simpl in Hrun.
  bind_step Hrun st Hst. bind_step Hrun dofs Hdofs. bind_step Hrun tags Htags.
  injection Hrun as <-. simpl.
  apply comprehension_int32 in Hdofs as ->, Htags as ->.
  apply mark_loop in Hst as (Hlen & Hvol & Hsurf & _ & _).
  eexists _, _. split_and!; [done..| |].
  - intros c Hc.
    destruct (lookup_lt_is_Some_2 (st_tags_volumes st) c) as [v Hv]; [lia|].
    exists v. split; [|by apply Hvol].
    intros v'. unfold tagged. simpl. split.
    + intros (k & [Hk _]%lookup_seqZ & Hk').
      assert (k = c) as -> by lia. congruence.
    + intros ->. exists c. split; [|done]. apply lookup_seqZ. lia.
  - intros s V Hs Hsf HV. destruct (Hsurf s V Hs Hsf HV) as (k & Hk1 & Hk2).
    by exists k.
Qed.

End Markers.

Lemma define_markers_and_measures_tags_witness :
  ∃ self' ft vt,
    define_markers_and_measures (H := example_geometry)
      (with_function_space one_species_problem (space_on example_mesh)) = Ok self' ∧
    facet_meshtags self' = Some ft ∧
    volume_meshtags self' = Some vt ∧
    tagged vt 2 3 ∧ tagged ft 3 2.
Proof.
  destruct (define_markers_and_measures (H := example_geometry)
              (with_function_space one_species_problem (space_on example_mesh)))
    as [self'|e] eqn:Hrun; [|by vm_compute in Hrun].
  destruct (define_markers_and_measures_tags (H := example_geometry)
              (with_function_space one_species_problem (space_on example_mesh))
              self' example_mesh) as (ft & vt & Hft & Hvt & Hcells & Hfacets).
  - reflexivity.
  - exact Hrun.
  - exists self', ft, vt. split_and!; [done..| |].
    + destruct (Hcells 2%nat) as (v & Hv & [(s & Hs & [Hvol _] & ->)|[Hnone _]]).
      * unfold example_mesh. simpl. lia.
      * apply Hv. change (s ∈ example_subdomains) in Hs.
        unfold example_subdomains in Hs. rewrite !elem_of_cons in Hs.
        destruct Hs as [->|[->|[->|Hs%elem_of_nil]]]; done.
      * exfalso. apply (Hnone (VolumeSubdomain1D 3 (0 # 1, 1 # 1)%Q tungsten)).
        { change (VolumeSubdomain1D 3 (0 # 1, 1 # 1)%Q tungsten ∈ example_subdomains).
          unfold example_subdomains. rewrite !elem_of_cons. auto. }
        split; [done|]. unfold example_mesh. simpl. rewrite !elem_of_cons. auto.
    + apply (Hfacets (SurfaceSubdomain1D 2 (1 # 1)) (space_on example_mesh)).
      * change (SurfaceSubdomain1D 2 (1 # 1) ∈ example_subdomains).
        unfold example_subdomains. rewrite !elem_of_cons. auto.
      * done.
      * done.
Defined.

Section Formulation.
Context `{Geometry}.

(** A loop runs to its end when every iteration succeeds on states that
    satisfy an invariant. *)
Lemma for_total {A S} (Inv : S → Prop) (body : A → S → result S) l s0 :
  Inv s0 →
  (∀ x s, x ∈ l → Inv s → ∃ s', body x s = Ok s' ∧ Inv s') →
  ∃ s1, for_ l body s0 = Ok s1 ∧ Inv s1.
Proof.
  revert s0. induction l as [|x l IH]; intros s0 H0 Hstep; simpl.
  - by exists s0.
  - destruct (Hstep x s0) as (s' & Hs' & Hinv); [apply list_elem_of_here | done |].
    rewrite Hs'. simpl. apply IH; [done|].
    intros y s Hy. apply Hstep. by apply list_elem_of_further.
Qed.

Lemma assign_at_total tags entities value :
  in_int32 value →
  (∀ e, e ∈ entities → (e < length tags)%nat) →
  ∃ tags', assign_at tags entities value = Ok tags' ∧ length tags' = length tags.
Proof.
  intros Hv Hin. unfold assign_at.
  assert (int32 value = Ok value) as -> by (by apply int32_Ok). simpl.
  assert (forallb (λ e, e <? length tags)%nat entities = true) as ->.
  { apply forallb_forall. intros e He%list_elem_of_In. by apply Nat.ltb_lt, Hin. }
  eexists. split; [done|]. apply foldl_insert_spec.
Qed.

Lemma comprehension_int32_total l :
  Forall in_int32 l → comprehension int32 l = Ok l.
Proof.
  intros Hall. apply comprehension_Ok.
  induction Hall as [|z l Hz _ IH]; constructor; [by apply int32_Ok | done].
Qed.

(** The markers can be defined whenever every subdomain is markable. *)
Lemma define_markers_and_measures_total self m V :
  mesh self = Some m →
  function_space self = Some V →
  Forall (markable m V) (subdomains self) →
  ∃ vols ft vt,
    define_markers_and_measures self =
      Ok (with_markers self vols ft vt (mkMeasure "ds" ft) (mkMeasure "dx" vt)) ∧
    vols = volume_subdomains self ++ filter (λ s, is_volume s = true) (subdomains self).
Proof.
  intros Hm HV Hall. unfold define_markers_and_measures. rewrite Hm. simpl.
  destruct (for_total
              (λ st, length (st_tags_volumes st) = num_cells m ∧
                     Forall in_int32 (st_dofs_facets st) ∧
                     Forall in_int32 (st_tags_facets st))
              (mark_subdomain self m (topology_dim m)) (subdomains self)
              (mkMarkerState [] [] (volume_subdomains self) (replicate (num_cells m) 0)))
    as (st & Hst & Hlen & Hd & Ht).
  { simpl. split_and!; [apply length_replicate | constructor | constructor]. }
  { intros x st Hx (Hlen & Hd & Ht).
    rewrite Forall_forall in Hall. destruct (Hall x Hx) as [Hsurf Hvol].
    unfold mark_subdomain. destruct x as [id x|id borders material|id]; simpl.
    - rewrite HV. simpl. destruct Hsurf as [Hdof Hid]; [done|].
      eexists. split; [done|]. simpl. split_and!; [done|..].
      + apply Forall_app. split; [done|]. by constructor.
      + apply Forall_app. split; [done|]. by constructor.
    - destruct Hvol as [Hid Hent]; [done|].
      destruct (assign_at_total (st_tags_volumes st)
                  (locate_subdomain_entities (VolumeSubdomain1D id borders material)
                     m (topology_dim m)) id) as (tags' & -> & Hlen'); [done| |].
      { intros e He. rewrite Hlen. by apply Hent. }
      simpl. eexists. split; [done|]. simpl. split_and!; [congruence | done..].
    - by exists st. }
  rewrite Hst. simpl.
  rewrite (comprehension_int32_total _ Hd). simpl.
  rewrite (comprehension_int32_total _ Ht). simpl.
  apply mark_loop in Hst as (_ & _ & _ & Hvols & _).
  eexists _, _, _. split; [reflexivity | exact Hvols].
Qed.

Lemma insert_integral_perm i l : insert_integral i l ≡ₚ i :: l.
Proof.
  induction l as [|j l IH]; simpl; [done|].
  destruct (integral_le j i); [|done]. rewrite IH. apply Permutation_swap.
Qed.

Lemma sorted_integrals_perm l : sorted_integrals l ≡ₚ l.
Proof.
  unfold sorted_integrals.
  assert (Hgen : ∀ sorted, foldl (λ sorted i, insert_integral i sorted) sorted l
                           ≡ₚ sorted ++ l).
  { induction l as [|i l IH]; intros sorted; simpl; [by rewrite app_nil_r|].
    rewrite IH, insert_integral_perm. simpl. apply Permutation_middle. }
  apply Hgen.
Qed.

Lemma form_of_sorted l : l ≠ [] → Form (sorted_integrals l) = form_of (sorted_integrals l).
Proof.
  intros Hl. destruct (sorted_integrals l) as [|i l'] eqn:Hs; [|done].
  pose proof (sorted_integrals_perm l) as Hp. rewrite Hs in Hp.
  apply Permutation_nil_l in Hp. by destruct Hl.
Qed.

(** Adding a form to a sum of integrals. *)
Lemma add_form_sums F terms b :
  sums F terms → b ≠ [] → ∃ F', add_form F b = Ok F' ∧ sums F' (terms ++ b).
Proof.
  intros (l & -> & Hl) Hb. destruct l as [|t l].
  - exists (Form (sorted_integrals b)). split; [done|].
    exists (sorted_integrals b). split; [by apply form_of_sorted|].
    rewrite sorted_integrals_perm. apply Permutation_nil_l in Hl as <-. done.
  - exists (Form (sorted_integrals ((t :: l) ++ b))). split; [done|].
    exists (sorted_integrals ((t :: l) ++ b)). split; [by apply form_of_sorted|].
    by rewrite sorted_integrals_perm, Hl.
Qed.

(** One volume subdomain adds its two terms. *)
Lemma add_volume_terms_step self m V dx T spe vol D F terms :
  temperature self = T →
  p_dx self = Some dx →
  spe = with_functions V spe →
  diffusion_coefficient_of m T vol D →
  sums F terms →
  ∃ F', add_volume_terms self m (Constant (1 # 20)) spe vol F = Ok F' ∧
        sums F' (terms ++ volume_terms V dx (vol, D)).
Proof.
  intros HT Hdx Hspe (id & borders & material & -> & HD) HF.
  unfold add_volume_terms. simpl. rewrite HT, HD. simpl.
  rewrite Hspe. simpl. rewrite Hdx. simpl.
  destruct (add_form_sums F terms
              [diffusion_term D (Function 0 V) (TestFunction V) dx id] HF)
    as (F1 & -> & HF1); [done|]. simpl.
  destruct (add_form_sums F1 _
              [transient_term (Function 0 V) (Function 1 V) (Constant (1 # 20))
                 (TestFunction V) dx id] HF1)
    as (F2 & -> & HF2); [done|].
  exists F2. split; [done|]. by rewrite <- app_assoc in HF2.
Qed.

(** The loop over the volume subdomains, for the first species. *)
Lemma volume_loop self m V dx T spe vols Ds F terms :
  temperature self = T →
  p_dx self = Some dx →
  spe = with_functions V spe →
  Forall2 (diffusion_coefficient_of m T) vols Ds →
  sums F terms →
  ∃ F', for_ vols (add_volume_terms self m (Constant (1 # 20)) spe) F = Ok F' ∧
        sums F' (terms ++ flat_map (volume_terms V dx) (zip vols Ds)).
Proof.
  intros HT Hdx Hspe HF. revert F terms.
  induction HF as [|vol D vols Ds HD _ IH]; intros F terms Hsums; simpl.
  - exists F. split; [done|]. by rewrite app_nil_r.
  - destruct (add_volume_terms_step self m V dx T spe vol D F terms HT Hdx Hspe HD Hsums)
      as (F1 & -> & HF1).
    simpl. destruct (IH F1 _ HF1) as (F2 & -> & HF2).
    exists F2. split; [done|]. by rewrite <- !app_assoc in HF2.
Qed.

(** C1, as the code has it. For a newly constructed problem whose mesh,
    subdomains, species and temperature are set, with at most one species
    and at most one source, [initialise] succeeds; the species receive their
    functions [u], [u_n] and [v]; [dx] is the cell measure over the volume
    meshtags; and the formulation is the sum, in some order, over the species
    and the volume subdomains, with [D] the diffusion coefficient of the
    material of the subdomain and [dt = 1/20], of the diffusion term
    [dot(D*grad(u), grad(v))*dx(id)] and the transient term
    [((u - u_n)/dt)*v*dx(id)] (the integer 0 when there is no term). *)
Theorem initialise_assembles m subs spes T srcs Ds :
  (length spes ≤ 1)%nat →
  (length srcs ≤ 1)%nat →
  Forall (markable m (space_on m)) subs →
  Forall2 (diffusion_coefficient_of m (Some T)) (filter (λ s, is_volume s = true) subs) Ds →
  ∃ self' dx terms,
    initialise (init (Some m) subs spes (Some T) srcs) = Ok self' ∧
    p_dx self' = Some dx ∧
    ms_kind dx = "dx" ∧
    volume_meshtags self' = Some (ms_subdomain_data dx) ∧
    volume_subdomains self' = filter (λ s, is_volume s = true) subs ∧
    species self' =
      map (λ spe, mkSpecies (name spe)
                    (Some (Function 0 (mkFunctionSpace m "CG" 1)))
                    (Some (Function 1 (mkFunctionSpace m "CG" 1)))
                    (Some (TestFunction (mkFunctionSpace m "CG" 1)))) spes ∧
    formulation self' = Some (match terms with [] => PyInt 0 | _ => Form terms end) ∧
    terms ≡ₚ
      flat_map (λ _ : Species,
        flat_map (λ vol_D : Subdomain * expr,
          [mkIntegral
             (dot (Mul vol_D.2 (grad (Function 0 (mkFunctionSpace m "CG" 1))))
                  (grad (TestFunction (mkFunctionSpace m "CG" 1))))
             dx (subdomain_id vol_D.1);
           mkIntegral
             (Mul (Div (Sub (Function 0 (mkFunctionSpace m "CG" 1))
                            (Function 1 (mkFunctionSpace m "CG" 1)))
                       (Constant (1 # 20)))
                  (TestFunction (mkFunctionSpace m "CG" 1)))
             dx (subdomain_id vol_D.1)])
          (zip (filter (λ s, is_volume s = true) subs) Ds)) spes.
Proof.
  intros Hspes Hsrcs Hmark HD. unfold initialise.
  change (define_function_space (init (Some m) subs spes (Some T) srcs))
    with (Ok (with_function_space (init (Some m) subs spes (Some T) srcs) (space_on m))).
  simpl.
  destruct (define_markers_and_measures_total
              (with_function_space (init (Some m) subs spes (Some T) srcs) (space_on m))
              m (space_on m)) as (vols & ft & vt & -> & Hvols); [done..|].
  simpl in Hvols. subst vols. simpl.
  unfold assign_functions_to_species. simpl.
  rewrite decide_False by lia.
  destruct spes as [|spe [|spe' spes]]; simpl in *; [| |lia].
  - unfold create_formulation. simpl. rewrite decide_False by lia. simpl.
    eexists _, _, []. split; [reflexivity|]. simpl. by split_and!.
  - unfold create_formulation. simpl. rewrite decide_False by lia. simpl.
    lazymatch goal with
    | |- context [for_ ?vols (add_volume_terms ?self ?m' ?dt ?spe') ?F0] =>
        destruct (volume_loop self m' (space_on m) (mkMeasure "dx" vt) (Some T) spe'
                    vols Ds F0 [])
          as (F & HF & (terms & -> & Hterms)); [done.. | by exists [] |]
    end.
    rewrite HF. simpl. eexists _, _, terms. split; [reflexivity|]. simpl.
    rewrite app_nil_r. by split_and!.
Qed.

End Formulation.

Lemma initialise_assembles_witness :
  ∃ self' dx terms,
    initialise (H := example_geometry) one_species_problem = Ok self' ∧
    p_dx self' = Some dx ∧
    formulation self' = Some (Form terms) ∧
    terms ≡ₚ
      [mkIntegral
         (dot (Mul (Coefficient tungsten (500 # 1))
                   (grad (Function 0 (mkFunctionSpace example_mesh "CG" 1))))
              (grad (TestFunction (mkFunctionSpace example_mesh "CG" 1))))
         dx 3;
       mkIntegral
         (Mul (Div (Sub (Function 0 (mkFunctionSpace example_mesh "CG" 1))
                        (Function 1 (mkFunctionSpace example_mesh "CG" 1)))
                   (Constant (1 # 20)))
              (TestFunction (mkFunctionSpace example_mesh "CG" 1)))
         dx 3].
Proof.
  destruct (initialise_assembles (H := example_geometry) example_mesh example_subdomains
              [species_H] (500 # 1)%Q [] [Coefficient tungsten (500 # 1)])
    as (self' & dx & terms & Hrun & Hdx & _ & _ & Hvols & _ & HF & Hterms).
  - simpl. lia.
  - simpl. lia.
  - unfold example_subdomains.
    assert (Hrange : ∀ z : Z, ((- 2 ^ 31 <=? z)%Z && (z <? 2 ^ 31)%Z) = true → in_int32 z).
    { intros z [? ?]%andb_prop. unfold in_int32. lia. }
    apply Forall_cons; split; [|apply Forall_cons; split; [|apply Forall_cons; split]].
    + split; [intros _; split; by apply Hrange | intros [=]].
    + split; [intros [=] | intros _; split; [by apply Hrange|]].
      intros e He%elem_of_seq. simpl in *. lia.
    + split; [intros _; split; by apply Hrange | intros [=]].
    + constructor.
  - unfold example_subdomains. rewrite filter_cons_False by done.
    rewrite filter_cons_True by done. rewrite filter_cons_False by done.
    constructor; [|constructor]. by exists 3, (0 # 1, 1 # 1)%Q, tungsten.
  - exists self', dx, terms. split_and!; [exact Hrun | exact Hdx | |].
    + rewrite HF. destruct terms; [|done].
      apply Permutation_nil_l in Hterms. discriminate Hterms.
    + exact Hterms.
Defined.

(** C1, as stated, fails: with a trap species next to the mobile one, or
    with two sources, [initialise] raises [NotImplementedError]. *)
Lemma initialise_counterexample :
  initialise (H := example_geometry) two_species_problem = Raise NotImplementedError ∧
  initialise (H := example_geometry) two_sources_problem = Raise NotImplementedError.
Proof. split; vm_compute; reflexivity. Qed.

End HTransportFacts.

(** ** Sequences of method calls *)

Module MethodFacts.
Import Method.

Lemma for_each_app {S A} (l1 l2 : list A) (body : A → method S unit) s :
  for_each (l1 ++ l2) body s = bind (for_each l1 body) (λ _, for_each l2 body) s.
Proof.
  revert s. induction l1 as [|x l1 IH]; intros s; simpl.
  - done.
  - unfold bind. destruct (body x s) as [[[]|e] s']; [|done].
    rewrite IH. done.
Qed.

End MethodFacts.

(** ** The CSV file of a surface quantity *)

Module SurfaceQuantityFacts.
Import Method MethodFacts SurfaceQuantity Examples.

(** A call to [write] once the header has been written. *)
Lemma write_later fld srf fn ts data ttl v0 v t fs :
  compute_and_write (t, v)
    (mkSurfaceQuantity fld srf (Some fn) ts data (Some ttl) false v0, fs) =
  (Ok (),
   (mkSurfaceQuantity fld srf (Some fn) ts data (Some ttl) false (Some v),
    <[fn := default [] (fs !! fn) ++ [data_row (t, v)]]> fs)).
Proof.
  unfold compute_and_write, write, bind, when, get, lift, ret. simpl.
  unfold files in *. rewrite lookup_insert_eq. simpl. by rewrite insert_insert_eq.
Qed.

(** The first call to [write] of a quantity that has a file name. *)
Lemma write_first id name fn ts data v0 v t fs :
  compute_and_write (t, v)
    (mkSurfaceQuantity (FieldSpecies name) (SurfaceSubdomain id) (Some fn) ts data
       None true v0, fs) =
  (Ok (),
   (mkSurfaceQuantity (FieldSpecies name) (SurfaceSubdomain id) (Some fn) ts data
      (Some (flux_title id name)) false (Some v),
    <[fn := [header_row id name; data_row (t, v)]]> fs)).
Proof.
  unfold compute_and_write, write, bind, when, get, lift, ret. simpl.
  unfold files in *. rewrite !lookup_insert_eq. simpl. by rewrite !insert_insert_eq.
Qed.

(** Calls after the first one only append rows to the file. *)
Lemma writes_later fld srf fn ts data ttl calls v0 fs content :
  fs !! fn = Some content →
  ∃ v' fs',
    writes calls (mkSurfaceQuantity fld srf (Some fn) ts data (Some ttl) false v0, fs) =
      (Ok (), (mkSurfaceQuantity fld srf (Some fn) ts data (Some ttl) false v', fs')) ∧
    fs' !! fn = Some (content ++ map data_row calls) ∧
    ∀ other, other ≠ fn → fs' !! other = fs !! other.
Proof.
  revert v0 fs content. induction calls as [|[t v] calls IH]; intros v0 fs content Hfs.
  - exists v0, fs. split_and!; [done | by rewrite app_nil_r | done].
  - unfold writes. simpl. unfold bind at 1. rewrite write_later.
    destruct (IH (Some v) (<[fn := default [] (fs !! fn) ++ [data_row (t, v)]]> fs)
                 (content ++ [data_row (t, v)])) as (v' & fs' & Hrun & Hfn & Hother).
    { unfold files in *. rewrite Hfs. simpl. apply lookup_insert_eq. }
    exists v', fs'. split_and!.
    + exact Hrun.
    + rewrite Hfn. by rewrite <- app_assoc.
    + intros other Hne. rewrite (Hother other Hne).
      unfold files in *. by rewrite lookup_insert_ne.
Qed.

(** Without a file name nothing is written, whatever else happens. *)
Lemma writes_no_file calls self fs :
  sq_filename self = None → (writes calls (self, fs)).2.2 = fs.
Proof.
  revert self. induction calls as [|[t v] calls IH]; intros self Hnone; [done|].
  unfold writes. simpl. unfold bind at 1.
  assert (∃ r self1, compute_and_write (t, v) (self, fs) = (r, (self1, fs)) ∧
                     sq_filename self1 = None) as (r & self1 & -> & Hnone1).
  { destruct self as [fld srf fname ts data ttl first v0]. simpl in Hnone. subst fname.
    unfold compute_and_write, write, bind, when, get, lift, ret. simpl.
    destruct ttl as [ttl|]; simpl; [by eexists _, _|].
    destruct srf as [id|z]; simpl; [|by eexists _, _].
    destruct fld as [name|str]; simpl; by eexists _, _. }
  destruct r as [[]|e]; [|done]. by apply IH.
Qed.

Lemma check_filename_Ok value name :
  check_filename value = Ok name → name = value.
Proof.
  unfold check_filename. destruct value as [v|]; [|by intros [= <-]].
  destruct (_ && _); [done | by intros [= <-]].
Qed.

(** A run that succeeds with a file name: the header, then one row per
    call. *)
Lemma writes_from_init field surface fn self0 fs0 calls self' fs' :
  init field surface (Some fn) = Ok self0 →
  calls ≠ [] →
  writes calls (self0, fs0) = (Ok (), (self', fs')) →
  ∃ id name,
    surface = SurfaceSubdomain id ∧ field = FieldSpecies name ∧
    fs' !! fn = Some (header_row id name :: map data_row calls) ∧
    ∀ other, other ≠ fn → fs' !! other = fs0 !! other.
Proof.
  unfold init. intros Hinit Hne Hrun.
  destruct (check_filename (Some fn)) as [name|] eqn:Hname; [|done].
  apply check_filename_Ok in Hname as ->. injection Hinit as <-.
  destruct calls as [|[t v] calls]; [done|].
  unfold writes in Hrun. simpl in Hrun. unfold bind at 1 in Hrun.
  destruct surface as [id|z]; [|done].
  destruct field as [name|str]; [|done].
  rewrite write_first in Hrun.
  destruct (writes_later (FieldSpecies name) (SurfaceSubdomain id) fn [] []
              (flux_title id name) calls (Some v)
              (<[fn := [header_row id name; data_row (t, v)]]> fs0)
              [header_row id name; data_row (t, v)])
    as (v' & fs1 & Hrun' & Hfn & Hother).
  { unfold files. apply lookup_insert_eq. }
  unfold writes in Hrun'. rewrite Hrun' in Hrun. injection Hrun as <- <-.
  exists id, name. split_and!; [done..|].
  intros other Hneq. rewrite (Hother other Hneq).
  unfold files. by rewrite lookup_insert_ne.
Qed.

(** C7. With a file name, the first call to [write] creates or truncates
    the file and writes the header row
    ['t(s)', 'Flux surface {id}: {name}'], and every call, the first
    included, appends the row [[t, value]] after what the file holds: after
    any number of calls the file is the header followed by the rows of these
    calls in order, so rows written earlier stay as they are; other files are
    not touched.  Without a file name nothing is written. *)
Theorem write_trace field surface filename self0 fs0 calls r self' fs' :
  init field surface filename = Ok self0 →
  writes calls (self0, fs0) = (r, (self', fs')) →
  match filename with
  | None => fs' = fs0
  | Some fn =>
      r = Ok () →
      ∀ before after, calls = before ++ after → before ≠ [] →
        ∃ id name self1 fs1,
          surface = SurfaceSubdomain id ∧ field = FieldSpecies name ∧
          writes before (self0, fs0) = (Ok (), (self1, fs1)) ∧
          fs1 !! fn = Some (header_row id name :: map data_row before) ∧
          (∀ other, other ≠ fn → fs1 !! other = fs0 !! other) ∧
          writes after (self1, fs1) = (Ok (), (self', fs'))
  end.
Proof.
  intros Hinit Hrun. destruct filename as [fn|].
  - intros -> before after -> Hne.
    unfold writes in Hrun. rewrite for_each_app in Hrun. unfold bind in Hrun.
    destruct (for_each before compute_and_write (self0, fs0))
      as [[[]|e] [self1 fs1]] eqn:Hbefore; [|done].
    destruct (writes_from_init field surface fn self0 fs0 before self1 fs1
                Hinit Hne Hbefore) as (id & name & -> & -> & Hfn & Hother).
    by exists id, name, self1, fs1.
  - pose proof (writes_no_file calls self0 fs0) as Hfs.
    rewrite Hrun in Hfs. simpl in Hfs. apply Hfs.
    unfold init in Hinit. simpl in Hinit. by injection Hinit as <-.
Qed.

Lemma write_trace_witness :
  ∃ self0 self' fs',
    init (FieldSpecies "H") (SurfaceSubdomain 1) (Some "flux.csv") = Ok self0 ∧
    writes two_calls (self0, old_files) = (Ok (), (self', fs')) ∧
    fs' !! "flux.csv" =
      Some [[Text "t(s)"; Text "Flux surface 1: H"];
            [Number (0 # 1); Number (5 # 1)];
            [Number (1 # 1); Number (7 # 1)]].
Proof.
  destruct (init (FieldSpecies "H") (SurfaceSubdomain 1) (Some "flux.csv"))
    as [self0|e] eqn:Hinit; [|by vm_compute in Hinit].
  destruct (writes two_calls (self0, old_files)) as [r [self' fs']] eqn:Hrun.
  assert (r = Ok ()) as ->.
  { vm_compute in Hinit. injection Hinit as <-. vm_compute in Hrun. congruence. }
  exists self0, self', fs'. split_and!; [done..|].
  destruct (write_trace (FieldSpecies "H") (SurfaceSubdomain 1) (Some "flux.csv")
              self0 old_files two_calls (Ok ()) self' fs' Hinit Hrun eq_refl
              two_calls [] eq_refl)
    as (id & name & self1 & fs1 & [= <-] & [= <-] & Hbefore & Hfn & _ & Hafter).
  - done.
  - injection Hafter as <- <-. exact Hfn.
Defined.

End SurfaceQuantityFacts.

(** ** The XDMF export *)

Module XDMFFacts.
Import Method MethodFacts XDMF PyFacts Examples.

Lemma as_species_list refs : comprehension as_species (map VSpecies refs) = Ok refs.
Proof. induction refs as [|r refs IH]; simpl; [done|]. by rewrite IH. Qed.

Lemma as_species_Ok items refs :
  comprehension as_species items = Ok refs → items = map VSpecies refs.
Proof.
  intros HF%comprehension_Ok. induction HF as [|x r items refs Hx _ IH]; [done|].
  simpl. rewrite <- IH. destruct x; try done. by injection Hx as ->.
Qed.

Lemma as_species_Raise items e :
  comprehension as_species items = Raise e → e = TypeError.
Proof.
  induction items as [|x items IH]; simpl; [done|].
  destruct x; simpl; try by intros [= <-].
  destruct (comprehension as_species items); simpl; [done|].
  intros [= <-]. by apply IH.
Qed.

(** C9. Given a single species or a list of species, the setter stores a
    list of species, a single species being wrapped in a one-element list;
    given anything else, a list with an element that is not a species
    included, it raises [TypeError] and leaves the object as it was. *)
Theorem field_setter_spec v self :
  (∀ refs, accepted v refs →
     field_setter v self =
       (Ok (), mkXDMFExport (filename self) (_writer self) (Some refs) (_mesh_written self)) ∧
     field (field_setter v self).2 = Ok refs) ∧
  ((∀ refs, ¬ accepted v refs) → field_setter v self = (Raise TypeError, self)).
Proof.
  split.
  - intros refs [(r & -> & ->)| ->].
    + done.
    + unfold field_setter, bind, lift. by rewrite as_species_list.
  - intros Hno. destruct v as [r|items| | |]; try done.
    + destruct (Hno [r]). left. by exists r.
    + unfold field_setter, bind, lift.
      destruct (comprehension as_species items) as [refs|e] eqn:Hitems.
      * apply as_species_Ok in Hitems as ->. destruct (Hno refs). by right.
      * by apply as_species_Raise in Hitems as ->.
Qed.

Lemma field_setter_spec_witness :
  field_setter (VList [VSpecies 0%nat; VSpecies 1%nat]) (mkXDMFExport "my_export.xdmf" None None false)
    = (Ok (), mkXDMFExport "my_export.xdmf" None (Some [0; 1]%nat) false) ∧
  field_setter (VList [VSpecies 0%nat; VInt 1]) (mkXDMFExport "my_export.xdmf" None None false)
    = (Raise TypeError, mkXDMFExport "my_export.xdmf" None None false).
Proof.
  destruct (field_setter_spec (VList [VSpecies 0%nat; VSpecies 1%nat])
              (mkXDMFExport "my_export.xdmf" None None false)) as [Hyes _].
  destruct (field_setter_spec (VList [VSpecies 0%nat; VInt 1])
              (mkXDMFExport "my_export.xdmf" None None false)) as [_ Hno].
  split.
  - apply (Hyes [0; 1]%nat). by right.
  - apply Hno. intros refs [(r & [=] & _)|Heq].
    destruct refs as [|r0 [|r1 refs]]; simpl in Heq; congruence.
Defined.

(** The loop of [write] over the fields appends one function per field. *)
Lemma write_functions σ t fn fld mw fields (log0 log : list written) self' :
  for_each fields (λ f,
      bind (lift (match Some log0 with
                   | Some _ => Ok ()
                   | None => Raise AttributeError
                   end))
        (λ _, bind (lift (solution_of σ f))
           (λ u, bind (lift (as_function u))
              (λ u, writer_write (WrittenFunction u t)))))
    (mkXDMFExport fn (Some log) fld mw) = (Ok (), self') →
  ∃ us, Forall2 (reads σ) fields us ∧
        self' = mkXDMFExport fn (Some (log ++ map (λ u, WrittenFunction u t) us)) fld mw.
Proof.
  revert log. induction fields as [|f fields IH]; intros log; simpl.
  - intros [= <-]. exists []. split; [constructor | by rewrite app_nil_r].
  - unfold bind at 1 2 3 4, lift, solution_of. simpl.
    destruct (σ !! f) as [s|] eqn:Hs; [|done].
    destruct (post_processing_solution s) as [u|] eqn:Hu; [|done]. simpl.
    intros (us & HF & ->)%IH. exists (u :: us). split.
    + constructor; [by exists s | done].
    + simpl. by rewrite <- app_assoc.
Qed.

(** A call to [write] once the mesh has been written. *)
Lemma xdmf_write_later σ t fn fields log self' :
  write σ t (mkXDMFExport fn (Some log) (Some fields) true) = (Ok (), self') →
  ∃ block, call_block fields (σ, t) block ∧
           self' = mkXDMFExport fn (Some (log ++ block)) (Some fields) true.
Proof.
  unfold write, bind at 1 2 3, get, when, lift, ret, field. simpl.
  intros Hloop.
  apply (write_functions σ t fn (Some fields) true fields log log) in Hloop
    as (us & HF & ->).
  exists (map (λ u, WrittenFunction u t) us). split; [by exists us | done].
Qed.

(** The first call to [write]: the mesh of the first field, then the
    functions. *)
Lemma xdmf_write_first σ t fn fields self' :
  write σ t (mkXDMFExport fn (Some []) (Some fields) false) = (Ok (), self') →
  ∃ f0 u block,
    fields !! 0%nat = Some f0 ∧ reads σ f0 u ∧
    call_block fields (σ, t) block ∧
    self' = mkXDMFExport fn (Some (WrittenMesh (fn_mesh u) :: block)) (Some fields) true.
Proof.
  unfold write, bind at 1 2, get, when, field. simpl.
  unfold bind at 1 2 3 4 5, lift. simpl.
  destruct fields as [|f0 fields]; [done|].
  change (index (f0 :: fields) 0) with (Ok f0 : result ref). simpl.
  unfold solution_of at 1. destruct (σ !! f0) as [s|] eqn:Hs; [|done].
  destruct (post_processing_solution s) as [u|] eqn:Hu; [|done]. simpl.
  unfold bind at 1, lift. simpl.
  intros Hloop.
  apply (write_functions σ t fn (Some (f0 :: fields)) true (f0 :: fields) []
           [WrittenMesh (fn_mesh u)]) in Hloop as (us & HF & ->).
  exists f0, u, (map (λ u, WrittenFunction u t) us). split_and!; [done| |by exists us|done].
  by exists s.
Qed.

(** Calls after the first one only append functions to the file. *)
Lemma xdmf_writes_later fn fields calls log self' :
  writes calls (mkXDMFExport fn (Some log) (Some fields) true) = (Ok (), self') →
  ∃ blocks, Forall2 (call_block fields) calls blocks ∧
            self' = mkXDMFExport fn (Some (log ++ concat blocks)) (Some fields) true.
Proof.
  revert log. induction calls as [|[σ t] calls IH]; intros log.
  - intros [= <-]. exists []. split; [constructor | by rewrite app_nil_r].
  - unfold writes. simpl. unfold bind at 1.
    destruct (write σ t _) as [[[]|e] s1] eqn:Hw; [|done].
    apply xdmf_write_later in Hw as (block & Hblock & ->).
    intros (blocks & HF & ->)%IH. exists (block :: blocks). split.
    + by constructor.
    + simpl. by rewrite <- app_assoc.
Qed.

(** A run that succeeds from a fresh writer. *)
Lemma writes_from_fresh fn fields calls self' :
  calls ≠ [] →
  writes calls (mkXDMFExport fn (Some []) (Some fields) false) = (Ok (), self') →
  ∃ m blocks,
    first_mesh fields calls m ∧
    Forall2 (call_block fields) calls blocks ∧
    self' = mkXDMFExport fn (Some (WrittenMesh m :: concat blocks)) (Some fields) true.
Proof.
  destruct calls as [|[σ t] calls]; [done|]. intros _.
  unfold writes. simpl. unfold bind at 1.
  destruct (write σ t _) as [[[]|e] s1] eqn:Hw; [|done].
  apply xdmf_write_first in Hw as (f0 & u & block & Hf0 & Hu & Hblock & ->).
  intros (blocks & HF & ->)%xdmf_writes_later.
  exists (fn_mesh u), (block :: blocks). split_and!.
  - by exists (σ, t), calls, f0, u.
  - by constructor.
  - done.
Qed.

(** C10. After [define_writer], in a run of calls to [write] the mesh is
    written exactly once, by the first call and before anything else, and
    every call writes the post-processing solution of each listed field
    exactly once, in order, at its time [t]: after any number of calls the
    file holds the mesh followed by these functions call by call. *)
Theorem writes_trace fn v self0 calls self' :
  init fn v = (Ok (), self0) →
  bind define_writer (λ _, writes calls) self0 = (Ok (), self') →
  ∀ before after, calls = before ++ after → before ≠ [] →
    ∃ fields m blocks self1,
      _field self0 = Some fields ∧
      first_mesh fields before m ∧
      Forall2 (call_block fields) before blocks ∧
      bind define_writer (λ _, writes before) self0 = (Ok (), self1) ∧
      _writer self1 = Some (WrittenMesh m :: concat blocks) ∧
      _mesh_written self1 = true ∧
      writes after self1 = (Ok (), self').
Proof.
  intros Hinit Hrun before after -> Hne.
  assert (∃ fields, self0 = mkXDMFExport fn None (Some fields) false) as [fields ->].
  { unfold init, field_setter, bind at 1 2, lift in Hinit.
    destruct (match v with
              | VSpecies r => Ok [r]
              | VList items => comprehension as_species items
              | _ => Raise TypeError
              end) as [refs|e]; [|done].
    simpl in Hinit. injection Hinit as <-. by exists refs. }
  unfold bind at 1, define_writer in Hrun. simpl in Hrun.
  unfold writes in Hrun. rewrite for_each_app in Hrun. unfold bind in Hrun.
  destruct (for_each before _ _) as [[[]|e] self1] eqn:Hbefore; [|done].
  destruct (writes_from_fresh fn fields before self1 Hne Hbefore)
    as (m & blocks & Hm & HF & ->).
  eexists fields, m, blocks, _.
  split; [done|]. split; [done|]. split; [done|].
  split; [unfold bind, define_writer; simpl; exact Hbefore|].
  simpl. split_and!; [done | done | exact Hrun].
Qed.

Lemma writes_trace_witness :
  ∃ self0 self',
    init "test.xdmf" (VList [VSpecies 0%nat; VSpecies 1%nat]) = (Ok (), self0) ∧
    bind define_writer (λ _, writes xdmf_calls) self0 = (Ok (), self') ∧
    _writer self' =
      Some [WrittenMesh "unit_cube";
            WrittenFunction (mkFunction "H_0" "unit_cube") (0 # 1);
            WrittenFunction (mkFunction "D_0" "unit_cube") (0 # 1);
            WrittenFunction (mkFunction "H_1" "unit_cube") (1 # 1);
            WrittenFunction (mkFunction "D_1" "unit_cube") (1 # 1)].
Proof.
  destruct (init "test.xdmf" (VList [VSpecies 0%nat; VSpecies 1%nat]))
    as [r0 self0] eqn:Hinit.
  assert (r0 = Ok ()) as -> by (vm_compute in Hinit; congruence).
  destruct (bind define_writer (λ _, writes xdmf_calls) self0) as [r self'] eqn:Hrun.
  assert (r = Ok () ∧
          _writer self' =
            Some [WrittenMesh "unit_cube";
                  WrittenFunction (mkFunction "H_0" "unit_cube") (0 # 1);
                  WrittenFunction (mkFunction "D_0" "unit_cube") (0 # 1);
                  WrittenFunction (mkFunction "H_1" "unit_cube") (1 # 1);
                  WrittenFunction (mkFunction "D_1" "unit_cube") (1 # 1)]) as [-> Hlog].
  { vm_compute in Hinit. injection Hinit as <-. vm_compute in Hrun.
    injection Hrun as <- <-. done. }
  exists self0, self'. split_and!; [done | done |].
  destruct (writes_trace "test.xdmf" (VList [VSpecies 0%nat; VSpecies 1%nat]) self0
              xdmf_calls self' Hinit Hrun xdmf_calls [] eq_refl)
    as (fields & m & blocks & self1 & _ & _ & _ & _ & Hw & _ & Hafter).
  - done.
  - injection Hafter as <-. rewrite Hw in Hlog |- *. exact Hlog.
Defined.

End XDMFFacts.

(** * Further properties *)

(** ** Reductions over a subdomain: edge cases and bounds *)

Module ExtremaExtra.
Import Ufl PostProcessing PostProcessingSpec PyFacts ExtremaFacts DerivedFacts Examples.

Ltac bind_step H x Hx := apply bind_Ok in H as (x & Hx & H).

(** A minimum that is returned is below the value at every marked dof. *)
Lemma minimum_below u subdomains subd_id m d w :
  calculate_minimum_volume (Fn u) subdomains subd_id = Ok m →
  marked_dof u subdomains subd_id d →
  fn_vector u !! d = Some w →
  (m <= w)%Q.
Proof.
  unfold calculate_minimum_volume. simpl. intros Hrun Hd Hw.
  bind_step Hrun dofs Hdofs. bind_step Hrun values Hvals.
  apply take_indices_Ok in Hvals.
  destruct values as [|v vs]; [done|]. injection Hrun as <-.
  apply foldl_Qmin_lower. eapply Forall2_values_of; [exact Hvals| |exact Hw].
  by apply (subd_dofs_Ok _ _ _ _ Hdofs).
Qed.

Lemma maximum_above u subdomains subd_id M d w :
  calculate_maximum_volume (Fn u) subdomains subd_id = Ok M →
  marked_dof u subdomains subd_id d →
  fn_vector u !! d = Some w →
  (w <= M)%Q.
Proof.
  unfold calculate_maximum_volume. simpl. intros Hrun Hd Hw.
  bind_step Hrun dofs Hdofs. bind_step Hrun values Hvals.
  apply take_indices_Ok in Hvals.
  destruct values as [|v vs]; [done|]. injection Hrun as <-.
  apply foldl_Qmax_upper. eapply Forall2_values_of; [exact Hvals| |exact Hw].
  by apply (subd_dofs_Ok _ _ _ _ Hdofs).
Qed.

Lemma SubsetIterator_nil subdomains subd_id :
  (∀ c, subdomains !! c ≠ Some subd_id) → SubsetIterator subdomains subd_id = [].
Proof.
  intros Hno. destruct (SubsetIterator subdomains subd_id) as [|c l] eqn:Hl; [done|].
  destruct (Hno c). apply elem_of_SubsetIterator. rewrite Hl. apply list_elem_of_here.
Qed.

(** X1. When no cell carries the subdomain id, both reductions raise
    [ValueError] (there is nothing to stack), whatever the function. *)
Theorem extrema_of_unmarked_volume u subdomains subd_id :
  (∀ c, subdomains !! c ≠ Some subd_id) →
  calculate_maximum_volume (Fn u) subdomains subd_id = Raise ValueError ∧
  calculate_minimum_volume (Fn u) subdomains subd_id = Raise ValueError.
Proof.
  intros Hno%SubsetIterator_nil.
  unfold calculate_maximum_volume, calculate_minimum_volume, subd_dofs. simpl.
  by rewrite Hno.
Qed.

Lemma extrema_of_unmarked_volume_witness :
  calculate_maximum_volume (Fn two_cell_function) [1; 2] 7 = Raise ValueError ∧
  calculate_minimum_volume (Fn two_cell_function) [1; 2] 7 = Raise ValueError.
Proof.
  apply extrema_of_unmarked_volume.
  intros c Hc. pose proof (lookup_lt_Some _ _ _ Hc) as Hlt.
  destruct c as [|[|c]]; simpl in *; [congruence | congruence | lia].
Defined.

(** X2. Whenever both reductions return for the same function, markers and
    id, the minimum is at most the maximum. *)
Theorem minimum_le_maximum function subdomains subd_id m M :
  calculate_minimum_volume function subdomains subd_id = Ok m →
  calculate_maximum_volume function subdomains subd_id = Ok M →
  (m <= M)%Q.
Proof.
  unfold calculate_minimum_volume, calculate_maximum_volume. intros Hmin Hmax.
  bind_step Hmin u Hu. bind_step Hmax u' Hu'. rewrite Hu in Hu'. injection Hu' as <-.
  bind_step Hmin dofs Hdofs. bind_step Hmax dofs' Hdofs'.
  rewrite Hdofs in Hdofs'. injection Hdofs' as <-.
  bind_step Hmin values Hvals. bind_step Hmax values' Hvals'.
  rewrite Hvals in Hvals'. injection Hvals' as <-.
  destruct values as [|v vs]; [done|].
  injection Hmin as <-. injection Hmax as <-.
  eapply Qle_trans.
  - apply (foldl_Qmin_lower vs v v). apply list_elem_of_here.
  - apply (foldl_Qmax_upper vs v v). apply list_elem_of_here.
Qed.

Lemma minimum_le_maximum_witness :
  ∃ m M,
    calculate_minimum_volume (Fn two_cell_function) [1; 2] 1 = Ok m ∧
    calculate_maximum_volume (Fn two_cell_function) [1; 2] 1 = Ok M ∧
    (m <= M)%Q.
Proof.
  exists (1 # 1)%Q, (3 # 1)%Q.
  assert (Hmin : calculate_minimum_volume (Fn two_cell_function) [1; 2] 1 = Ok (1 # 1)%Q)
    by (vm_compute; reflexivity).
  assert (Hmax : calculate_maximum_volume (Fn two_cell_function) [1; 2] 1 = Ok (3 # 1)%Q)
    by (vm_compute; reflexivity).
  split; [exact Hmin|]. split; [exact Hmax|].
  exact (minimum_le_maximum _ _ _ _ _ Hmin Hmax).
Defined.

Lemma retention_at_sum us d a r :
  foldl (λ acc u, a ← acc; v ← fn_vector u !! d; Some (a + v)%Q) (Some a) us = Some r →
  ∃ ws, Forall2 (λ u w, fn_vector u !! d = Some w) us ws ∧ r = foldl Qplus a ws.
Proof.
  revert a. induction us as [|u us IH]; intros a; simpl.
  - intros [= <-]. exists []. split; [constructor | done].
  - destruct (fn_vector u !! d) as [w|] eqn:Hw; simpl.
    + intros (ws & HF & ->)%IH. exists (w :: ws). split; [by constructor | done].
    + intros Hnone. exfalso. clear -Hnone.
      induction us as [|u' us IH]; simpl in Hnone; [done | by apply IH].
Qed.

Lemma foldl_Qplus_le ms ws a b :
  Forall2 Qle ms ws → (a <= b)%Q → (foldl Qplus a ms <= foldl Qplus b ws)%Q.
Proof.
  intros HF. revert a b. induction HF as [|m w ms ws Hmw _ IH]; intros a b Hab; simpl.
  - done.
  - apply IH. by apply Qplus_le_compat.
Qed.

Section Bounds.
Context `{Backend}.

(** X3. The value reported for a minimum_volume request on 'retention' is a
    lower bound, and the one reported for a maximum_volume request an upper
    bound, of the retention (the sum of the mobile and trapped fields) at
    every dof of the marked cells. *)
Theorem reported_retention_bounds parameters solutions markers properties exports d tab
    i q fld vol us vm dof r v :
  par_exports parameters = Some exports →
  exp_derived_quantities exports = Some d →
  derived_quantities parameters solutions markers properties = Ok tab →
  requests d !! i = Some (mkRequest q fld vol) →
  str_field fld = "retention" →
  slice_to_end_minus solutions 2 = map Fn us →
  index markers 0 = Ok vm →
  (∀ u, u ∈ us → marked_dof u vm vol dof) →
  retention_at us dof = Some r →
  tab !! i = Some v →
  (q = MinimumVolume → (v <= r)%Q) ∧ (q = MaximumVolume → (r <= v)%Q).
Proof.
  intros Hexp Hd Hrun Hreq Hret Hus Hvm Hmarked Hr Hv.
  destruct (derived_quantities_requests _ _ _ _ _ _ _ Hexp Hd Hrun) as (cx & Hcx & HF).
  destruct (Forall2_lookup_l _ _ _ _ _ HF Hreq) as (v' & Hv' & Hval).
  rewrite Hv in Hv'. injection Hv' as <-.
  apply context_of_fields in Hcx as (_ & Hvm' & Hsols).
  rewrite Hvm in Hvm'. injection Hvm' as Hvm'.
  unfold request_value in Hval. simpl in Hval.
  rewrite Hret, Hsols, Hus, <- Hvm' in Hval. simpl in Hval.
  apply retention_at_sum in Hr as (ws & Hws & ->).
  split; intros ->.
  - apply accumulate_loop in Hval as (ms & HFm & ->).
    apply foldl_Qplus_le; [|apply Qle_refl].
    apply Forall2_fmap_l in HFm. clear -HFm Hws Hmarked.
    revert ms HFm. induction Hws as [|u w us ws Hw _ IH]; intros ms HFm.
    + apply Forall2_nil_inv_l in HFm as ->. constructor.
    + inversion HFm as [|? m ? ms' Hm HFm']; subst. constructor.
      * eapply minimum_below; [exact Hm| |exact Hw]. apply Hmarked, list_elem_of_here.
      * apply IH; [|done]. intros u' Hu'. by apply Hmarked, list_elem_of_further.
  - apply accumulate_loop in Hval as (ms & HFm & ->).
    apply foldl_Qplus_le; [|apply Qle_refl].
    apply Forall2_fmap_l in HFm. clear -HFm Hws Hmarked.
    revert ms HFm. induction Hws as [|u w us ws Hw _ IH]; intros ms HFm.
    + apply Forall2_nil_inv_l in HFm as ->. constructor.
    + inversion HFm as [|? m ? ms' Hm HFm']; subst. constructor.
      * eapply maximum_above; [exact Hm| |exact Hw]. apply Hmarked, list_elem_of_here.
      * apply IH; [|done]. intros u' Hu'. by apply Hmarked, list_elem_of_further.
Qed.

End Bounds.

Lemma reported_retention_bounds_witness :
  ∃ tab v r,
    derived_quantities (H := example_backend) retention_extrema_parameters
      example_solutions [[1]; [1; 2]] [None; None; None] = Ok tab ∧
    tab !! 0%nat = Some v ∧
    retention_at [mobile; trapped] 0 = Some r ∧
    (v <= r)%Q.
Proof.
  destruct (derived_quantities (H := example_backend) retention_extrema_parameters
              example_solutions [[1]; [1; 2]] [None; None; None])
    as [tab|e] eqn:Hrun; [|by vm_compute in Hrun].
  destruct (tab !! 0%nat) as [v|] eqn:Hv.
  2:{ vm_compute in Hrun. injection Hrun as <-. discriminate Hv. }
  exists tab, v, (0 + 0 + 1)%Q. split_and!; [done | done | reflexivity |].
  refine (proj1 (reported_retention_bounds (H := example_backend)
            retention_extrema_parameters example_solutions [[1]; [1; 2]]
            [None; None; None] (mkExports (Some retention_extrema_dict) None)
            retention_extrema_dict tab 0 MinimumVolume (FieldStr "retention") 1
            [mobile; trapped] [1] 0%nat (0 + 0 + 1)%Q v
            eq_refl eq_refl Hrun _ eq_refl eq_refl eq_refl _ eq_refl Hv) eq_refl).
  - vm_compute. reflexivity.
  - intros u Hu. exists 0%nat, [0; 1]%nat.
    rewrite !elem_of_cons in Hu. destruct Hu as [->|[->|Hu%elem_of_nil]]; [| |done].
    + split_and!; [done | done | apply list_elem_of_here].
    + split_and!; [done | done | apply list_elem_of_here].
Defined.

End ExtremaExtra.

(** ** Names of fields and the dictionaries built from them *)

Module FieldFacts.
Import Ufl PostProcessing PostProcessingSpec PostProcessingSpec2 PyFacts DerivedFacts Examples.
Local Open Scope Z_scope.

Ltac bind_step H x Hx := apply bind_Ok in H as (x & Hx & H).

Lemma pretty_N_char_digit x : is_digit_char (pretty_N_char x) = true.
Proof. unfold pretty_N_char. by repeat case_match. Qed.

Lemma pretty_N_go_numeric x s : starts_numeric s → starts_numeric (pretty_N_go x s).
Proof.
  revert s. induction (N.lt_wf_0 x) as [x _ IH]; intros s Hs.
  destruct (decide (x = 0)%N) as [->|Hx]; [by rewrite pretty_N_go_0|].
  rewrite pretty_N_go_step by lia. apply IH.
  - apply N.div_lt; lia.
  - simpl. left. apply pretty_N_char_digit.
Qed.

Lemma pretty_positive_numeric (p : positive) : starts_numeric (pretty p).
Proof.
  unfold pretty, pretty_positive, pretty, pretty_N. simpl.
  rewrite pretty_N_go_step by lia. apply pretty_N_go_numeric.
  simpl. left. apply pretty_N_char_digit.
Qed.

(** [str(n)] starts with a digit or a minus sign. *)
Lemma str_int_numeric z : starts_numeric (str_int z).
Proof.
  unfold str_int, pretty, pretty_Z. destruct z as [|p|p].
  - simpl. by left.
  - apply pretty_positive_numeric.
  - simpl. by right.
Qed.

Lemma str_int_ne z s : ¬ starts_numeric s → str_int z ≠ s.
Proof. intros Hs <-. apply Hs, str_int_numeric. Qed.

Lemma str_int_inj i j : str_int i = str_int j → i = j.
Proof. apply (inj (pretty : Z → string)). Qed.

Lemma index_Ok_lookup {A} (l : list A) (i : Z) x :
  0 ≤ i → index l i = Ok x → l !! Z.to_nat i = Some x.
Proof.
  intros Hi. unfold index. destruct (decide _); [|rewrite decide_False by lia; done].
  destruct (l !! Z.to_nat i); congruence.
Qed.

Lemma index_in_range {A} (l : list A) (i : Z) :
  0 ≤ i < Z.of_nat (length l) → ∃ x, index l i = Ok x ∧ l !! Z.to_nat i = Some x.
Proof.
  intros Hi. unfold index. rewrite decide_True by done.
  destruct (lookup_lt_is_Some_2 l (Z.to_nat i)) as [x Hx]; [lia|].
  exists x. by rewrite Hx.
Qed.

(** The loop that registers the traps under their numbers. *)
Lemma register_traps (solutions : list expr) (idx : list Z) (d0 d : gmap string expr) :
  for_ idx (λ i d, s ← index solutions i; Ok (<[str_int i := s]> d)) d0 = Ok d →
  (∀ key, (∀ i, i ∈ idx → key ≠ str_int i) → d !! key = d0 !! key) ∧
  (∀ i, i ∈ idx → ∃ s, index solutions i = Ok s ∧ d !! str_int i = Some s).
Proof.
  revert d0. induction idx as [|j idx IH]; intros d0; simpl.
  - intros [= <-]. split; [done | by intros i ?%elem_of_nil].
  - intros Hrun. bind_step Hrun d1 Hd1. bind_step Hd1 s Hs. injection Hd1 as <-.
    destruct (IH _ Hrun) as [Hother Hthese]. split.
    + intros key Hkey. rewrite Hother.
      * apply lookup_insert_ne. intros Heq. by apply (Hkey j); [apply list_elem_of_here|].
      * intros i Hi. apply Hkey. by apply list_elem_of_further.
    + intros i [->|Hi]%elem_of_cons; [|by apply Hthese].
      exists s. split; [done|].
      destruct (decide (j ∈ idx)) as [Hj|Hj].
      * destruct (Hthese j Hj) as (s' & Hs' & Hl). congruence.
      * rewrite Hother; [apply lookup_insert_eq|].
        intros i Hi ->%str_int_inj. done.
Qed.

(** The entries of the dictionary [field_to_sol]. *)
Lemma field_to_sol_entries (solutions : list expr) (fts : gmap string expr) :
  (2 ≤ length solutions)%nat →
  field_to_sol solutions = Ok fts →
  fts !! "solute" = solutions !! 0%nat ∧
  fts !! "retention" = solutions !! (length solutions - 2)%nat ∧
  fts !! "T" = solutions !! (length solutions - 1)%nat ∧
  (∀ i : Z, 1 ≤ i < Z.of_nat (length solutions) - 2 →
     fts !! str_int i = solutions !! Z.to_nat i) ∧
  (∀ key, is_Some (fts !! key) → registered (length solutions) key).
Proof.
  intros Hlen Hrun. unfold field_to_sol in Hrun.
  bind_step Hrun ret Hret. bind_step Hrun T HT. bind_step Hrun sol0 H0.
  apply index_Ok_lookup in Hret; [|lia]. apply index_Ok_lookup in HT; [|lia].
  apply index_Ok_lookup in H0; [|lia].
  replace (Z.to_nat (Z.of_nat (length solutions) - 2)) with (length solutions - 2)%nat
    in Hret by lia.
  replace (Z.to_nat (Z.of_nat (length solutions) - 1)) with (length solutions - 1)%nat
    in HT by lia.
  apply register_traps in Hrun as [Hother Hthese].
  assert (Hnamed : ∀ key, ¬ starts_numeric key →
            fts !! key = (<["T" := T]> (<["retention" := ret]> {["solute" := sol0]})
                          : gmap string expr) !! key).
  { intros key Hkey. apply Hother. intros i _ Heq.
    by apply (str_int_ne i key). }
  assert (Hname : ∀ s, starts_numeric s → is_digit_char
            match s with String c _ => c | EmptyString => Ascii.zero end = true ∨
            Ascii.nat_of_ascii match s with String c _ => c | EmptyString => Ascii.zero end
              = 45%nat).
  { intros [|c s]; simpl; [done | tauto]. }
  change (Z.to_nat 0) with 0%nat in H0. split_and!.
  - rewrite Hnamed; [|intros [?|?]%Hname; done].
    rewrite H0, !lookup_insert_ne by done. apply lookup_singleton_eq.
  - rewrite Hnamed; [|intros [?|?]%Hname; done].
    rewrite Hret, lookup_insert_ne by done. apply lookup_insert_eq.
  - rewrite Hnamed; [|intros [?|?]%Hname; done].
    rewrite HT. apply lookup_insert_eq.
  - intros i Hi. destruct (Hthese i) as (s & Hs & ->).
    { apply elem_of_seqZ. lia. }
    symmetry. apply index_Ok_lookup; [lia | done].
  - intros key [s Hs].
    destruct (decide (Exists (λ i, key = str_int i)
                        (seqZ 1 (Z.of_nat (length solutions) - 2 - 1))))
      as [(i & Hi & ->)%Exists_exists|Hno].
    + right. right. right. exists i. split; [|done]. apply elem_of_seqZ in Hi. lia.
    + rewrite Hother in Hs.
      * destruct (decide (key = "T")) as [->|?]; [by right; right; left|].
        rewrite lookup_insert_ne in Hs by done.
        destruct (decide (key = "retention")) as [->|?]; [by right; left|].
        rewrite lookup_insert_ne in Hs by done.
        destruct (decide (key = "solute")) as [->|?]; [by left|].
        by rewrite lookup_singleton_ne in Hs.
      * intros i Hi ->. apply Hno, Exists_exists. by exists i.
Qed.

(** X4. In the dictionary [field_to_sol] built by [derived_quantities] from
    a list of [n] solutions, 'solute' is the first solution, 'retention' the
    one before last, 'T' the last one, and [str(i)] is solution [i] for
    [1 <= i < n-2]; no other name is registered, so in particular '0' is
    not. *)
Theorem field_to_sol_lookup (solutions : list expr) (fts : gmap string expr) :
  (2 ≤ length solutions)%nat →
  field_to_sol solutions = Ok fts →
  fts !! "solute" = solutions !! 0%nat ∧
  fts !! "retention" = solutions !! (length solutions - 2)%nat ∧
  fts !! "T" = solutions !! (length solutions - 1)%nat ∧
  (∀ i : Z, 1 ≤ i < Z.of_nat (length solutions) - 2 →
     fts !! str_int i = solutions !! Z.to_nat i) ∧
  (∀ key, is_Some (fts !! key) → registered (length solutions) key) ∧
  fts !! "0" = None.
Proof.
  intros Hlen Hrun.
  destruct (field_to_sol_entries solutions fts Hlen Hrun) as (H0 & Hret & HT & Hi & Hreg).
  split_and!; try done.
  destruct (fts !! "0") as [u|] eqn:Hzero; [|done].
  destruct (Hreg "0") as [Hk|[Hk|[Hk|(i & Hrange & Hk)]]]; try done.
  change "0" with (str_int 0) in Hk. apply str_int_inj in Hk. lia.
Qed.

Lemma field_to_sol_lookup_witness :
  ∃ fts,
    field_to_sol example_solutions = Ok fts ∧
    fts !! "solute" = Some (Fn mobile) ∧
    fts !! "1" = Some (Fn trapped) ∧
    fts !! "0" = None.
Proof.
  destruct (field_to_sol example_solutions) as [fts|e] eqn:Hrun;
    [|by vm_compute in Hrun].
  destruct (field_to_sol_lookup example_solutions fts) as (H0 & _ & _ & Hi & _ & Hz).
  - simpl. lia.
  - exact Hrun.
  - exists fts. split_and!; [done | exact H0 | | exact Hz].
    apply (Hi 1). simpl. lia.
Defined.

Section Resolution.
Context `{Backend}.

Lemma context_of_props parameters solutions markers properties cx :
  context_of parameters solutions markers properties = Ok cx →
  ∃ D thermal_cond,
    index properties 0 = Ok D ∧ index properties 1 = Ok thermal_cond ∧
    cx_field_to_prop cx = field_to_prop D thermal_cond.
Proof.
  unfold context_of. intros Hcx.
  bind_step Hcx D HD. bind_step Hcx thermal_cond Htc.
  bind_step Hcx sq Hsq. destruct sq as [soret Q_soret].
  bind_step Hcx vm Hvm. bind_step Hcx sm Hsm.
  bind_step Hcx T HT. bind_step Hcx fts Hfts.
  injection Hcx as <-. by exists D, thermal_cond.
Qed.

Lemma getitem_Ok {V} (d : gmap string V) k v : getitem d k = Ok v ↔ d !! k = Some v.
Proof. unfold getitem. destruct (d !! k); split; congruence. Qed.

(** A request that got a value has a field found in [field_to_sol]. *)
Lemma request_value_field cx r v :
  request_value cx r = Ok v →
  str_field (rq_field r) = "retention" ∨
  is_Some (cx_field_to_sol cx !! str_field (rq_field r)).
Proof.
  unfold request_value. destruct (rq_quantity r); simpl.
  - intros Hv. bind_step Hv sol Hsol. right. apply getitem_Ok in Hsol. by exists sol.
  - intros Hv. bind_step Hv sol Hsol. right. apply getitem_Ok in Hsol. by exists sol.
  - case_bool_decide; [by left|].
    intros Hv. bind_step Hv sol Hsol. right. apply getitem_Ok in Hsol. by exists sol.
  - case_bool_decide; [by left|].
    intros Hv. bind_step Hv sol Hsol. right. apply getitem_Ok in Hsol. by exists sol.
  - intros Hv. bind_step Hv sol Hsol. right. apply getitem_Ok in Hsol. by exists sol.
  - intros Hv. bind_step Hv sol Hsol. right. apply getitem_Ok in Hsol. by exists sol.
Qed.

(** X5. [derived_quantities] returns only if the field of every request is
    one of 'solute', 'retention', 'T' or the number of a trap
    ([1 <= i < n-2] for [n] solutions): any other field makes it raise. *)
Theorem requested_fields_registered parameters solutions markers properties exports d tab :
  (2 ≤ length solutions)%nat →
  par_exports parameters = Some exports →
  exp_derived_quantities exports = Some d →
  derived_quantities parameters solutions markers properties = Ok tab →
  ∀ r, r ∈ requests d → registered (length solutions) (str_field (rq_field r)).
Proof.
  intros Hlen Hexp Hd Hrun r [k Hk]%list_elem_of_lookup.
  destruct (derived_quantities_requests _ _ _ _ _ _ _ Hexp Hd Hrun) as (cx & Hcx & HF).
  destruct (Forall2_lookup_l _ _ _ _ _ HF Hk) as (v & _ & Hval).
  apply context_of_fields in Hcx as (Hfts & _ & _).
  destruct (field_to_sol_entries solutions _ Hlen Hfts) as (_ & _ & _ & _ & Hreg).
  destruct (request_value_field cx r v Hval) as [->|Hsome].
  - right. by left.
  - by apply Hreg.
Qed.

(** X6. An entry whose field is the integer 0 passes the checks of
    [check_keys_derived_quantities], yet [derived_quantities] never returns
    when a request names the field 0: the mobile field is registered as
    'solute' only. *)
Theorem field_zero_checked_but_unknown :
  (∀ traps e,
     e_field e = Some (FieldInt 0) →
     is_Some (e_surfaces e) ∨ is_Some (e_volumes e) →
     check_entry traps e = Ok ()) ∧
  (∀ parameters solutions markers properties exports d tab,
     (2 ≤ length solutions)%nat →
     par_exports parameters = Some exports →
     exp_derived_quantities exports = Some d →
     derived_quantities parameters solutions markers properties = Ok tab →
     ∀ r, r ∈ requests d → str_field (rq_field r) ≠ "0").
Proof.
  split.
  - intros traps e Hfld Hids. unfold check_entry. rewrite Hfld.
    rewrite decide_False by lia. simpl.
    destruct Hids as [[? ->]|[? ->]]; [done|]. by destruct (e_surfaces e).
  - intros parameters solutions markers properties exports d tab Hlen Hexp Hd Hrun r Hr.
    apply list_elem_of_lookup in Hr as [k Hk].
    destruct (derived_quantities_requests _ _ _ _ _ _ _ Hexp Hd Hrun) as (cx & Hcx & HF).
    destruct (Forall2_lookup_l _ _ _ _ _ HF Hk) as (v & _ & Hval).
    apply context_of_fields in Hcx as (Hfts & _ & _).
    destruct (field_to_sol_entries solutions _ Hlen Hfts) as (_ & _ & _ & _ & Hreg).
    destruct (request_value_field cx r v Hval) as [->|Hsome]; [done|].
    destruct (Hreg _ Hsome) as [Hf|[Hf|[Hf|(i & Hi & Hf)]]]; rewrite Hf; try done.
    change "0" with (str_int 0). intros Heq%str_int_inj. lia.
Qed.

(** X7. [derived_quantities] returns only if every surface_flux request is
    for 'solute', with a diffusion coefficient given, or for 'T', with a
    thermal conductivity given: it never returns the flux of a trap or of
    the retention. *)
Theorem surface_flux_fields parameters solutions markers properties exports d tab :
  par_exports parameters = Some exports →
  exp_derived_quantities exports = Some d →
  derived_quantities parameters solutions markers properties = Ok tab →
  ∀ r, r ∈ requests d → rq_quantity r = SurfaceFlux →
    (str_field (rq_field r) = "solute" ∧ ∃ D, index properties 0 = Ok (Some D)) ∨
    (str_field (rq_field r) = "T" ∧ ∃ k, index properties 1 = Ok (Some k)).
Proof.
  intros Hexp Hd Hrun r [k Hk]%list_elem_of_lookup Hq.
  destruct (derived_quantities_requests _ _ _ _ _ _ _ Hexp Hd Hrun) as (cx & Hcx & HF).
  destruct (Forall2_lookup_l _ _ _ _ _ HF Hk) as (v & _ & Hval).
  apply context_of_props in Hcx as (D & tc & HD & Htc & Hftp).
  unfold request_value in Hval. rewrite Hq, Hftp in Hval. simpl in Hval.
  bind_step Hval sol Hsol. bind_step Hval prop Hprop.
  apply getitem_Ok in Hprop. unfold field_to_prop in Hprop.
  assert (∃ p, prop = Some p) as [p ->].
  { unfold surface_flux_value in Hval. destruct prop as [p|]; [by exists p | done]. }
  destruct (decide (str_field (rq_field r) = "T")) as [HT|HT].
  - right. split; [done|]. rewrite HT, lookup_insert_eq in Hprop.
    injection Hprop as ->. by exists p.
  - left. rewrite lookup_insert_ne in Hprop by done.
    destruct (decide (str_field (rq_field r) = "solute")) as [Hs|Hs].
    + split; [done|]. rewrite Hs, lookup_singleton_eq in Hprop.
      injection Hprop as ->. by exists p.
    + by rewrite lookup_singleton_ne in Hprop.
Qed.

End Resolution.

Lemma requested_fields_registered_witness :
  ∃ tab,
    derived_quantities (H := example_backend) example_parameters example_solutions
      [[1]; [1; 2]] [Some (UserExpression "D"); None; None] = Ok tab ∧
    ∀ r, r ∈ requests example_dict →
         registered (length example_solutions) (str_field (rq_field r)).
Proof.
  destruct (derived_quantities (H := example_backend) example_parameters
              example_solutions [[1]; [1; 2]] [Some (UserExpression "D"); None; None])
    as [tab|e] eqn:Hrun; [|by vm_compute in Hrun].
  exists tab. split; [done|].
  apply (requested_fields_registered (H := example_backend) example_parameters
           example_solutions [[1]; [1; 2]] [Some (UserExpression "D"); None; None]
           (mkExports (Some example_dict) None) example_dict tab).
  - simpl. lia.
  - reflexivity.
  - reflexivity.
  - exact Hrun.
Defined.

Lemma field_zero_checked_but_unknown_witness :
  check_entry (H := example_backend) []
    (mkEntry (Some (FieldInt 0)) None (Some [1])) = Ok ().
Proof.
  apply (proj1 (field_zero_checked_but_unknown (H := example_backend))).
  - reflexivity.
  - right. by exists [1].
Defined.

Lemma surface_flux_fields_witness :
  ∃ tab,
    derived_quantities (H := example_backend) example_parameters example_solutions
      [[1]; [1; 2]] [Some (UserExpression "D"); None; None] = Ok tab ∧
    ∀ r, r ∈ requests example_dict → rq_quantity r = SurfaceFlux →
      (str_field (rq_field r) = "solute" ∧
       ∃ D, index [Some (UserExpression "D"); None; None] 0 = Ok (Some D)) ∨
      (str_field (rq_field r) = "T" ∧
       ∃ k, index [Some (UserExpression "D"); None; None] 1 = Ok (Some k)).
Proof.
  destruct (derived_quantities (H := example_backend) example_parameters
              example_solutions [[1]; [1; 2]] [Some (UserExpression "D"); None; None])
    as [tab|e] eqn:Hrun; [|by vm_compute in Hrun].
  exists tab. split; [done|].
  apply (surface_flux_fields (H := example_backend) example_parameters
           example_solutions [[1]; [1; 2]] [Some (UserExpression "D"); None; None]
           (mkExports (Some example_dict) None) example_dict tab).
  - reflexivity.
  - reflexivity.
  - exact Hrun.
Defined.

End FieldFacts.

(** ** The checks on the derived-quantities dict *)

Module CheckFacts.
Import Ufl PostProcessing PostProcessingSpec PostProcessingSpec2 PyFacts DerivedFacts Examples.
Local Open Scope Z_scope.

Ltac bind_step H x Hx := apply bind_Ok in H as (x & Hx & H).





Section Checks.
Context `{Backend}.




End Checks.


End CheckFacts.

(** ** One post-processing step: solutions, exports and files *)

Module StepFacts.
Import Ufl PostProcessing PostProcessingSpec PostProcessingSpec2 PyFacts DerivedFacts.
Import HTransportFacts FieldFacts Examples.
Local Open Scope Z_scope.

Ltac bind_step H x Hx := apply bind_Ok in H as (x & Hx & H).

(** [field_to_sol] is defined on every list of at least two solutions. *)
Lemma field_to_sol_total (solutions : list expr) :
  (2 ≤ length solutions)%nat → is_Ok (field_to_sol solutions).
Proof.
  intros Hlen. unfold field_to_sol.
  destruct (index_in_range solutions (Z.of_nat (length solutions) - 2))
    as (ret & -> & _); [lia|].
  destruct (index_in_range solutions (Z.of_nat (length solutions) - 1))
    as (T & -> & _); [lia|].
  destruct (index_in_range solutions 0) as (sol0 & -> & _); [lia|]. simpl.
  destruct (for_total (λ _ : gmap string expr, True)
              (λ i (d : gmap string expr), s ← index solutions i; Ok (<[str_int i := s]> d))
              (seqZ 1 (Z.of_nat (length solutions) - 2 - 1))
              (<["T" := T]> (<["retention" := ret]> {["solute" := sol0]})))
    as (d & Hd & _); [done| |by exists d].
  intros i d Hi%elem_of_seqZ _.
  destruct (index_in_range solutions i) as (s & -> & _); [lia|]. by eexists.
Qed.

Section Step.
Context `{Backend}.

(** The list handed to [derived_quantities]: components, retention,
    temperature. *)
Lemma solutions_list_Ok simulation res :
  solutions_list simulation = Ok res →
  ∃ comps,
    res = comps ++ [py_sum comps; sim_T simulation] ∧
    length comps = length (components_of (sim_u simulation)) ∧
    tail comps = tail (components_of (sim_u simulation)) ∧
    (if sim_chemical_pot simulation
     then ∃ theta rest S,
            components_of (sim_u simulation) = theta :: rest ∧
            sim_S simulation = Some S ∧
            comps = (if sim_need_projecting_solute simulation
                     then Fn (project (Product theta S))
                     else Product theta S) :: rest
     else comps = components_of (sim_u simulation)).
Proof.
  unfold solutions_list. fold (components_of (sim_u simulation)).
  intros Hrun. bind_step Hrun comps Hcomps. injection Hrun as <-.
  exists comps. split; [by rewrite <- app_assoc|].
  destruct (sim_chemical_pot simulation).
  - bind_step Hcomps r0 Hr0. bind_step Hcomps solute Hsol.
    unfold set_first in Hcomps.
    destruct (components_of (sim_u simulation)) as [|c cs]; [done|].
    injection Hcomps as <-. split_and!; [done..|].
    change (index (c :: cs) 0) with (Ok c : result expr) in Hr0. injection Hr0 as <-.
    unfold change_of_variable in Hsol. bind_step Hsol product HS.
    unfold mul_by_opt in HS. destruct (sim_S simulation) as [S|]; [|done].
    injection HS as <-. exists c, cs, S. split_and!; [done..|].
    destruct (sim_need_projecting_solute simulation); by injection Hsol as <-.
  - by injection Hcomps as <-.
Qed.

(** X9. In every post-processing step that builds its list of solutions,
    the list is the components of the solution followed by their sum and
    the temperature, the first component being replaced, under the change
    of variable, by its product with [S], projected when the simulation
    needs it; and the names used by [derived_quantities] are bound as
    follows: 'solute' is the first element of the list, 'T' the temperature
    of the simulation, 'retention' the sum of the components, and [str(i)]
    for [i >= 1] the component number [i] of the solution. *)
Theorem step_field_names simulation res :
  solutions_list simulation = Ok res →
  ∃ comps fts,
    res = comps ++ [py_sum comps; sim_T simulation] ∧
    (if sim_chemical_pot simulation
     then ∃ theta rest S,
            components_of (sim_u simulation) = theta :: rest ∧
            sim_S simulation = Some S ∧
            comps = (if sim_need_projecting_solute simulation
                     then Fn (project (Product theta S))
                     else Product theta S) :: rest
     else comps = components_of (sim_u simulation)) ∧
    field_to_sol res = Ok fts ∧
    fts !! "solute" = head res ∧
    fts !! "T" = Some (sim_T simulation) ∧
    fts !! "retention" = Some (py_sum comps) ∧
    (∀ i : nat, (1 ≤ i < length comps)%nat →
       fts !! str_int (Z.of_nat i) = components_of (sim_u simulation) !! i).
Proof.
  intros Hrun. apply solutions_list_Ok in Hrun as (comps & -> & Hlen & Htail & Hcomps).
  assert (Hl : length (comps ++ [py_sum comps; sim_T simulation])
               = (length comps + 2)%nat) by (rewrite length_app; simpl; lia).
  destruct (field_to_sol_total (comps ++ [py_sum comps; sim_T simulation]))
    as [fts Hfts]; [lia|].
  assert (Hge : (2 ≤ length (comps ++ [py_sum comps; sim_T simulation]))%nat) by lia.
  destruct (field_to_sol_entries _ fts Hge Hfts) as (H0 & Hret & HT & Hi & _).
  exists comps, fts. split_and!; [done..| | | |].
  - rewrite H0. by rewrite head_lookup.
  - rewrite HT, Hl. replace (length comps + 2 - 1)%nat with (length comps + 1)%nat by lia.
    rewrite lookup_app_r by lia.
    by replace (length comps + 1 - length comps)%nat with 1%nat by lia.
  - rewrite Hret, Hl. replace (length comps + 2 - 2)%nat with (length comps + 0)%nat by lia.
    rewrite lookup_app_r by lia.
    by replace (length comps + 0 - length comps)%nat with 0%nat by lia.
  - intros i Hirange. rewrite Hi by lia. rewrite Nat2Z.id.
    rewrite lookup_app_l by lia.
    destruct i as [|i]; [lia|].
    rewrite <- !lookup_tail. by rewrite Htail.
Qed.

End Step.

Lemma step_field_names_witness :
  ∃ res fts,
    solutions_list (H := example_backend) full_simulation = Ok res ∧
    res = [Fn (project (Backend := example_backend)
                 (Product (Fn mobile) (UserExpression "S")));
           Fn trapped;
           Sum (Fn (project (Backend := example_backend)
                      (Product (Fn mobile) (UserExpression "S"))))
               (Fn trapped);
           Fn temperature_field] ∧
    field_to_sol res = Ok fts ∧
    fts !! "solute" = Some (Fn (project (Backend := example_backend)
                                  (Product (Fn mobile) (UserExpression "S")))) ∧
    fts !! "T" = Some (Fn temperature_field) ∧
    fts !! "1" = Some (Fn trapped).
Proof.
  destruct (solutions_list (H := example_backend) full_simulation)
    as [res|e] eqn:Hrun; [|by vm_compute in Hrun].
  destruct (step_field_names (H := example_backend) full_simulation res Hrun)
    as (comps & fts & Hres & Hcomps & Hfts & Hsolute & HT & _ & Hi).
  simpl in Hcomps. destruct Hcomps as (theta & rest & S & [= <- <-] & [= <-] & ->).
  exists res, fts. subst res. split_and!; [done | done | done | exact Hsolute | exact HT |].
  apply (Hi 1%nat). simpl. lia.
Defined.

Section Exports.
Context `{Backend}.

(** The loop over the exports: every export is kept in place, the due ones
    are written, in order, and get [append] set. *)
Lemma export_loop simulation exports ltf0 seen0 io0 ltf1 seen1 io1 :
  for_ exports (export_body simulation) (ltf0, seen0, io0) = Ok (ltf1, seen1, io1) →
  seen1 = seen0 ++ map (after_step simulation) exports ∧
  ∃ events,
    io1 = io0 ++ events ∧
    Forall2 (written_by (sim_t simulation)) (due_exports simulation exports) events.
Proof.
  revert ltf0 seen0 io0. induction exports as [|e exports IH]; intros ltf0 seen0 io0.
  - simpl. intros [= <- <- <-]. split; [by rewrite app_nil_r|].
    exists []. split; [by rewrite app_nil_r | constructor].
  - simpl. intros Hrun. bind_step Hrun st Hst. destruct st as [[ltf seen] io].
    destruct (IH _ _ _ Hrun) as (-> & events & -> & HF). clear IH Hrun.
    assert ((seen = seen0 ++ [after_step simulation e]) ∧
            ∃ evs, io = io0 ++ evs ∧
                   Forall2 (written_by (sim_t simulation))
                     (due_exports simulation [e]) evs) as (-> & evs & -> & HF0).
    { unfold export_body in Hst. unfold due_exports, after_step, xdmf_due. simpl.
      destruct e as [x|]; simpl.
      - destruct (_ || _); simpl.
        + bind_step Hst r Hr. unfold mod_ in Hr.
          destruct (decide _) as [|Hnz]; [done|]. injection Hr as <-.
          case_bool_decide as Hdiv.
          * bind_step Hst ltf' Hltf. bind_step Hst u Hu. injection Hst as <- <- <-.
            split; [done|]. eexists [_]. split; [done|].
            constructor; [|constructor]. by eexists.
          * injection Hst as <- <- <-. split; [done|].
            exists []. split; [by rewrite app_nil_r | constructor].
        + injection Hst as <- <- <-. split; [done|].
          exists []. split; [by rewrite app_nil_r | constructor].
      - injection Hst as <- <- <-. split; [done|].
        exists []. split; [by rewrite app_nil_r | constructor]. }
    split; [by rewrite <- app_assoc|].
    exists (evs ++ events). split; [by rewrite app_assoc|].
    change (Forall2 (written_by (sim_t simulation))
              (due_exports simulation (e :: exports)) (evs ++ events)).
    assert (due_exports simulation (e :: exports)
            = due_exports simulation [e] ++ due_exports simulation exports) as ->.
    { unfold due_exports. simpl. destruct e as [x|]; [|done].
      by destruct (xdmf_due simulation x). }
    by apply Forall2_app.
Qed.

(** X10. A post-processing step that returns keeps the list of exports as
    it is, in the same order, except that the XDMF exports that are due at
    this step have [append] set: those whose time condition holds (not
    [last_time_step_only], or [t >= final_time]) when the iteration number is
    a multiple of [nb_iterations_between_exports]. *)
Theorem exports_after_step simulation simulation' rows dt :
  run_post_processing simulation = Ok (simulation', (rows, dt)) →
  sim_exports simulation' = map (after_step simulation) (sim_exports simulation).
Proof.
  unfold run_post_processing. intros Hrun.
  bind_step Hrun ltf Hltf. bind_step Hrun res Hres.
  bind_step Hrun exports Hexp.
  bind_step Hrun dqio Hdq. destruct dqio as [rows' io].
  bind_step Hrun st Hloop. destruct st as [[ltf' seen] io'].
  bind_step Hrun dtio Htxt. destruct dtio as [dt' io''].
  injection Hrun as <- <- <-. simpl.
  by apply export_loop in Hloop as [-> _].
Qed.

(** X11. The files written by a post-processing step that returns, in
    order: the CSV of derived quantities, holding the returned list of rows
    (the row of this step included), when derived quantities are requested
    and [is_export_derived_quantities] says so; then one XDMF write per due
    export, in the order of the exports, at the time of the step; then the
    profiles when 'txt' is requested. Nothing else is written. *)
Theorem files_written_by_step simulation simulation' rows dt :
  run_post_processing simulation = Ok (simulation', (rows, dt)) →
  ∃ exports csv xdmf txt,
    par_exports (sim_parameters simulation) = Some exports ∧
    sim_io simulation' = sim_io simulation ++ csv ++ xdmf ++ txt ∧
    csv = match exp_derived_quantities exports,
                is_export_derived_quantities simulation with
          | Some _, Ok true => [CsvWritten rows]
          | _, _ => []
          end ∧
    Forall2 (written_by (sim_t simulation))
      (due_exports simulation (sim_exports simulation)) xdmf ∧
    txt = match exp_txt exports with
          | Some _ => [ProfilesExported (sim_t simulation)]
          | None => []
          end.
Proof.
  unfold run_post_processing. intros Hrun.
  bind_step Hrun ltf Hltf. bind_step Hrun res Hres.
  bind_step Hrun exports Hexp. apply required_Ok in Hexp.
  bind_step Hrun dqio Hdq. destruct dqio as [rows' io].
  bind_step Hrun st Hloop. destruct st as [[ltf' seen] io'].
  bind_step Hrun dtio Htxt. destruct dtio as [dt' io''].
  injection Hrun as <- <- <-. simpl.
  apply export_loop in Hloop as (_ & xdmf & -> & HF).
  exists exports.
  assert (∃ csv, io = sim_io simulation ++ csv ∧
            csv = match exp_derived_quantities exports,
                        is_export_derived_quantities simulation with
                  | Some _, Ok true => [CsvWritten rows']
                  | _, _ => []
                  end) as (csv & -> & Hcsv).
  { destruct (exp_derived_quantities exports) as [d|].
    - bind_step Hdq r Hr. bind_step Hdq rows'' Hrows. bind_step Hdq b Hb.
      rewrite Hb. destruct b.
      + bind_step Hdq u Hu. injection Hdq as <- <-.
        eexists. split; done.
      + injection Hdq as <- <-. exists []. split; [by rewrite app_nil_r | done].
    - injection Hdq as <- <-. exists []. split; [by rewrite app_nil_r | done]. }
  assert (∃ txt, io'' = (sim_io simulation ++ csv ++ xdmf) ++ txt ∧
            txt = match exp_txt exports with
                  | Some _ => [ProfilesExported (sim_t simulation)]
                  | None => []
                  end)
    as (txt & -> & Htxt').
  { destruct (exp_txt exports) as [u|].
    - bind_step Htxt dt1 Hdt1. injection Htxt as <- <-.
      eexists. split; [by rewrite <- !app_assoc | done].
    - injection Htxt as <- <-. exists []. split; [by rewrite app_nil_r, <- !app_assoc | done]. }
  exists csv, xdmf, txt. split_and!; [done | by rewrite <- !app_assoc | done..].
Qed.

End Exports.

Lemma exports_after_step_witness :
  ∃ simulation' rows dt,
    run_post_processing (H := example_backend) full_simulation
      = Ok (simulation', (rows, dt)) ∧
    sim_exports simulation' =
      [ExportXDMF (mkXDMFLegacy true "retention" false);
       ExportOther;
       ExportXDMF (mkXDMFLegacy false "solute" true);
       ExportXDMF (mkXDMFLegacy false "retention" true)].
Proof.
  destruct (run_post_processing (H := example_backend) full_simulation)
    as [[simulation' [rows dt]]|e] eqn:Hrun; [|by vm_compute in Hrun].
  exists simulation', rows, dt. split; [done|].
  rewrite (exports_after_step (H := example_backend) full_simulation
             simulation' rows dt Hrun).
  reflexivity.
Defined.

Lemma files_written_by_step_witness :
  ∃ simulation' rows dt functions1 functions2,
    run_post_processing (H := example_backend) full_simulation
      = Ok (simulation', (rows, dt)) ∧
    sim_io simulation' =
      [CsvWritten rows;
       XdmfWritten "solute" functions1 (1 # 2);
       XdmfWritten "retention" functions2 (1 # 2);
       ProfilesExported (1 # 2)].
Proof.
  destruct (run_post_processing (H := example_backend) full_simulation)
    as [[simulation' [rows dt]]|e] eqn:Hrun; [|by vm_compute in Hrun].
  destruct (files_written_by_step (H := example_backend) full_simulation
              simulation' rows dt Hrun)
    as (exports & csv & xdmf & txt & Hexp & Hio & -> & Hxdmf & ->).
  injection Hexp as <-.
  change (due_exports full_simulation (sim_exports full_simulation))
    with [mkXDMFLegacy false "solute" false; mkXDMFLegacy false "retention" false]
    in Hxdmf.
  apply Forall2_cons_inv_l in Hxdmf as (ev1 & xdmf' & [functions1 ->] & Hxdmf & ->).
  apply Forall2_cons_inv_l in Hxdmf as (ev2 & xdmf'' & [functions2 ->] & Hxdmf & ->).
  apply Forall2_nil_inv_l in Hxdmf as ->.
  exists simulation', rows, dt, functions1, functions2. split; [done|].
  rewrite Hio. reflexivity.
Defined.

End StepFacts.

(** ** Markers of the hydrogen transport problem: order and accumulation *)

Module MarkerFacts.
Import HTransport HTransportSpec PyFacts HTransportFacts Examples.

Ltac bind_step H x Hx := apply bind_Ok in H as (x & Hx & H).

Section Markers.
Context `{Geometry}.

(** What a call that returns has computed. *)
Lemma define_markers_and_measures_Ok self self' :
  define_markers_and_measures self = Ok self' →
  ∃ m st,
    mesh self = Some m ∧
    for_ (subdomains self) (mark_subdomain self m (topology_dim m))
         (mkMarkerState [] [] (volume_subdomains self) (replicate (num_cells m) 0)) = Ok st ∧
    self' = with_markers self (st_volume_subdomains st)
              (mkMeshTags (Z.of_nat (topology_dim m) - 1)
                 (st_dofs_facets st) (st_tags_facets st))
              (mkMeshTags (Z.of_nat (topology_dim m))
                 (seqZ 0 (Z.of_nat (num_cells m))) (st_tags_volumes st))
              (mkMeasure "ds" (mkMeshTags (Z.of_nat (topology_dim m) - 1)
                                 (st_dofs_facets st) (st_tags_facets st)))
              (mkMeasure "dx" (mkMeshTags (Z.of_nat (topology_dim m))
                                 (seqZ 0 (Z.of_nat (num_cells m))) (st_tags_volumes st))).
Proof.
  unfold define_markers_and_measures. intros Hrun.
  bind_step Hrun m Hm. destruct (mesh self) as [m'|]; [|done]. injection Hm as ->.
  bind_step Hrun st Hst. bind_step Hrun dofs Hdofs. bind_step Hrun tags Htags.
  apply comprehension_int32 in Hdofs as ->, Htags as ->.
  injection Hrun as <-. by exists m, st.
Qed.

(** The tag of a cell is the id of the last listed volume subdomain that
    contains it. *)
Lemma mark_loop_last self m st :
  for_ (subdomains self) (mark_subdomain self m (topology_dim m))
       (mkMarkerState [] [] (volume_subdomains self) (replicate (num_cells m) 0)) = Ok st →
  ∀ c before s after,
    subdomains self = before ++ s :: after →
    located_in m c s →
    (∀ s', s' ∈ after → ¬ located_in m c s') →
    st_tags_volumes st !! c = Some (subdomain_id s).
Proof.
  apply (for_invariant (λ pre st,
    ∀ c before s after,
      pre = before ++ s :: after →
      located_in m c s →
      (∀ s', s' ∈ after → ¬ located_in m c s') →
      st_tags_volumes st !! c = Some (subdomain_id s))).
  - intros c before s after Hnil. by destruct before.
  - intros pre x st0 st1 IH Hstep c before s after Hpre Hloc Hafter.
    destruct after as [|a after _] using rev_ind.
    + apply app_inj_tail in Hpre as [-> ->].
      destruct Hloc as [Hvol Hc]. unfold mark_subdomain in Hstep.
      destruct s as [id x|id borders material|id]; try done. simpl in Hstep.
      bind_step Hstep tags Htags. injection Hstep as <-. simpl.
      apply assign_at_Ok in Htags as (_ & _ & Htags). by apply Htags.
    + rewrite app_comm_cons, app_assoc in Hpre.
      apply app_inj_tail in Hpre as [-> ->].
      assert (st_tags_volumes st0 !! c = Some (subdomain_id s)) as Hold.
      { apply (IH c before s after eq_refl Hloc).
        intros s' Hs'. apply Hafter, elem_of_app. by left. }
      assert (¬ located_in m c a) as Hna.
      { apply Hafter, elem_of_app. right. apply list_elem_of_here. }
      unfold mark_subdomain in Hstep.
      destruct a as [id x|id borders material|id]; simpl in Hstep.
      * bind_step Hstep st' Hst'. bind_step Hst' V HV. injection Hst' as <-.
        by injection Hstep as <-.
      * bind_step Hstep tags Htags. injection Hstep as <-. simpl.
        apply assign_at_Ok in Htags as (_ & _ & Htags).
        destruct (Htags c) as [_ Hout]. rewrite Hout; [done|].
        intros Hc. apply Hna. by split.
      * by injection Hstep as <-.
Qed.

(** X12. Where listed volume subdomains overlap, the later one wins: after
    [define_markers_and_measures] a cell carries the id of the last
    subdomain of the list whose located entities contain it. *)
Theorem last_volume_subdomain_wins self self' vt m c before s after :
  mesh self = Some m →
  define_markers_and_measures self = Ok self' →
  volume_meshtags self' = Some vt →
  subdomains self = before ++ s :: after →
  located_in m c s →
  (∀ s', s' ∈ after → ¬ located_in m c s') →
  tagged vt (Z.of_nat c) (subdomain_id s).
Proof.
  intros Hm Hrun Hvt Hsplit Hloc Hafter.
  apply define_markers_and_measures_Ok in Hrun as (m' & st & Hm' & Hst & ->).
  rewrite Hm in Hm'. injection Hm' as <-.
  simpl in Hvt. injection Hvt as <-.
  pose proof (mark_loop_last self m st Hst c before s after Hsplit Hloc Hafter) as Htag.
  apply mark_loop in Hst as (Hlen & _).
  exists c. simpl. split; [|done].
  apply lookup_seqZ. apply lookup_lt_Some in Htag. lia.
Qed.

(** The facet arrays list the surface subdomains, in order. *)
Lemma mark_loop_facets self m V st :
  function_space self = Some V →
  for_ (subdomains self) (mark_subdomain self m (topology_dim m))
       (mkMarkerState [] [] (volume_subdomains self) (replicate (num_cells m) 0)) = Ok st →
  st_dofs_facets st
    = map (λ s, locate_dof s V) (filter (λ s, is_surface s = true) (subdomains self)) ∧
  st_tags_facets st
    = map subdomain_id (filter (λ s, is_surface s = true) (subdomains self)).
Proof.
  intros HV.
  apply (for_invariant (λ pre st,
    st_dofs_facets st = map (λ s, locate_dof s V) (filter (λ s, is_surface s = true) pre) ∧
    st_tags_facets st = map subdomain_id (filter (λ s, is_surface s = true) pre))).
  - done.
  - intros pre x st0 st1 [Hd Ht] Hstep. unfold mark_subdomain in Hstep.
    rewrite filter_app, !map_app.
    destruct x as [id x|id borders material|id]; simpl in Hstep.
    + rewrite filter_cons_True, filter_nil by done.
      rewrite HV in Hstep. simpl in Hstep. injection Hstep as <-. simpl.
      by rewrite Hd, Ht.
    + rewrite filter_cons_False, filter_nil by done.
      bind_step Hstep tags Htags. injection Hstep as <-. simpl.
      by rewrite !app_nil_r.
    + rewrite filter_cons_False, filter_nil by done.
      injection Hstep as <-. simpl. by rewrite !app_nil_r.
Qed.

(** X13. The facet tags built by [define_markers_and_measures] list the
    surface subdomains of the problem in their order: entry [k] pairs the
    dof located for the [k]-th surface subdomain with its id; volume and
    other subdomains contribute nothing. *)
Theorem facet_tags_follow_surfaces self self' V ft :
  function_space self = Some V →
  define_markers_and_measures self = Ok self' →
  facet_meshtags self' = Some ft →
  mt_indices ft
    = map (λ s, locate_dof s V) (filter (λ s, is_surface s = true) (subdomains self)) ∧
  mt_values ft
    = map subdomain_id (filter (λ s, is_surface s = true) (subdomains self)).
Proof.
  intros HV Hrun Hft.
  apply define_markers_and_measures_Ok in Hrun as (m & st & Hm & Hst & ->).
  simpl in Hft. injection Hft as <-. simpl.
  by apply (mark_loop_facets self m V st HV).
Qed.

(** X14. [define_markers_and_measures] appends to [volume_subdomains]
    without clearing it: calling it a second time lists every volume
    subdomain of the problem twice. *)
Theorem volume_subdomains_accumulate self self1 self2 :
  define_markers_and_measures self = Ok self1 →
  define_markers_and_measures self1 = Ok self2 →
  volume_subdomains self2 =
    volume_subdomains self
      ++ filter (λ s, is_volume s = true) (subdomains self)
      ++ filter (λ s, is_volume s = true) (subdomains self).
Proof.
  intros Hrun1 Hrun2.
  apply define_markers_and_measures_Ok in Hrun1 as (m & st & Hm & Hst & ->).
  apply define_markers_and_measures_Ok in Hrun2 as (m' & st' & Hm' & Hst' & ->).
  apply mark_loop in Hst as (_ & _ & _ & Hvols & _).
  apply mark_loop in Hst' as (_ & _ & _ & Hvols' & _).
  simpl in *. rewrite Hvols', Hvols. by rewrite <- app_assoc.
Qed.

End Markers.

Lemma last_volume_subdomain_wins_witness :
  ∃ self' vt,
    define_markers_and_measures (H := example_geometry) overlapping_problem = Ok self' ∧
    volume_meshtags self' = Some vt ∧
    tagged vt 1 4.
Proof.
  destruct (define_markers_and_measures (H := example_geometry) overlapping_problem)
    as [self'|e] eqn:Hrun; [|by vm_compute in Hrun].
  destruct (volume_meshtags self') as [vt|] eqn:Hvt.
  2:{ vm_compute in Hrun. injection Hrun as <-. discriminate Hvt. }
  exists self', vt. split_and!; [done..|].
  apply (last_volume_subdomain_wins (H := example_geometry) overlapping_problem self' vt
           example_mesh 1
           [VolumeSubdomain1D 3 (0 # 1, 1 # 1)%Q tungsten]
           (VolumeSubdomain1D 4 (0 # 1, 1 # 1)%Q tungsten) []).
  - reflexivity.
  - exact Hrun.
  - exact Hvt.
  - reflexivity.
  - split; [done|]. unfold example_mesh. simpl. rewrite !elem_of_cons. auto.
  - intros s' Hs'. by apply elem_of_nil in Hs'.
Defined.

Lemma facet_tags_follow_surfaces_witness :
  ∃ self' ft,
    define_markers_and_measures (H := example_geometry) one_species_with_space = Ok self' ∧
    facet_meshtags self' = Some ft ∧
    mt_indices ft = [0; 3] ∧ mt_values ft = [1; 2].
Proof.
  destruct (define_markers_and_measures (H := example_geometry) one_species_with_space)
    as [self'|e] eqn:Hrun; [|by vm_compute in Hrun].
  destruct (facet_meshtags self') as [ft|] eqn:Hft.
  2:{ vm_compute in Hrun. injection Hrun as <-. discriminate Hft. }
  exists self', ft. split_and!; [done..| |].
  - rewrite (proj1 (facet_tags_follow_surfaces (H := example_geometry)
                      one_species_with_space self' (space_on example_mesh) ft
                      eq_refl Hrun Hft)).
    by vm_compute.
  - rewrite (proj2 (facet_tags_follow_surfaces (H := example_geometry)
                      one_species_with_space self' (space_on example_mesh) ft
                      eq_refl Hrun Hft)).
    by vm_compute.
Defined.

Lemma volume_subdomains_accumulate_witness :
  ∃ self1 self2,
    define_markers_and_measures (H := example_geometry) one_species_with_space = Ok self1 ∧
    define_markers_and_measures (H := example_geometry) self1 = Ok self2 ∧
    length (volume_subdomains self2) = 2%nat.
Proof.
  destruct (define_markers_and_measures (H := example_geometry) one_species_with_space)
    as [self1|e] eqn:Hrun1; [|by vm_compute in Hrun1].
  destruct (define_markers_and_measures (H := example_geometry) self1)
    as [self2|e] eqn:Hrun2.
  2:{ vm_compute in Hrun1. injection Hrun1 as <-. by vm_compute in Hrun2. }
  exists self1, self2. split_and!; [done..|].
  rewrite (volume_subdomains_accumulate (H := example_geometry)
             one_species_with_space self1 self2 Hrun1 Hrun2).
  by vm_compute.
Defined.

Section Guards.
Context `{Geometry}.

(** X15. For a problem with a mesh and markable subdomains, [initialise]
    raises [NotImplementedError] whenever there is more than one species or
    more than one source, whatever the temperature. *)
Theorem initialise_rejects_many m subs spes T srcs :
  Forall (markable m (space_on m)) subs →
  (1 < length spes ∨ 1 < length srcs)%nat →
  initialise (init (Some m) subs spes T srcs) = Raise NotImplementedError.
Proof.
  intros Hmark Hmany. unfold initialise.
  change (define_function_space (init (Some m) subs spes T srcs))
    with (Ok (with_function_space (init (Some m) subs spes T srcs) (space_on m))).
  simpl.
  destruct (define_markers_and_measures_total
              (with_function_space (init (Some m) subs spes T srcs) (space_on m))
              m (space_on m)) as (vols & ft & vt & -> & Hvols); [done..|].
  simpl. unfold assign_functions_to_species. simpl.
  destruct (decide (1 < length spes)%nat) as [|Hspes]; [done|].
  destruct Hmany as [|Hsrcs]; [done|].
  destruct spes as [|spe [|spe' spes]]; simpl in *; [| |lia].
  - unfold create_formulation. simpl. by rewrite decide_True.
  - unfold create_formulation. simpl. by rewrite decide_True.
Qed.

End Guards.

Lemma initialise_rejects_many_witness :
  initialise (H := example_geometry)
    (init (Some example_mesh) example_subdomains [species_H; species_Trap] None [])
    = Raise NotImplementedError.
Proof.
  apply (initialise_rejects_many (H := example_geometry)).
  - unfold example_subdomains.
    assert (Hrange : ∀ z : Z, ((- 2 ^ 31 <=? z)%Z && (z <? 2 ^ 31)%Z) = true → in_int32 z).
    { intros z [? ?]%andb_prop. unfold in_int32. lia. }
    apply Forall_cons; split; [|apply Forall_cons; split; [|apply Forall_cons; split]].
    + split; [intros _; split; by apply Hrange | intros [=]].
    + split; [intros [=] | intros _; split; [by apply Hrange|]].
      intros e He%elem_of_seq. simpl in *. lia.
    + split; [intros _; split; by apply Hrange | intros [=]].
    + constructor.
  - left. simpl. lia.
Defined.

End MarkerFacts.

(** ** Surface quantities: calls that raise *)

Module SurfaceQuantityExtra.
Import Method MethodFacts SurfaceQuantity SurfaceQuantityFacts Examples.

(** X16. The setters accept an integer as surface and a string as field,
    but [write] then raises [AttributeError] when it builds the title, before
    touching the object or any file, with or without a file name. *)
Theorem write_needs_objects self fs t :
  sq_title self = None →
  (∃ z, sq_surface self = SurfaceInt z) ∨ (∃ s, sq_field self = FieldStr s) →
  write t (self, fs) = (Raise AttributeError, (self, fs)).
Proof.
  intros Htitle Hbad.
  destruct self as [fld srf fname ts data ttl first v0]. simpl in *. subst ttl.
  unfold write, bind, when, get, lift. simpl.
  destruct Hbad as [[z ->]|[s ->]]; [done|]. by destruct srf.
Qed.

Lemma write_needs_objects_witness :
  ∃ self,
    init (FieldStr "solute") (SurfaceInt 1) (Some "flux.csv") = Ok self ∧
    write (1 # 1) (self, old_files) = (Raise AttributeError, (self, old_files)).
Proof.
  destruct (init (FieldStr "solute") (SurfaceInt 1) (Some "flux.csv"))
    as [self|e] eqn:Hinit; [|by vm_compute in Hinit].
  exists self. split; [done|].
  apply write_needs_objects.
  - vm_compute in Hinit. by injection Hinit as <-.
  - left. exists 1. vm_compute in Hinit. by injection Hinit as <-.
Defined.

(** X17. If [write] is called before any value has been computed, the file
    is created with the header alone, the call raises [AttributeError], and
    the header is not written again: the next export step appends its row
    right after it. *)
Theorem write_before_compute name id fn self0 fs t c :
  init (FieldSpecies name) (SurfaceSubdomain id) (Some fn) = Ok self0 →
  ∃ self1 fs1 self2 fs2,
    write t (self0, fs) = (Raise AttributeError, (self1, fs1)) ∧
    fs1 !! fn = Some [header_row id name] ∧
    compute_and_write c (self1, fs1) = (Ok (), (self2, fs2)) ∧
    fs2 !! fn = Some [header_row id name; data_row c].
Proof.
  unfold init. intros Hinit.
  destruct (check_filename (Some fn)) as [fname|] eqn:Hname; [|done].
  apply check_filename_Ok in Hname as ->. injection Hinit as <-.
  destruct c as [t' v]. eexists _, _, _, _. split_and!.
  - unfold write, bind, when, get, lift, ret. simpl. reflexivity.
  - unfold files. by rewrite !lookup_insert_eq.
  - rewrite write_later. reflexivity.
  - unfold files. by rewrite !lookup_insert_eq.
Qed.

Lemma write_before_compute_witness :
  ∃ self0 self1 fs1 self2 fs2,
    init (FieldSpecies "H") (SurfaceSubdomain 1) (Some "flux.csv") = Ok self0 ∧
    write (0 # 1) (self0, old_files) = (Raise AttributeError, (self1, fs1)) ∧
    fs1 !! "flux.csv" = Some [header_row 1 "H"] ∧
    compute_and_write (1 # 1, 7 # 1)%Q (self1, fs1) = (Ok (), (self2, fs2)) ∧
    fs2 !! "flux.csv" = Some [header_row 1 "H"; data_row (1 # 1, 7 # 1)%Q].
Proof.
  destruct (init (FieldSpecies "H") (SurfaceSubdomain 1) (Some "flux.csv"))
    as [self0|e] eqn:Hinit; [|by vm_compute in Hinit].
  destruct (write_before_compute "H" 1 "flux.csv" self0 old_files (0 # 1)%Q
              (1 # 1, 7 # 1)%Q Hinit) as (self1 & fs1 & self2 & fs2 & H1 & H2 & H3 & H4).
  by exists self0, self1, fs1, self2, fs2.
Defined.

End SurfaceQuantityExtra.

(** ** More on the XDMF export *)

Module XDMFExtra.
Import Method MethodFacts XDMF XDMFSpec2 PyFacts Examples.

(** What [__init__] leaves when it returns. *)
Lemma xdmf_init_Ok fn v self0 :
  init fn v = (Ok (), self0) →
  ∃ fields, self0 = mkXDMFExport fn None (Some fields) false.
Proof.
  unfold init, field_setter, bind at 1 2, lift. intros Hinit.
  destruct (match v with
            | VSpecies r => Ok [r]
            | VList items => comprehension as_species items
            | _ => Raise TypeError
            end) as [refs|e]; [|done].
  simpl in Hinit. injection Hinit as <-. by exists refs.
Qed.

(** X18. Until [define_writer] has been called, a run of calls to [write]
    on a new export raises [AttributeError] at its first call and leaves the
    object as [__init__] built it. *)
Theorem write_needs_writer fn v self0 calls :
  init fn v = (Ok (), self0) →
  calls ≠ [] →
  writes calls self0 = (Raise AttributeError, self0).
Proof.
  intros (fields & ->)%xdmf_init_Ok Hne. destruct calls as [|[σ t] calls]; [done|].
  reflexivity.
Qed.

Lemma write_needs_writer_witness :
  ∃ self0,
    init "test.xdmf" (VList [VSpecies 0%nat; VSpecies 1%nat]) = (Ok (), self0) ∧
    writes xdmf_calls self0 = (Raise AttributeError, self0).
Proof.
  destruct (init "test.xdmf" (VList [VSpecies 0%nat; VSpecies 1%nat]))
    as [r0 self0] eqn:Hinit.
  assert (r0 = Ok ()) as -> by (vm_compute in Hinit; congruence).
  exists self0. split; [done|].
  apply (write_needs_writer "test.xdmf" (VList [VSpecies 0%nat; VSpecies 1%nat])
           self0 xdmf_calls Hinit).
  done.
Defined.

(** X19. The setter accepts the empty list; an export built with it raises
    [IndexError] at the first [write] after [define_writer], with nothing
    written and the mesh still marked as not written. *)
Theorem write_without_fields fn self0 calls :
  init fn (VList []) = (Ok (), self0) →
  calls ≠ [] →
  bind define_writer (λ _, writes calls) self0
    = (Raise IndexError, mkXDMFExport fn (Some []) (Some []) false).
Proof.
  intros [= <-] Hne. destruct calls as [|[σ t] calls]; [done|]. reflexivity.
Qed.

Lemma write_without_fields_witness :
  ∃ self0,
    init "test.xdmf" (VList []) = (Ok (), self0) ∧
    bind define_writer (λ _, writes xdmf_calls) self0
      = (Raise IndexError, mkXDMFExport "test.xdmf" (Some []) (Some []) false).
Proof.
  destruct (init "test.xdmf" (VList [])) as [r0 self0] eqn:Hinit.
  assert (r0 = Ok ()) as -> by (vm_compute in Hinit; congruence).
  exists self0. split; [done|].
  apply (write_without_fields "test.xdmf" self0 xdmf_calls Hinit). done.
Defined.

(** X20. [define_writer] does not reset [_mesh_written]: when the writer is
    defined again after a run that wrote, the new file receives the
    functions of the later calls and never the mesh. *)
Theorem second_writer_has_no_mesh fn v self0 calls1 self1 calls2 self2 :
  init fn v = (Ok (), self0) →
  calls1 ≠ [] →
  bind define_writer (λ _, writes calls1) self0 = (Ok (), self1) →
  bind define_writer (λ _, writes calls2) self1 = (Ok (), self2) →
  ∃ fields blocks,
    _field self0 = Some fields ∧
    Forall2 (call_block fields) calls2 blocks ∧
    _writer self2 = Some (concat blocks) ∧
    meshes (concat blocks) = 0%nat.
Proof.
  intros (fields & ->)%xdmf_init_Ok Hne Hrun1 Hrun2.
  unfold bind at 1, define_writer in Hrun1. simpl in Hrun1.
  apply XDMFFacts.writes_from_fresh in Hrun1 as (m & blocks1 & _ & _ & ->); [|done].
  unfold bind at 1, define_writer in Hrun2. simpl in Hrun2.
  apply XDMFFacts.xdmf_writes_later in Hrun2 as (blocks & HF & ->).
  exists fields, blocks. split_and!; [done..|].
  unfold meshes. clear -HF.
  induction HF as [|c block calls blocks (us & _ & ->) _ IH]; [done|].
  simpl. rewrite filter_app, length_app. rewrite IH.
  clear. induction us as [|u us IH]; [done|].
  simpl. by rewrite filter_cons_False.
Qed.

Lemma second_writer_has_no_mesh_witness :
  ∃ self0 self1 self2,
    init "test.xdmf" (VList [VSpecies 0%nat; VSpecies 1%nat]) = (Ok (), self0) ∧
    bind define_writer (λ _, writes xdmf_calls) self0 = (Ok (), self1) ∧
    bind define_writer (λ _, writes xdmf_calls) self1 = (Ok (), self2) ∧
    ∃ log, _writer self2 = Some log ∧ meshes log = 0%nat.
Proof.
  destruct (init "test.xdmf" (VList [VSpecies 0%nat; VSpecies 1%nat]))
    as [r0 self0] eqn:Hinit.
  assert (r0 = Ok ()) as -> by (vm_compute in Hinit; congruence).
  destruct (bind define_writer (λ _, writes xdmf_calls) self0) as [r1 self1] eqn:Hrun1.
  assert (r1 = Ok ()) as ->.
  { vm_compute in Hinit. injection Hinit as <-. vm_compute in Hrun1. congruence. }
  destruct (bind define_writer (λ _, writes xdmf_calls) self1) as [r2 self2] eqn:Hrun2.
  assert (r2 = Ok ()) as ->.
  { vm_compute in Hinit. injection Hinit as <-. vm_compute in Hrun1.
    injection Hrun1 as <-. vm_compute in Hrun2. congruence. }
  exists self0, self1, self2. split_and!; [done..|].
  destruct (second_writer_has_no_mesh "test.xdmf"
              (VList [VSpecies 0%nat; VSpecies 1%nat]) self0 xdmf_calls self1
              xdmf_calls self2 Hinit) as (fields & blocks & _ & _ & Hw & Hm);
    [done | done | done |].
  by exists (concat blocks).
Defined.

(** Whatever the loop of [write] over the fields does, it only appends
    functions to what the writer holds. *)
Lemma write_functions_any σ t w0 fn fld mw fields (log : list written) r self' :
  for_each fields (λ f,
      bind (lift (match w0 : option (list written) with
                   | Some _ => Ok ()
                   | None => Raise AttributeError
                   end))
        (λ _, bind (lift (solution_of σ f))
           (λ u, bind (lift (as_function u))
              (λ u, writer_write (WrittenFunction u t)))))
    (mkXDMFExport fn (Some log) fld mw) = (r, self') →
  ∃ us, self' = mkXDMFExport fn (Some (log ++ map (λ u, WrittenFunction u t) us)) fld mw.
Proof.
  revert log. induction fields as [|f fields IH]; intros log; simpl.
  - intros [= <- <-]. exists []. by rewrite app_nil_r.
  - unfold bind at 1 2 3 4, lift, solution_of. simpl.
    destruct w0 as [log0|]; simpl;
      [|intros [= <- <-]; exists []; by rewrite app_nil_r].
    destruct (σ !! f) as [s|] eqn:Hs;
      [|intros [= <- <-]; exists []; by rewrite app_nil_r].
    destruct (post_processing_solution s) as [u|] eqn:Hu; simpl;
      [|intros [= <- <-]; exists []; by rewrite app_nil_r].
    intros (us & ->)%IH. exists (u :: us). simpl. by rewrite <- app_assoc.
Qed.

Lemma meshes_app log1 log2 : meshes (log1 ++ log2) = (meshes log1 + meshes log2)%nat.
Proof. unfold meshes. by rewrite filter_app, length_app. Qed.

Lemma meshes_functions t us : meshes (map (λ u, WrittenFunction u t) us) = 0%nat.
Proof.
  unfold meshes. induction us as [|u us IH]; [done|].
  simpl. by rewrite filter_cons_False.
Qed.

Lemma write_mesh_once σ t self : mesh_once self → mesh_once (write σ t self).2.
Proof.
  destruct (write σ t self) as [r self'] eqn:Hw. revert Hw.
  destruct self as [fn [log|] fld mw]; unfold mesh_once; simpl.
  - intros Hw [Hle Hzero]. revert Hw. destruct mw.
    + unfold write, bind at 1 2, get, when, ret. simpl.
      unfold bind at 1, lift, field. simpl.
      destruct fld as [fields|]; simpl; [|by intros [= <- <-]].
      intros Hloop.
      apply (write_functions_any σ t (Some log)) in Hloop as (us & ->). simpl.
      rewrite meshes_app, meshes_functions. split; [lia | done].
    + specialize (Hzero eq_refl).
      unfold write, bind at 1 2, get, when. simpl.
      unfold bind at 1 2, lift, field. simpl.
      destruct fld as [fields|]; simpl; [|by intros [= <- <-]; split; [lia|]].
      unfold bind at 1. simpl.
      destruct (index fields 0) as [f0|e]; simpl; [|by intros [= <- <-]; split; [lia|]].
      unfold bind at 1. simpl.
      destruct (solution_of σ f0) as [u|e]; simpl; [|by intros [= <- <-]; split; [lia|]].
      unfold bind at 1. simpl.
      destruct (mesh_of u) as [m|e]; simpl; [|by intros [= <- <-]; split; [lia|]].
      unfold bind at 1 2. simpl.
      intros Hloop.
      apply (write_functions_any σ t (Some log)) in Hloop as (us & ->). simpl.
      rewrite !meshes_app, meshes_functions, Hzero. simpl. split; [lia | done].
  - intros Hw _. revert Hw. destruct mw.
    + unfold write, bind at 1 2, get, when, ret. simpl.
      unfold bind at 1, lift, field. simpl.
      destruct fld as [[|f fields]|]; simpl; by intros [= <- <-].
    + by intros [= <- <-].
Qed.

Lemma carry_on_mesh_once ops self : mesh_once self → mesh_once (carry_on ops self).
Proof.
  unfold carry_on. revert self. induction ops as [|o ops IH]; intros self Hinv; [done|].
  simpl. apply IH. destruct o as [|σ t].
  - destruct self as [fn w fld mw]. unfold mesh_once. simpl.
    change (meshes []) with 0%nat. split; [lia | done].
  - by apply write_mesh_once.
Qed.

(** X21. Over any sequence of calls to [define_writer] and [write] on a
    new export, carried on whatever each call raises, the file of the
    current writer never holds the mesh more than once. *)
Theorem mesh_written_at_most_once fn v self0 ops log :
  init fn v = (Ok (), self0) →
  _writer (carry_on ops self0) = Some log →
  (meshes log ≤ 1)%nat.
Proof.
  intros (fields & ->)%xdmf_init_Ok Hlog.
  assert (Hinv : mesh_once (carry_on ops (mkXDMFExport fn None (Some fields) false))).
  { by apply carry_on_mesh_once. }
  unfold mesh_once in Hinv. rewrite Hlog in Hinv. by destruct Hinv.
Qed.

Lemma mesh_written_at_most_once_witness :
  ∃ self0 log,
    init "test.xdmf" (VList [VSpecies 0%nat; VSpecies 1%nat]) = (Ok (), self0) ∧
    _writer (carry_on [Write (species_store "H_0" "D_0") (0 # 1); DefineWriter;
                       Write (species_store "H_0" "D_0") (0 # 1);
                       Write ∅ (1 # 1);
                       Write (species_store "H_2" "D_2") (2 # 1)] self0) = Some log ∧
    (meshes log ≤ 1)%nat.
Proof.
  destruct (init "test.xdmf" (VList [VSpecies 0%nat; VSpecies 1%nat]))
    as [r0 self0] eqn:Hinit.
  assert (r0 = Ok ()) as -> by (vm_compute in Hinit; congruence).
  destruct (_writer (carry_on [Write (species_store "H_0" "D_0") (0 # 1); DefineWriter;
                               Write (species_store "H_0" "D_0") (0 # 1);
                               Write ∅ (1 # 1);
                               Write (species_store "H_2" "D_2") (2 # 1)] self0))
    as [log|] eqn:Hlog.
  - exists self0, log. split_and!; [done..|].
    exact (mesh_written_at_most_once _ _ _ _ _ Hinit Hlog).
  - vm_compute in Hinit. injection Hinit as <-. by vm_compute in Hlog.
Defined.

End XDMFExtra.

(** ** The TXT export *)

Module TXTExportFacts.
Import Method MethodFacts TXTExport PyFacts.

#[local] Instance Qle_total : Total Qle.
Proof.
  intros x y. destruct (Qlt_le_dec x y) as [Hlt|Hle]; [left; by apply Qlt_le_weak | by right].
Qed.

#[local] Instance Qle_transitive : Transitive Qle.
Proof. intros x y z. apply Qle_trans. Qed.

Lemma existsb_elem_of {A} (f : A → bool) l :
  existsb f l = true ↔ ∃ x, x ∈ l ∧ f x = true.
Proof.
  rewrite existsb_exists. split; intros (x & Hx & Hf); exists x; split; try done;
    by apply list_elem_of_In.
Qed.

Lemma txt_init_Ok field fn ts wal hf self :
  init field fn ts wal hf = Ok self →
  ∃ ts' name,
    self = mkTXTExport field ts' name wal hf None ∧
    match ts with
    | Some ((_ :: _) as l) => ts' = Some (sorted l)
    | _ => ts' = ts
    end.
Proof.
  unfold init. destruct (check_filename fn) as [name|e]; [|done]. simpl.
  intros [= <-]. eexists _, name. split; [done|]. by destruct ts as [[|x l]|].
Qed.

Lemma index_last {A} (l : list A) m : last l = Some m → index l (-1) = Ok m.
Proof.
  rewrite last_lookup. intros Hm. unfold index.
  assert (0 < length l)%nat by (apply lookup_lt_Some in Hm; destruct l; simpl in *; lia).
  rewrite decide_False by lia. rewrite decide_True by lia.
  replace (Z.to_nat (Z.of_nat (length l) + -1)) with (pred (length l)) by lia.
  by rewrite Hm.
Qed.

Lemma StronglySorted_last l m :
  StronglySorted Qle l → last l = Some m → ∀ x, x ∈ l → (x <= m)%Q.
Proof.
  induction 1 as [|a l Hl IH Ha]; [done|].
  destruct l as [|b l].
  - intros [= <-] x ->%list_elem_of_singleton. apply Qle_refl.
  - change (last (a :: b :: l)) with (last (b :: l)). intros Hm x [->|Hx]%elem_of_cons.
    + rewrite Forall_forall in Ha. apply Ha. rewrite last_lookup in Hm.
      by apply list_elem_of_lookup_2 in Hm.
    + by apply IH.
Qed.

Lemma take_indices_profile sol idx column :
  Np.take_indices sol idx = Ok column ↔ profile sol idx column.
Proof.
  unfold Np.take_indices, profile. rewrite comprehension_Ok.
  split; intros HF; (eapply Forall2_impl; [exact HF|]); intros i v; apply index_nat_Ok.
Qed.

Lemma profile_unique sol idx column1 column2 :
  profile sol idx column1 → profile sol idx column2 → column1 = column2.
Proof.
  unfold profile. intros H1. revert column2.
  induction H1 as [|i v idx column1 Hv _ IH]; intros column2 H2.
  - by apply Forall2_nil_inv_l in H2.
  - apply Forall2_cons_inv_l in H2 as (v' & column2' & Hv' & H2 & ->).
    rewrite Hv in Hv'. injection Hv' as <-. f_equal. by apply IH.
Qed.


Section Times.
Context `{Host}.

(** X22. After [__init__], [is_it_time_to_export] answers [True] at every
    time when no export times were given, and otherwise exactly at the
    times that [np.isclose] finds close to one of the given times: with the
    empty list, never. *)
Theorem export_times field fn ts wal hf self t :
  init field fn ts wal hf = Ok self →
  is_it_time_to_export self t = true ↔
    match ts with
    | None => True
    | Some l => ∃ time, time ∈ l ∧ isclose time t = true
    end.
Proof.
  intros (ts' & name & -> & Hts)%txt_init_Ok. unfold is_it_time_to_export. simpl.
  destruct ts as [[|x l]|]; subst ts'.
  - simpl. split; [done|]. by intros (time & ?%elem_of_nil & _).
  - rewrite existsb_elem_of. unfold sorted.
    split; intros (time & Hin & Hclose); exists time; split; try done.
    + by rewrite merge_sort_Permutation in Hin.
    + by rewrite merge_sort_Permutation.
  - done.
Qed.

(** X23. When export times are given, [is_last] looks at the greatest of
    them only: in a transient run it answers whether the current time is
    close to it, whatever the final time; with the empty list it raises
    [IndexError]. *)
Theorem is_last_with_times field fn ts wal hf self :
  init field fn (Some ts) wal hf = Ok self →
  match ts with
  | [] => ∀ t final_time, is_last self t (Some final_time) = Raise IndexError
  | _ => ∃ m, m ∈ ts ∧ (∀ x, x ∈ ts → (x <= m)%Q) ∧
              ∀ t final_time, is_last self t (Some final_time) = Ok (isclose t m)
  end.
Proof.
  intros (ts' & name & -> & Hts)%txt_init_Ok. unfold is_last. simpl.
  destruct ts as [|x l]; subst ts'; [done|].
  destruct (last (sorted (x :: l))) as [m|] eqn:Hm.
  - exists m. split_and!.
    + rewrite last_lookup in Hm. apply list_elem_of_lookup_2 in Hm.
      unfold sorted in Hm. by rewrite merge_sort_Permutation in Hm.
    + intros y Hy. apply (StronglySorted_last (sorted (x :: l))); [|done|].
      * apply StronglySorted_merge_sort; apply _.
      * unfold sorted. by rewrite merge_sort_Permutation.
    + intros t _. by rewrite (index_last _ m).
  - apply last_None in Hm. apply (f_equal length) in Hm. unfold sorted in Hm.
    rewrite merge_sort_Permutation in Hm. done.
Qed.

End Times.

Lemma export_times_witness :
  ∃ self,
    init "solute" (VStr "out/solute.txt") (Some [2 # 1; 1 # 1]%Q) false ".2e" = Ok self ∧
    is_it_time_to_export (H := Examples.example_host) self (1 # 1) = true.
Proof.
  destruct (init "solute" (VStr "out/solute.txt") (Some [2 # 1; 1 # 1]%Q) false ".2e")
    as [self|e] eqn:Hinit; [|by vm_compute in Hinit].
  exists self. split; [done|].
  apply (export_times (H := Examples.example_host) _ _ _ _ _ _ (1 # 1)%Q Hinit).
  exists (1 # 1)%Q. split; [|by vm_compute]. rewrite !elem_of_cons. by right; left.
Defined.

Lemma is_last_with_times_witness :
  ∃ self m,
    init "solute" (VStr "out/solute.txt") (Some [2 # 1; 1 # 1]%Q) false ".2e" = Ok self ∧
    is_last (H := Examples.example_host) self (2 # 1) (Some (5 # 1)%Q)
      = Ok (isclose (Host := Examples.example_host) (2 # 1) m).
Proof.
  destruct (init "solute" (VStr "out/solute.txt") (Some [2 # 1; 1 # 1]%Q) false ".2e")
    as [self|e] eqn:Hinit; [|by vm_compute in Hinit].
  destruct (is_last_with_times (H := Examples.example_host) _ _ _ _ _ _ Hinit)
    as (m & _ & _ & Hlast).
  exists self, m. split; [done|]. apply Hlast.
Defined.

Section Write.
Context `{Host}.

Lemma write_not_due solution t final_time self fs :
  is_it_time_to_export self t = false →
  write solution t final_time (self, fs) = (Ok (), (self, fs)).
Proof. intros Hdue. unfold write, bind, get, when. simpl. by rewrite Hdue. Qed.

(** A call on an export time that returns. *)
Lemma write_due_Ok sol t final_time self fs self' fs' :
  is_it_time_to_export self t = true →
  write (Ok sol) t final_time (self, fs) = (Ok (), (self', fs')) →
  ∃ fn suffix tb column b,
    filename self = Some fn ∧ ensure_dirname fs fn = Ok () ∧
    label self t final_time = Ok suffix ∧
    initialised self = Some tb ∧
    profile sol (_unique_indices tb) column ∧
    length (data tb) = length column ∧
    (if write_at_last self then is_last self t final_time else Ok true) = Ok b ∧
    (b = true → open_for_writing fs fn = Ok ()) ∧
    self' = with_table self (extended tb suffix column) ∧
    fs' = if b then <[fn := (header tb +:+ suffix,
                             zip_with (λ row v, row ++ [v]) (data tb) column)]> fs
          else fs.
Proof.
  intros Hdue. unfold write, bind at 1 2, get, when. simpl. rewrite Hdue.
  unfold bind at 1 2, lift. simpl.
  destruct (filename self) as [fn|] eqn:Hfn; [|done]. simpl.
  unfold bind at 1. destruct (ensure_dirname fs fn) as [[]|e] eqn:Hdir; [|done].
  unfold bind at 1. destruct (label self t final_time) as [suffix|e] eqn:Hlabel; [|done].
  unfold bind at 1. destruct (initialised self) as [tb|] eqn:Htb; [|done].
  unfold bind at 1. simpl.
  destruct (Np.take_indices sol (_unique_indices tb)) as [column|e] eqn:Hcol;
    [|done].
  apply take_indices_profile in Hcol.
  unfold bind at 1, column_stack. destruct (decide (length (data tb) = length column)) as [Hlen|];
    [|done].
  unfold bind at 1. simpl. unfold bind at 1.
  destruct (if write_at_last self then is_last self t final_time else Ok true) as [b|e] eqn:Hb;
    [|done].
  intros Hrun. exists fn, suffix, tb, column, b.
  destruct b; simpl in Hrun.
  - destruct (open_for_writing fs fn) as [[]|e] eqn:Hopen; [|done].
    injection Hrun as <- <-. by split_and!.
  - injection Hrun as <- <-. by split_and!.
Qed.

(** A call on an export time whose solution covers the exported points. *)
Lemma write_due_run sol t final_time self fs fn suffix tb column b :
  is_it_time_to_export self t = true →
  filename self = Some fn → ensure_dirname fs fn = Ok () →
  label self t final_time = Ok suffix →
  initialised self = Some tb →
  profile sol (_unique_indices tb) column →
  length (data tb) = length column →
  (if write_at_last self then is_last self t final_time else Ok true) = Ok b →
  (b = true → open_for_writing fs fn = Ok ()) →
  write (Ok sol) t final_time (self, fs) =
    (Ok (), (with_table self (extended tb suffix column),
             if b then <[fn := (header tb +:+ suffix,
                                zip_with (λ row v, row ++ [v]) (data tb) column)]> fs
             else fs)).
Proof.
  intros Hdue Hfn Hdir Hlabel Htb Hcol%take_indices_profile Hlen Hb Hopen.
  unfold write, bind at 1 2, get, when. simpl. rewrite Hdue.
  unfold bind at 1 2, lift. simpl. rewrite Hfn. simpl.
  unfold bind at 1. rewrite Hdir.
  unfold bind at 1. rewrite Hlabel.
  unfold bind at 1. rewrite Htb.
  unfold bind at 1. simpl. rewrite Hcol.
  unfold bind at 1, column_stack. rewrite decide_True by done.
  unfold bind at 1. simpl. unfold bind at 1. rewrite Hb.
  destruct b; simpl; [|done]. by rewrite Hopen.
Qed.

End Write.

Section Runs.
Context `{Host}.

(** X24. The table after a run of calls to [write] that returns: the
    exported points are the same, and the row of each point is its row
    before the run followed by the value of the solution at that point for
    each call that fell on an export time, in order. *)
Theorem table_after_run final_time calls self fs self' fs' tb :
  initialised self = Some tb →
  writes final_time calls (self, fs) = (Ok (), (self', fs')) →
  ∃ tb',
    initialised self' = Some tb' ∧
    _unique_indices tb' = _unique_indices tb ∧
    length (data tb') = length (data tb) ∧
    ∀ j i row', _unique_indices tb !! j = Some i → data tb' !! j = Some row' →
      ∃ row values,
        data tb !! j = Some row ∧ row' = row ++ values ∧
        Forall2 (λ c v, c.1 !! i = Some v) (due self calls) values.
Proof.
  revert self fs tb. induction calls as [|[sol t] calls IH]; intros self fs tb Htb.
  - intros [= <- <-]. exists tb. split_and!; try done.
    intros j i row' _ Hrow. exists row', []. split_and!; [done| |constructor].
    by rewrite app_nil_r.
  - unfold writes. simpl. unfold bind at 1.
    destruct (write (Ok sol) t final_time (self, fs)) as [[[]|e] [self1 fs1]] eqn:Hw; [|done].
    intros Hrun. unfold due. simpl.
    destruct (is_it_time_to_export self t) eqn:Hdue.
    + rewrite filter_cons_True by (simpl; congruence).
      apply write_due_Ok in Hw
        as (fn & suffix & tb0 & column & b & _ & _ & _ & Htb0 & Hcol & Hlen & _ & _ & -> & _);
        [|done].
      rewrite Htb in Htb0. injection Htb0 as <-.
      apply (IH _ _ (extended tb suffix column)) in Hrun as (tb' & Htb' & Hidx & Hrows & Hrow);
        [|done].
      exists tb'. split_and!; [done|done| |].
      * rewrite Hrows. simpl. rewrite length_zip_with. lia.
      * intros j i row' Hi Hrow'. destruct (Hrow j i row' Hi Hrow')
          as (row1 & values & Hrow1 & -> & Hvalues).
        simpl in Hrow1. apply lookup_zip_with_Some in Hrow1 as (row & v & -> & Hj & Hv).
        exists row, (v :: values). split_and!; [done|by rewrite <- app_assoc|].
        constructor; [|done]. simpl.
        unfold profile in Hcol. rewrite Forall2_lookup in Hcol. specialize (Hcol j).
        rewrite Hi, Hv in Hcol. by inversion Hcol.
    + rewrite filter_cons_False by (simpl; congruence).
      rewrite write_not_due in Hw by done. injection Hw as <- <-.
      by apply (IH _ _ tb) in Hrun.
Qed.


(** X26. An export built with the empty list of times never writes: every
    run of calls to [write] returns and leaves the object and the disk as
    they were. *)
Theorem empty_times_never_write field fn wal hf self final_time calls fs :
  init field fn (Some []) wal hf = Ok self →
  writes final_time calls (self, fs) = (Ok (), (self, fs)).
Proof.
  intros (ts' & name & -> & ->)%txt_init_Ok.
  induction calls as [|[sol t] calls IH]; [done|].
  unfold writes. simpl. unfold bind at 1. by rewrite write_not_due.
Qed.

Lemma writes_keeps final_time calls self fs self' fs' :
  writes final_time calls (self, fs) = (Ok (), (self', fs')) →
  times self' = times self ∧ filename self' = filename self ∧
  write_at_last self' = write_at_last self.
Proof.
  revert self fs. induction calls as [|[sol t] calls IH]; intros self fs.
  - by intros [= <- <-].
  - unfold writes. simpl. unfold bind at 1.
    destruct (write (Ok sol) t final_time (self, fs)) as [[[]|e] [self1 fs1]] eqn:Hw; [|done].
    intros (Ht & Hf & Hb)%IH.
    destruct (is_it_time_to_export self t) eqn:Hdue.
    + apply write_due_Ok in Hw
        as (fn & suffix & tb & column & b0 & _ & _ & _ & _ & _ & _ & _ & _ & -> & _);
        [|done].
      done.
    + rewrite write_not_due in Hw by done. by injection Hw as <- <-.
Qed.

(** Two runs of the same calls that return, on exports that differ in
    [write_at_last] only, end with objects that differ in it only, whatever
    the disks. *)
Lemma writes_related final_time calls self fs self' fs' b fs0 selfb fsb :
  writes final_time calls (self, fs) = (Ok (), (self', fs')) →
  writes final_time calls (with_write_at_last self b, fs0) = (Ok (), (selfb, fsb)) →
  selfb = with_write_at_last self' b.
Proof.
  revert self fs fs0. induction calls as [|[sol t] calls IH]; intros self fs fs0.
  - by intros [= <- <-] [= <- <-].
  - intros Hrun Hrunb.
    unfold writes in Hrun, Hrunb. simpl in Hrun, Hrunb.
    unfold bind at 1 in Hrun. unfold bind at 1 in Hrunb.
    destruct (write (Ok sol) t final_time (self, fs)) as [[[]|e] [self1 fs1]] eqn:Hw; [|done].
    destruct (write (Ok sol) t final_time (with_write_at_last self b, fs0))
      as [[[]|e] [self1b fs1b]] eqn:Hwb; [|done].
    destruct (is_it_time_to_export self t) eqn:Hdue.
    + apply write_due_Ok in Hw
        as (fn & suffix & tb & column & b0 & _ & _ & Hlabel & Htb & Hcol & _ & _ & _ & -> & _);
        [|done].
      apply write_due_Ok in Hwb
        as (fn' & suffix' & tb' & column' & b0' & _ & _ & Hlabel' & Htb' & Hcol' & _ & _ & _
            & -> & _); [|done].
      simpl in Htb'. rewrite Htb in Htb'. injection Htb' as <-.
      change (label (with_write_at_last self b) t final_time)
        with (label self t final_time) in Hlabel'.
      rewrite Hlabel in Hlabel'. injection Hlabel' as <-.
      rewrite (profile_unique _ _ _ _ Hcol' Hcol) in Hrunb.
      exact (IH _ _ _ Hrun Hrunb).
    + rewrite write_not_due in Hw by done. injection Hw as <- <-.
      rewrite write_not_due in Hwb by done. injection Hwb as <- <-.
      exact (IH _ _ _ Hrun Hrunb).
Qed.

(** When the last call of a run that returns is one that writes, the file
    holds the table of the object. *)
Lemma final_file final_time calls c self fs self' fs' :
  writes final_time (calls ++ [c]) (self, fs) = (Ok (), (self', fs')) →
  is_it_time_to_export self c.2 = true →
  is_last self c.2 final_time = Ok true →
  ∃ fn tb',
    filename self = Some fn ∧ initialised self' = Some tb' ∧
    fs' !! fn = Some (header tb', data tb').
Proof.
  intros Hrun Hdue Hlast.
  unfold writes in Hrun. rewrite for_each_app in Hrun. unfold bind at 1 in Hrun.
  destruct (for_each calls _ _) as [[[]|e] [self1 fs1]] eqn:Hcalls; [|done].
  apply writes_keeps in Hcalls as (Ht & Hf & Hb).
  destruct c as [sol t]. simpl in Hrun, Hdue, Hlast. unfold bind at 1 in Hrun.
  destruct (write (Ok sol) t final_time (self1, fs1)) as [[[]|e] [self2 fs2]] eqn:Hw; [|done].
  injection Hrun as -> ->.
  assert (Hdue1 : is_it_time_to_export self1 t = true).
  { unfold is_it_time_to_export in *. by rewrite Ht. }
  assert (Hlast1 : is_last self1 t final_time = Ok true).
  { unfold is_last in *. by rewrite Ht. }
  apply write_due_Ok in Hw
    as (fn & suffix & tb & column & b0 & Hfn & _ & _ & _ & _ & _ & Hb0 & _ & -> & ->);
    [|done].
  assert (b0 = true) as ->.
  { rewrite Hlast1 in Hb0. destruct (write_at_last self1); congruence. }
  exists fn, (extended tb suffix column). split_and!.
  - by rewrite <- Hf.
  - done.
  - unfold files. by rewrite lookup_insert_eq.
Qed.

(** X27. [write_at_last] changes when the file is written, not what it
    holds in the end: if a run of calls returns, the same run returns on the
    same export with another value of [write_at_last] (from a disk that may
    differ), and the last call falls on an export time that [is_last]
    accepts, then the two objects end with the same table and, on both
    disks, the file holds the header and the data of that table. *)
Theorem write_at_last_final_file final_time calls c self fs self' fs' b fs0 selfb fsb :
  writes final_time (calls ++ [c]) (self, fs) = (Ok (), (self', fs')) →
  writes final_time (calls ++ [c]) (with_write_at_last self b, fs0)
    = (Ok (), (selfb, fsb)) →
  is_it_time_to_export self c.2 = true →
  is_last self c.2 final_time = Ok true →
  ∃ fn tb',
    filename self = Some fn ∧
    initialised self' = Some tb' ∧
    selfb = with_write_at_last self' b ∧
    fs' !! fn = Some (header tb', data tb') ∧
    fsb !! fn = Some (header tb', data tb').
Proof.
  intros Hrun Hrunb Hdue Hlast.
  destruct (final_file _ _ _ _ _ _ _ Hrun Hdue Hlast) as (fn & tb' & Hfn & Htb' & Hfile).
  destruct (final_file _ _ _ _ _ _ _ Hrunb Hdue Hlast) as (fnb & tbb & Hfnb & Htbb & Hfileb).
  simpl in Hfnb. rewrite Hfn in Hfnb. injection Hfnb as <-.
  pose proof (writes_related _ _ _ _ _ _ _ _ _ _ Hrun Hrunb) as ->.
  simpl in Htbb. rewrite Htb' in Htbb. injection Htbb as <-.
  by exists fn, tb'.
Qed.

End Runs.

Lemma table_after_run_witness :
  ∃ self' fs' tb',
    writes (H := Examples.example_host) (Some (2 # 1)%Q) Examples.txt_calls
      (Examples.example_txt (Some [1 # 1; 2 # 1]%Q) false, ∅) = (Ok (), (self', fs')) ∧
    initialised self' = Some tb' ∧
    ∀ row', data tb' !! 0%nat = Some row' →
      ∃ row values,
        [[0 # 1]; [1 # 2]; [1 # 1]]%Q !! 0%nat = Some row ∧ row' = row ++ values ∧
        Forall2 (λ c v, c.1 !! 2%nat = Some v)
          (due (H := Examples.example_host)
             (Examples.example_txt (Some [1 # 1; 2 # 1]%Q) false) Examples.txt_calls)
          values.
Proof.
  destruct (writes (H := Examples.example_host) (Some (2 # 1)%Q) Examples.txt_calls
              (Examples.example_txt (Some [1 # 1; 2 # 1]%Q) false, ∅))
    as [[[]|e] [self' fs']] eqn:Hrun; [|by vm_compute in Hrun].
  destruct (table_after_run (H := Examples.example_host) (Some (2 # 1)%Q) Examples.txt_calls
              (Examples.example_txt (Some [1 # 1; 2 # 1]%Q) false) ∅ self' fs'
              (mkTable "x" [[0 # 1]; [1 # 2]; [1 # 1]]%Q [2; 0; 1]%nat) eq_refl Hrun)
    as (tb' & Htb' & _ & _ & Hrows).
  exists self', fs', tb'. split_and!; [done..|].
  intros row'. by apply (Hrows 0%nat 2%nat row').
Defined.


Lemma empty_times_never_write_witness :
  ∃ self,
    init "solute" (VStr "out/solute.txt") (Some []) true ".2e" = Ok self ∧
    writes (H := Examples.example_host) (Some (2 # 1)%Q) Examples.txt_calls (self, ∅)
      = (Ok (), (self, ∅)).
Proof.
  destruct (init "solute" (VStr "out/solute.txt") (Some []) true ".2e")
    as [self|e] eqn:Hinit; [|by vm_compute in Hinit].
  exists self. split; [done|].
  by apply (empty_times_never_write (H := Examples.example_host) "solute"
              (VStr "out/solute.txt") true ".2e").
Defined.

Lemma write_at_last_final_file_witness :
  ∃ self' fs' selfb fsb tb',
    writes (H := Examples.example_host) (Some (2 # 1)%Q)
      (take 2 Examples.txt_calls ++ [([8 # 1; 9 # 1; 7 # 1], 2 # 1)]%Q)
      (Examples.example_txt (Some [1 # 1; 2 # 1]%Q) false, ∅) = (Ok (), (self', fs')) ∧
    writes (H := Examples.example_host) (Some (2 # 1)%Q)
      (take 2 Examples.txt_calls ++ [([8 # 1; 9 # 1; 7 # 1], 2 # 1)]%Q)
      (Examples.example_txt (Some [1 # 1; 2 # 1]%Q) true, Examples.stale_disk)
      = (Ok (), (selfb, fsb)) ∧
    initialised self' = Some tb' ∧
    selfb = with_write_at_last self' true ∧
    fs' !! "out/solute.txt" = Some (header tb', data tb') ∧
    fsb !! "out/solute.txt" = Some (header tb', data tb').
Proof.
  destruct (writes (H := Examples.example_host) (Some (2 # 1)%Q)
              (take 2 Examples.txt_calls ++ [([8 # 1; 9 # 1; 7 # 1], 2 # 1)]%Q)
              (Examples.example_txt (Some [1 # 1; 2 # 1]%Q) false, ∅))
    as [[[]|e] [self' fs']] eqn:Hrun; [|by vm_compute in Hrun].
  destruct (writes (H := Examples.example_host) (Some (2 # 1)%Q)
              (take 2 Examples.txt_calls ++ [([8 # 1; 9 # 1; 7 # 1], 2 # 1)]%Q)
              (Examples.example_txt (Some [1 # 1; 2 # 1]%Q) true, Examples.stale_disk))
    as [[[]|e] [selfb fsb]] eqn:Hrunb; [|by vm_compute in Hrunb].
  destruct (write_at_last_final_file (H := Examples.example_host) _ _ _ _ _ _ _
              true Examples.stale_disk selfb fsb Hrun Hrunb eq_refl eq_refl)
    as (fn & tb' & Hfn & Htb' & Hselfb & Hfile & Hfileb).
  injection Hfn as <-.
  by exists self', fs', selfb, fsb, tb'.
Defined.

End TXTExportFacts.

(** ** The errors against exact solutions *)

Module ComputeErrorFacts.
Import Ufl PostProcessing ComputeError PyFacts.



Section Errors.
Context `{ErrorBackend}.

(** X28. The dictionary of named solutions is built before anything is
    looked up: without any solution [compute_error] raises [IndexError]
    whatever is asked, and when nothing is asked it returns the empty table
    exactly when there is a solution. *)
Theorem compute_error_needs_solutions t :
  (∀ parameters, compute_error parameters t [] = Raise IndexError) ∧
  (∀ res, compute_error [] t res = Ok [] ↔ res ≠ []).
Proof.
  split; [done|]. intros res. unfold compute_error. split.
  - by intros Hrun ->.
  - intros Hres. destruct res as [|u res]; [done|].
    assert (Hlast : ∀ k, (1 ≤ k ≤ 2)%Z →
              is_Ok (index (u :: res) (Z.of_nat (length (u :: res)) - k))).
    { intros k Hk. unfold index.
      destruct (decide (0 ≤ Z.of_nat (length (u :: res)) - k
                        < Z.of_nat (length (u :: res)))%Z) as [Hin|Hout].
      - destruct (lookup_lt_is_Some_2 (u :: res)
                    (Z.to_nat (Z.of_nat (length (u :: res)) - k))) as [x ->]; [lia|].
        by eexists.
      - rewrite decide_True by (simpl in *; lia).
        destruct (lookup_lt_is_Some_2 (u :: res)
                    (Z.to_nat (Z.of_nat (length (u :: res))
                               + (Z.of_nat (length (u :: res)) - k)))) as [x ->];
          [simpl in *; lia|].
        by eexists. }
    unfold solution_dict. change (index (u :: res) 0) with (Ok u : result expr). simpl.
    destruct (Hlast 2%Z) as [r Hr]; [lia|]. destruct (Hlast 1%Z) as [T HT]; [lia|].
    simpl in Hr, HT. rewrite Hr. simpl. rewrite HT. done.
Qed.

(** X29. A table that [compute_error] returns has one row per error
    dictionary, and each row holds the time followed by one value per exact
    solution of its dictionary. *)
Theorem compute_error_rows parameters t res tab :
  compute_error parameters t res = Ok tab →
  Forall2 (λ error row, ∃ exact values,
             exact_solutions error = Some exact ∧
             row = t :: values ∧ length values = length exact)
          parameters tab.
Proof.
  unfold compute_error. intros (sd & _ & Hrows%comprehension_Ok)%bind_Ok.
  eapply Forall2_impl; [exact Hrows|]. intros error row. unfold error_row.
  intros (exact & Hexact%DerivedFacts.required_Ok &
          (values & Hvalues%comprehension_Ok & [= <-])%bind_Ok)%bind_Ok.
  exists exact, values. split_and!; [done..|].
  apply Forall2_length in Hvalues. by rewrite length_seq in Hvalues.
Qed.


End Errors.

Lemma compute_error_needs_solutions_witness :
  compute_error (H := Examples.example_error_backend) Examples.example_errors (5 # 1) []
    = Raise IndexError ∧
  compute_error (H := Examples.example_error_backend) [] (5 # 1) Examples.example_solutions
    = Ok [].
Proof.
  destruct (compute_error_needs_solutions (H := Examples.example_error_backend) (5 # 1)%Q)
    as [Hnone Hsome].
  split; [apply Hnone | by apply Hsome].
Defined.

Lemma compute_error_rows_witness :
  ∃ tab,
    compute_error (H := Examples.example_error_backend) Examples.example_errors (5 # 1)
      Examples.example_solutions = Ok tab ∧
    Forall2 (λ error row, ∃ exact values,
               exact_solutions error = Some exact ∧
               row = (5 # 1)%Q :: values ∧ length values = length exact)
            Examples.example_errors tab.
Proof.
  destruct (compute_error (H := Examples.example_error_backend) Examples.example_errors
              (5 # 1) Examples.example_solutions) as [tab|e] eqn:Hrun;
    [|by vm_compute in Hrun].
  exists tab. split; [done|].
  exact (compute_error_rows (H := Examples.example_error_backend) _ _ _ _ Hrun).
Defined.


End ComputeErrorFacts.
